(** * json2html: the HTML <-> JSON conversion utility

    A shallow embedding of [extractAttributes], [htmlToJson] and
    [jsonToHtml], and of the demo driver: its document and the
    whitespace normalisation it applies when it compares the document
    with its reconstruction.

    JavaScript strings are sequences of UTF-16 code units; a string is
    modelled as the list of its code units, each a natural number.  Indices
    and lengths are integers, as in the source, where a search that fails
    yields [-1] and differences of indices are formed before they are
    added. *)

From Stdlib Require Import List ZArith NArith Bool Lia String Ascii.
Import ListNotations.

Set Warnings "-register-all".
Open Scope Z_scope.

(** ** Strings *)

Abbreviation char := N (only parsing).
Abbreviation jsstring := (list N) (only parsing).

(** The code units of a literal (every literal of the source is ASCII). *)
Definition js (s : string) : jsstring :=
  map N_of_ascii (list_ascii_of_string s).

(** The two quote characters, which the literals above do not spell. *)
Definition dquote : char := 34%N.
Definition squote : char := 39%N.

(** [s.length] *)
Definition len (s : jsstring) : Z := Z.of_nat (List.length s).

(** [a === b] on strings *)
Fixpoint jseq (a b : jsstring) : bool :=
  match a, b with
  | [], [] => true
  | x :: a', y :: b' => N.eqb x y && jseq a' b'
  | _, _ => false
  end.

(** ECMAScript WhiteSpace and LineTerminator code points: what [trim()]
    strips and what [\s] matches. *)
Definition is_ws (c : char) : bool :=
  (N.leb 9 c && N.leb c 13) || N.eqb c 32 || N.eqb c 160 || N.eqb c 5760
  || (N.leb 8192 c && N.leb c 8202) || N.eqb c 8232 || N.eqb c 8233
  || N.eqb c 8239 || N.eqb c 8287 || N.eqb c 12288 || N.eqb c 65279.

(** The character class [[a-zA-Z0-9_-]]. *)
Definition is_name_char (c : char) : bool :=
  (N.leb 97 c && N.leb c 122) || (N.leb 65 c && N.leb c 90)
  || (N.leb 48 c && N.leb c 57) || N.eqb c 95 || N.eqb c 45.

Fixpoint takeWhile (p : char -> bool) (s : jsstring) : jsstring :=
  match s with
  | c :: s' => if p c then c :: takeWhile p s' else []
  | [] => []
  end.

Fixpoint dropWhile (p : char -> bool) (s : jsstring) : jsstring :=
  match s with
  | c :: s' => if p c then dropWhile p s' else s
  | [] => []
  end.

(** [s.trim()] *)
Definition trimStart (s : jsstring) : jsstring := dropWhile is_ws s.
Definition trimEnd (s : jsstring) : jsstring := rev (dropWhile is_ws (rev s)).
Definition trim (s : jsstring) : jsstring := trimEnd (trimStart s).

(** An index argument brought into [0 .. s.length]. *)
Definition clamp (s : jsstring) (i : Z) : nat :=
  Z.to_nat (Z.min (Z.max i 0) (len s)).

(** [s.substring(a, b)]: both arguments are clamped and, when the first
    exceeds the second, exchanged. *)
Definition substring (s : jsstring) (a b : Z) : jsstring :=
  let a' := clamp s a in
  let b' := clamp s b in
  firstn (Nat.max a' b' - Nat.min a' b') (skipn (Nat.min a' b') s).

(** [s.substring(a)] *)
Definition substring_from (s : jsstring) (a : Z) : jsstring :=
  skipn (clamp s a) s.

(** [s.startsWith(pat)] at the head of [s]. *)
Fixpoint starts_with (pat s : jsstring) : bool :=
  match pat, s with
  | [], _ => true
  | p :: pat', c :: s' => N.eqb p c && starts_with pat' s'
  | _ :: _, [] => false
  end.

(** Offset of the first occurrence of [pat] in [s]. *)
Fixpoint find_sub (pat s : jsstring) : option nat :=
  if starts_with pat s then Some 0%nat
  else match s with
       | [] => None
       | _ :: s' => option_map S (find_sub pat s')
       end.

(** [s.indexOf(pat, from)] *)
Definition indexOf (s pat : jsstring) (from : Z) : Z :=
  let k := clamp s from in
  match find_sub pat (skipn k s) with
  | Some p => Z.of_nat (k + p)
  | None => -1
  end.

(** [s[i]], [undefined] outside the string. *)
Definition charAt (s : jsstring) (i : Z) : option char :=
  if i <? 0 then None else nth_error s (Z.to_nat i).

Definition char_is (o : option char) (c : char) : bool :=
  match o with
  | Some x => N.eqb x c
  | None => false
  end.

(** [s.endsWith(suffix)] *)
Definition endsWith (s suffix : jsstring) : bool :=
  starts_with (rev suffix) (rev s).

(** [s.toLowerCase()] on the code units [A-Z]; the source applies it to a
    tag name matched by [[a-zA-Z0-9_-]+] only. *)
Definition lower_char (c : char) : char :=
  if N.leb 65 c && N.leb c 90 then (c + 32)%N else c.
Definition toLowerCase (s : jsstring) : jsstring := map lower_char s.

(** [list.includes(x)] on a list of strings. *)
Definition includes (l : list jsstring) (x : jsstring) : bool :=
  existsb (jseq x) l.

(** ** Plain objects used as string maps

    [attributes] starts as [{}] and is filled by [attributes[key] = value].
    An object is modelled by the list of its own enumerable properties in
    the order [for ... in] visits them: array-index keys in ascending
    numeric order first, then the other keys in order of creation.
    Assigning to an existing key keeps its place.  Assigning a string to
    the key [__proto__] reaches the accessor inherited from
    [Object.prototype], which ignores a value that is neither an object nor
    [null]: no own property is created. *)

Abbreviation obj := (list (list N * list N)) (only parsing).

Definition proto_key : jsstring := js "__proto__".

Fixpoint obj_get (o : obj) (k : jsstring) : option jsstring :=
  match o with
  | [] => None
  | (k', v) :: o' => if jseq k' k then Some v else obj_get o' k
  end.

Fixpoint obj_update (o : obj) (k v : jsstring) : obj :=
  match o with
  | [] => []
  | (k', v') :: o' =>
      if jseq k' k then (k', v) :: o' else (k', v') :: obj_update o' k v
  end.

Definition is_digit (c : char) : bool := N.leb 48 c && N.leb c 57.

Definition decimal_value (k : jsstring) : N :=
  fold_left (fun acc c => (10 * acc + (c - 48))%N) k 0%N.

(** An array index is the canonical decimal spelling of an integer in
    [0 .. 2^32 - 2]. *)
Definition array_index (k : jsstring) : option N :=
  match k with
  | [] => None
  | c :: k' =>
      if forallb is_digit k
         && (negb (N.eqb c 48) || match k' with [] => true | _ => false end)
         && N.leb (decimal_value k) 4294967294
      then Some (decimal_value k)
      else None
  end.

Fixpoint obj_insert_index (n : N) (k v : jsstring) (o : obj) : obj :=
  match o with
  | [] => [(k, v)]
  | (k', v') :: o' =>
      match array_index k' with
      | Some m =>
          if N.ltb m n then (k', v') :: obj_insert_index n k v o'
          else (k, v) :: o
      | None => (k, v) :: o
      end
  end.

(** [o[k] = v] for a string [v]. *)
Definition obj_set (o : obj) (k v : jsstring) : obj :=
  if jseq k proto_key then o
  else match obj_get o k with
       | Some _ => obj_update o k v
       | None =>
           match array_index k with
           | Some n => obj_insert_index n k v o
           | None => o ++ [(k, v)]
           end
       end.

(** ** The attribute pattern

    The global pattern of [extractAttributes]: a name, one or more of
    [[a-zA-Z0-9_-]], captured as group 1; then, optionally, whitespace, an
    equals sign, whitespace and a value, either between single quotes and
    free of single quotes (group 2) or between double quotes and free of
    double quotes (group 3).

    A match carries group 1 and the two optional value groups. *)

Record attr_match := {
  group1 : jsstring;
  group2 : option jsstring;
  group3 : option jsstring
}.

(** The value of a quoted alternative: the run of characters other than
    the quote, which the same quote must follow.  Returns the run and the
    number of code units matched, quotes included. *)
Definition quoted (q : char) (s : jsstring) : option (jsstring * nat) :=
  match s with
  | c :: s' =>
      if N.eqb c q then
        let v := takeWhile (fun x => negb (N.eqb x q)) s' in
        match dropWhile (fun x => negb (N.eqb x q)) s' with
        | _ :: _ => Some (v, (List.length v + 2)%nat)
        | [] => None
        end
      else None
  | [] => None
  end.

(** The optional part of the pattern, tried right after the name: the two
    value groups and the length matched. *)
Definition value_group (s : jsstring)
  : option (option jsstring * option jsstring * nat) :=
  let ws1 := takeWhile is_ws s in
  match dropWhile is_ws s with
  | c :: s1 =>
      if N.eqb c 61 then
        let ws2 := takeWhile is_ws s1 in
        let s2 := dropWhile is_ws s1 in
        let n := (List.length ws1 + 1 + List.length ws2)%nat in
        match quoted squote s2 with
        | Some (v, m) => Some (Some v, None, (n + m)%nat)
        | None =>
            match quoted dquote s2 with
            | Some (v, m) => Some (None, Some v, (n + m)%nat)
            | None => None
            end
        end
      else None
  | [] => None
  end.

(** The whole pattern tried at the head of [s]: the name is the longest
    run of name characters, the optional group is taken when it matches. *)
Definition attr_match_here (s : jsstring) : option (attr_match * nat) :=
  match takeWhile is_name_char s with
  | [] => None
  | name =>
      match value_group (dropWhile is_name_char s) with
      | Some (g2, g3, m) =>
          Some ({| group1 := name; group2 := g2; group3 := g3 |},
                (List.length name + m)%nat)
      | None =>
          Some ({| group1 := name; group2 := None; group3 := None |},
                List.length name)
      end
  end.

(** The leftmost position of [s], counted from [pos], where the pattern
    matches: the match and the position after it. *)
Fixpoint search_from (s : jsstring) (pos : nat) : option (attr_match * nat) :=
  match attr_match_here s with
  | Some (m, n) => Some (m, (pos + n)%nat)
  | None =>
      match s with
      | [] => None
      | _ :: s' => search_from s' (S pos)
      end
  end.

(** [attrRegex.exec(tagString)] with the pattern's [lastIndex]: the match
    and the new [lastIndex], or [null]. *)
Definition attrRegex_exec (tagString : jsstring) (lastIndex : nat)
  : option (attr_match * nat) :=
  if Nat.leb lastIndex (List.length tagString)
  then search_from (skipn lastIndex tagString) lastIndex
  else None.

(** ** extractAttributes *)

(** [value]: group 2 when defined, else group 3 when defined, else the
    empty string. *)
Definition match_value (m : attr_match) : jsstring :=
  match group2 m with
  | Some v => v
  | None => match group3 m with
            | Some v => v
            | None => []
            end
  end.

(** The [while] loop; [None] when the fuel runs out first. *)
Fixpoint extract_loop (fuel : nat) (tagString : jsstring) (lastIndex : nat)
    (attributes : obj) : option obj :=
  match fuel with
  | O => None
  | S fuel' =>
      match attrRegex_exec tagString lastIndex with
      | None => Some attributes
      | Some (m, lastIndex') =>
          let key := group1 m in
          let value := match_value m in
          extract_loop fuel' tagString lastIndex' (obj_set attributes key value)
      end
  end.

Definition extractAttributes (tagString : jsstring) : obj :=
  match extract_loop (S (List.length tagString)) tagString 0 [] with
  | Some attributes => attributes
  | None => []
  end.

(** ** Nodes

    The three object shapes of the source, by their [type] field:
    [{type: 'text', content}], [{type: 'comment', content}] and
    [{type: 'element', tagName, attributes, children}]. *)

Inductive node : Type :=
| Text (content : jsstring)
| Comment (content : jsstring)
| Element (tagName : jsstring) (attributes : obj) (children : list node).

(** The tag names both functions treat as self-closing. *)
Definition voidTags : list jsstring :=
  [js "br"; js "img"; js "input"; js "link"; js "meta"; js "hr";
   js "source"; js "area"].

(** ** htmlToJson *)

(** What one pass through the body of the [while] loop leaves behind: the
    loop is left ([break]), or it goes on with a new [index]. *)
Inductive outcome : Type :=
| Break (nodes : list node)
| Continue (index : Z) (nodes : list node).

(** [fullTagContent.match] against a name anchored at the start: group 1. *)
Definition tagNameMatch (fullTagContent : jsstring) : option jsstring :=
  match takeWhile is_name_char fullTagContent with
  | [] => None
  | name => Some name
  end.

(** [if (text.length > 0) nodes.push({type: 'text', content: text})] *)
Definition push_text (nodes : list node) (text : jsstring) : list node :=
  if 0 <? len text then nodes ++ [Text text] else nodes.

(** The body of the main parsing loop, entered with [index < html.length].
    [htmlToJson_rec] stands for the recursive call on [innerHTML].
    [consume(n)] is the assignment [index += n]; its result is never used. *)
Definition iteration (htmlToJson_rec : jsstring -> option (list node))
    (html : jsstring) (index : Z) (nodes : list node) : option outcome :=
  let nextOpenBracket := indexOf html (js "<") index in
  (* 1. text node *)
  if nextOpenBracket =? -1 then
    let remainingText := trim (substring_from html index) in
    Some (Break (push_text nodes remainingText))
  else
    let textBeforeTag := trim (substring html index nextOpenBracket) in
    let nodes := push_text nodes textBeforeTag in
    let index := nextOpenBracket in
    if len html <=? index + 1 then Some (Break nodes)
    (* 2. comment node *)
    else if jseq (substring html index (index + 4)) (js "<!--") then
      let commentEnd := indexOf html (js "-->") index in
      if negb (commentEnd =? -1) then
        let index := index + 4 in
        let commentContent := trim (substring html index commentEnd) in
        let nodes := nodes ++ [Comment commentContent] in
        let index := index + (commentEnd - index + 3) in
        Some (Continue index nodes)
      else
        Some (Continue (index + 1) nodes)
    (* 3. element node *)
    else if char_is (charAt html index) 60%N
            && negb (char_is (charAt html (index + 1)) 47%N) then
      let tagEnd := indexOf html (js ">") index in
      if tagEnd =? -1 then Some (Break nodes)
      else
        let fullTagContent := trim (substring html (index + 1) tagEnd) in
        match tagNameMatch fullTagContent with
        | None => Some (Continue (index + 1) nodes)
        | Some name =>
            let tagName := toLowerCase name in
            let attributesString :=
              trim (substring_from fullTagContent (len tagName)) in
            let attributes := extractAttributes attributesString in
            let index := index + (tagEnd - index + 1) in
            let endTag := js "</" ++ tagName ++ js ">" in
            let endTagIndex := indexOf html endTag index in
            let isSelfClosing :=
              endsWith fullTagContent (js "/") || includes voidTags tagName in
            if isSelfClosing || (endTagIndex =? -1) then
              Some (Continue index (nodes ++ [Element tagName attributes []]))
            else
              let innerHTML := substring html index endTagIndex in
              if jseq tagName (js "script") then
                let children :=
                  if 0 <? len (trim innerHTML) then [Text innerHTML] else [] in
                let index := index + len innerHTML in
                let index := index + len endTag in
                Some (Continue index
                        (nodes ++ [Element tagName attributes children]))
              else
                match htmlToJson_rec innerHTML with
                | None => None
                | Some children =>
                    let index := index + len innerHTML in
                    let index := index + len endTag in
                    Some (Continue index
                            (nodes ++ [Element tagName attributes children]))
                end
        end
    (* 4. closing tag *)
    else if char_is (charAt html index) 60%N
            && char_is (charAt html (index + 1)) 47%N then
      Some (Continue (index + 1) nodes)
    else
      Some (Continue (index + 1) nodes).

(** The loop [while (index < html.length)], and through [iteration] the
    recursive calls, which start at index 0 with no nodes.  [None] when
    the fuel runs out before the loop is left. *)
Fixpoint parse_loop (fuel : nat) (html : jsstring) (index : Z)
    (nodes : list node) : option (list node) :=
  match fuel with
  | O => None
  | S fuel' =>
      if index <? len html then
        match iteration (fun innerHTML => parse_loop fuel' innerHTML 0 [])
                html index nodes with
        | Some (Break nodes') => Some nodes'
        | Some (Continue index' nodes') => parse_loop fuel' html index' nodes'
        | None => None
        end
      else Some nodes
  end.

(** The fuel [S (length html)] is never exhausted, see
    [parse_loop_enough_fuel]. *)
Definition htmlToJson (html : jsstring) : list node :=
  match parse_loop (S (List.length html)) html 0 [] with
  | Some nodes => nodes
  | None => []
  end.

(** ** jsonToHtml *)

(** The [for ... in] loop that builds [attrString]. *)
Fixpoint attrString (attributes : obj) : jsstring :=
  match attributes with
  | [] => []
  | (key, value) :: rest =>
      (match value with
       | [] => js " " ++ key
       | _ => js " " ++ key ++ js "=" ++ [dquote] ++ value ++ [dquote]
       end) ++ attrString rest
  end.

(** [jsonToHtml] on one node, and on an array of nodes
    ([jsonNode.map(jsonToHtml).join('')]).  An element whose [children]
    is empty adds nothing between its tags. *)
Fixpoint jsonToHtml_node (n : node) : jsstring :=
  match n with
  | Text content => content
  | Comment content => js "<!-- " ++ content ++ js " -->"
  | Element tagName attributes children =>
      let isSelfClosing := includes voidTags tagName in
      js "<" ++ tagName ++ attrString attributes ++ js ">"
      ++ (if negb isSelfClosing then
            (fix join (l : list node) : jsstring :=
               match l with
               | [] => []
               | c :: l' => jsonToHtml_node c ++ join l'
               end) children
            ++ js "</" ++ tagName ++ js ">"
          else [])
  end.

Definition jsonToHtml (jsonNode : list node) : jsstring :=
  flat_map jsonToHtml_node jsonNode.

(** ** The comparison of the demo driver

    [s.replace(/\s+/g, ' ').trim()]: every run of whitespace becomes one
    space, then the ends are trimmed. *)

Fixpoint collapse_ws (s : jsstring) : jsstring :=
  match s with
  | [] => []
  | c :: s' =>
      if is_ws c then
        match s' with
        | c' :: _ => if is_ws c' then collapse_ws s' else 32%N :: collapse_ws s'
        | [] => [32%N]
        end
      else c :: collapse_ws s'
  end.

Definition normalize (s : jsstring) : jsstring := trim (collapse_ws s).

(** ** Auxiliary notions for the properties *)

(** An [indexOf] result moved [k] places to the right. *)
Definition shiftZ (k r : Z) : Z := if r =? -1 then -1 else r + k.

(** An outcome whose cursor is moved [k] places to the right. *)
Definition shift_outcome (k : Z) (o : outcome) : outcome :=
  match o with
  | Break ns => Break ns
  | Continue i ns => Continue (i + k) ns
  end.

(** An outcome whose nodes follow [nodes]. *)
Definition prepend (nodes : list node) (o : outcome) : outcome :=
  match o with
  | Break ns => Break (nodes ++ ns)
  | Continue i ns => Continue i (nodes ++ ns)
  end.

(** The first pass of the loop body over [html], in which the recursive
    call is [htmlToJson] itself. *)
Definition first_pass (html : jsstring) : option outcome :=
  iteration (fun innerHTML => Some (htmlToJson innerHTML)) html 0 [].

(** The successive matches of the attribute pattern in [s], from left to
    right: after a match the scan resumes right behind it ([skip] counts
    the characters of the last match still to be passed over). *)
Fixpoint matches_skip (s : jsstring) (skip : nat) : list attr_match :=
  match s with
  | [] => []
  | _ :: s' =>
      match skip with
      | S k => matches_skip s' k
      | O =>
          match attr_match_here s with
          | Some (m, n) => m :: matches_skip s' (n - 1)
          | None => matches_skip s' 0
          end
      end
  end.

Definition attr_matches (s : jsstring) : list attr_match := matches_skip s 0.

(** [attributes[key] = value] for one match. *)
Definition record_match (attributes : obj) (m : attr_match) : obj :=
  obj_set attributes (group1 m) (match_value m).

(** The value of the last match named [k], if any. *)
Definition last_value (k : jsstring) (ms : list attr_match) : option jsstring :=
  fold_left (fun acc m => if jseq (group1 m) k then Some (match_value m) else acc)
            ms None.

(** Every element with a self-closing tag name, at any depth below [n] or
    [n] itself, is without children. *)
Fixpoint void_childless (n : node) : Prop :=
  match n with
  | Element tagName _ children =>
      (includes voidTags tagName = true -> children = [])
      /\ (fix all (l : list node) : Prop :=
            match l with
            | [] => True
            | c :: l' => void_childless c /\ all l'
            end) children
  | _ => True
  end.

(** The nodes an outcome carries. *)
Definition outcome_nodes (o : outcome) : list node :=
  match o with
  | Break nodes => nodes
  | Continue _ nodes => nodes
  end.

(** ** Canonical documents

    The trees [jsonToHtml] renders without loss: what the rendering of such
    a tree spells is what [htmlToJson] reads back. *)

(** A name: a non-empty run of name characters. *)
Definition name_ok (k : jsstring) : Prop :=
  k <> [] /\ forallb is_name_char k = true.

(** An attribute whose rendering [key="value"] ends at the closing quote
    and stays inside the tag. *)
Definition attr_ok (kv : jsstring * jsstring) : Prop :=
  name_ok (fst kv) /\ ~ In dquote (snd kv) /\ ~ In 62%N (snd kv).

(** Attributes listed in the order of an object built by assigning them
    one after the other (in particular, no key twice). *)
Definition attributes_ok (attributes : obj) : Prop :=
  Forall attr_ok attributes
  /\ fold_left (fun o kv => obj_set o (fst kv) (snd kv)) attributes []
     = attributes.

(** Text: not empty, trimmed, without [<]. *)
Definition text_ok (content : jsstring) : Prop :=
  content <> [] /\ trim content = content /\ ~ In 60%N content.

(** Comment content: trimmed, without the closing marker. *)
Definition comment_ok (content : jsstring) : Prop :=
  trim content = content /\ find_sub (js "-->") content = None.

(** No text node right after a text node. *)
Fixpoint no_adjacent_texts (l : list node) : Prop :=
  match l with
  | Text _ :: ((Text _ :: _) as l') => False
  | _ :: l' => no_adjacent_texts l'
  | [] => True
  end.

(** The children of a [script] element: none, or one text that is not
    blank. *)
Definition script_children (children : list node) : Prop :=
  children = [] \/ exists content, children = [Text content] /\ trim content <> [].

(** A canonical node: lower-case tag name; canonical attributes; no
    children under a self-closing name; otherwise children whose rendering
    does not contain the closing tag of the element, canonical themselves
    (raw under [script]). *)
Fixpoint canonical (n : node) : Prop :=
  match n with
  | Text content => text_ok content
  | Comment content => comment_ok content
  | Element tagName attributes children =>
      name_ok tagName /\ toLowerCase tagName = tagName
      /\ attributes_ok attributes
      /\ (if includes voidTags tagName then children = []
          else
            find_sub (js "</" ++ tagName ++ js ">") (jsonToHtml children) = None
            /\ (if jseq tagName (js "script") then script_children children
                else
                  no_adjacent_texts children
                  /\ (fix all (l : list node) : Prop :=
                        match l with
                        | [] => True
                        | c :: l' => canonical c /\ all l'
                        end) children))
  end.

Definition canonical_document (nodes : list node) : Prop :=
  no_adjacent_texts nodes /\ Forall canonical nodes.

(** The match the rendering of an attribute gives rise to. *)
Definition attr_to_match (kv : jsstring * jsstring) : attr_match :=
  match snd kv with
  | [] => {| group1 := fst kv; group2 := None; group3 := None |}
  | v => {| group1 := fst kv; group2 := None; group3 := Some v |}
  end.

(** What [attrString] puts after the name of an attribute. *)
Definition attr_value_part (value : jsstring) : jsstring :=
  match value with
  | [] => []
  | _ => js "=" ++ [dquote] ++ value ++ [dquote]
  end.

(** The last character is a name character or a double quote. *)
Definition ends_in_name_or_quote (s : jsstring) : Prop :=
  exists d r, rev s = d :: r /\ (is_name_char d = true \/ d = dquote).

(** No text node at the head of [l] when [n] is a text node. *)
Definition no_text_after (n : node) (l : list node) : Prop :=
  match n, l with
  | Text _, Text _ :: _ => False
  | _, _ => True
  end.

(** A match without a value part. *)
Definition bare_match (name : jsstring) : attr_match :=
  {| group1 := name; group2 := None; group3 := None |}.

(** [v] stands in [s] between two quotes of the same kind. *)
Definition quoted_in (v s : jsstring) : Prop :=
  exists q pre post,
    (q = squote \/ q = dquote) /\ s = pre ++ q :: v ++ q :: post.

(** ** Well-formed documents

    A document is well formed when it spells out a sequence of nodes:
    markup as [jsonToHtml] writes it, with any amount of whitespace around
    texts, between nodes, inside the comment delimiters and inside an
    opening tag, around its name and its attributes.  [renders nodes x]
    says that [x] is such a spelling of [nodes], [markup n m] that [m]
    spells the comment or element [n]. *)

Definition blank (w : jsstring) : Prop := forallb is_ws w = true.

(** The attributes of an element as an opening tag may spell them: each
    name after whitespace, which may be missing right behind a closing
    quote; a value that is not empty behind its name as [="value"], with
    any whitespace around the equals sign.  [glued] says that the
    spelling stands right behind a name, from which whitespace must
    separate the next one. *)
Inductive spells_attributes : bool -> obj -> jsstring -> Prop :=
| spells_none (glued : bool) : spells_attributes glued [] []
| spells_bare (glued : bool) (k : jsstring) (rest : obj) (w s : jsstring) :
    name_ok k -> blank w -> (glued = true -> w <> []) ->
    spells_attributes true rest s ->
    spells_attributes glued ((k, []) :: rest) (w ++ k ++ s)
| spells_valued (glued : bool) (k v : jsstring) (rest : obj)
    (w w1 w2 s : jsstring) :
    attr_ok (k, v) -> v <> [] ->
    blank w -> (glued = true -> w <> []) -> blank w1 -> blank w2 ->
    spells_attributes false rest s ->
    spells_attributes glued ((k, v) :: rest)
      (w ++ k ++ w1 ++ js "=" ++ w2 ++ [dquote] ++ v ++ [dquote] ++ s).

(** The interior of an opening tag, between [<] and [>]: the name and
    the attributes, with any whitespace before the name and at the
    end. *)
Inductive opening_tag (tagName : jsstring) (attributes : obj)
  : jsstring -> Prop :=
| opening_tag_intro (w0 a w1 : jsstring) :
    blank w0 -> spells_attributes true attributes a -> blank w1 ->
    opening_tag tagName attributes (w0 ++ tagName ++ a ++ w1).

Inductive renders : list node -> jsstring -> Prop :=
| renders_blank (w : jsstring) :
    blank w -> renders [] w
| renders_text (content w1 w2 : jsstring) :
    text_ok content -> blank w1 -> blank w2 ->
    renders [Text content] (w1 ++ content ++ w2)
| renders_markup (n : node) (m : jsstring) (l : list node) (x w : jsstring) :
    blank w -> markup n m -> renders l x ->
    renders (n :: l) (w ++ m ++ x)
| renders_text_markup (content w1 w2 : jsstring) (n : node) (m : jsstring)
    (l : list node) (x : jsstring) :
    text_ok content -> blank w1 -> blank w2 -> markup n m -> renders l x ->
    renders (Text content :: n :: l) (w1 ++ content ++ w2 ++ m ++ x)
with markup : node -> jsstring -> Prop :=
| markup_comment (body : jsstring) :
    find_sub (js "-->") (js "<!--" ++ body ++ js "-->")
    = Some (4 + List.length body)%nat ->
    markup (Comment (trim body)) (js "<!--" ++ body ++ js "-->")
| markup_void (tagName : jsstring) (attributes : obj) (t : jsstring) :
    name_ok tagName -> toLowerCase tagName = tagName ->
    attributes_ok attributes ->
    includes voidTags tagName = true ->
    opening_tag tagName attributes t ->
    markup (Element tagName attributes []) (60%N :: t ++ [62%N])
| markup_script (attributes : obj) (t inner : jsstring) :
    attributes_ok attributes ->
    opening_tag (js "script") attributes t ->
    find_sub (js "</script>") inner = None ->
    markup (Element (js "script") attributes
              (if 0 <? len (trim inner) then [Text inner] else []))
           (60%N :: t ++ 62%N :: inner ++ js "</script>")
| markup_element (tagName : jsstring) (attributes : obj)
    (children : list node) (t inner : jsstring) :
    name_ok tagName -> toLowerCase tagName = tagName ->
    attributes_ok attributes ->
    includes voidTags tagName = false ->
    jseq tagName (js "script") = false ->
    opening_tag tagName attributes t ->
    find_sub (js "</" ++ tagName ++ js ">") inner = None ->
    renders children inner ->
    markup (Element tagName attributes children)
           (60%N :: t ++ 62%N :: inner ++ js "</" ++ tagName ++ js ">").

Scheme renders_mut := Minimality for renders Sort Prop
  with markup_mut := Minimality for markup Sort Prop.
Combined Scheme renders_markup_ind from renders_mut, markup_mut.

(** [s] with all whitespace deleted. *)
Definition strip_ws (s : jsstring) : jsstring :=
  filter (fun c => negb (is_ws c)) s.

(** ** Notions for the further properties *)

(** The keys of an object, in the order [for ... in] visits them. *)
Definition keys (o : obj) : list jsstring := map fst o.

(** [v] stands in [s] between two quotes of one kind, and holds no quote
    of that kind itself. *)
Definition between_quotes (v s : jsstring) : Prop :=
  exists q pre post,
    (q = squote \/ q = dquote) /\ ~ In q v /\ s = pre ++ q :: v ++ q :: post.

(** Keys in the order of enumeration of a plain object: array indices in
    ascending order, from [lo] on, then keys that are no array index. *)
Fixpoint index_keys_first (lo : N) (ks : list jsstring) : Prop :=
  match ks with
  | [] => True
  | k :: ks' =>
      match array_index k with
      | Some n => (lo <= n)%N /\ index_keys_first n ks'
      | None => Forall (fun k' => array_index k' = None) ks'
      end
  end.

(** [P] holds of [n] and of every node below it. *)
Fixpoint every (P : node -> Prop) (n : node) : Prop :=
  P n
  /\ match n with
     | Element _ _ children =>
         (fix all (l : list node) : Prop :=
            match l with
            | [] => True
            | c :: l' => every P c /\ all l'
            end) children
     | _ => True
     end.

(** The tag name of an element is a name without upper-case letters. *)
Definition tag_name_ok (n : node) : Prop :=
  match n with
  | Element tagName _ _ => name_ok tagName /\ toLowerCase tagName = tagName
  | _ => True
  end.

(** The attributes of an element: no key twice, every key a name, none of
    them [__proto__]. *)
Definition attributes_clean (n : node) : Prop :=
  match n with
  | Element _ attributes _ =>
      NoDup (keys attributes)
      /\ Forall (fun k => name_ok k /\ k <> proto_key) (keys attributes)
  | _ => True
  end.

(** A text or a comment as the scanning loop pushes it: the text not
    empty, trimmed and without [<], the comment trimmed. *)
Definition plain_ok (n : node) : Prop :=
  match n with
  | Text content => text_ok content
  | Comment content => trim content = content
  | Element _ _ _ => True
  end.

(** The children of an element: raw under [script], else as the scanning
    loop pushes them. *)
Definition children_ok (n : node) : Prop :=
  match n with
  | Element tagName _ children =>
      if jseq tagName (js "script") then script_children children
      else Forall plain_ok children
  | _ => True
  end.

(** The number of nodes of a tree, and of a sequence of trees. *)
Fixpoint node_count (n : node) : nat :=
  match n with
  | Element _ _ children =>
      S ((fix sum (l : list node) : nat :=
            match l with
            | [] => 0%nat
            | c :: l' => (node_count c + sum l')%nat
            end) children)
  | _ => 1%nat
  end.

Definition nodes_count (l : list node) : nat := list_sum (map node_count l).

(** ** The demo driver

    The driver parses [sampleHtml], renders the result and compares the
    rendering with [sampleHtml], both normalised; what it prints depends
    on the outcome of the comparison only. *)

(** The lines of a template literal, each ended by its line feed. *)
Definition lines (l : list jsstring) : jsstring :=
  flat_map (fun line => line ++ [10%N]) l.

(** A literal between double quotes. *)
Definition quote (s : string) : jsstring := dquote :: js s ++ [dquote].

(** [sampleHtml]: the template literal starts with a line feed. *)
Definition sampleHtml : jsstring :=
  10%N ::
  lines
    [ js "<!-- This is a top-level comment about the structure -->";
      js "<div id=" ++ quote "main-container" ++ js " class="
        ++ quote "layout-flex" ++ js " disabled>";
      js "    <h1 class=" ++ quote "title" ++ js ">My Sample Document</h1>";
      [];
      js "    <p>This is a paragraph with <strong>nested text</strong> and a line break.<br>";
      js "    And here is the second line of text.</p>";
      [];
      js "    <!-- This is a script block for demonstration -->";
      js "    <script type=" ++ quote "text/javascript" ++ js ">";
      js "        // The parser must treat this as multiline text.";
      js "        function setup() {";
      js "            const data = {";
      js "                id: 1,";
      js "                name: 'test'";
      js "            };";
      js "            console.log(data.name);";
      js "        }";
      js "        setup();";
      js "    </script>";
      [];
      js "    <input type=" ++ quote "text" ++ js " placeholder="
        ++ quote "Enter name" ++ js " required>";
      [];
      js "    <!-- Empty div placeholder -->";
      js "    <div class=" ++ quote "footer" ++ js "></div>";
      js "</div>" ].

Definition jsonOutput : list node := htmlToJson sampleHtml.
Definition htmlOutput : jsstring := jsonToHtml jsonOutput.

(** The condition of the final [if]. *)
Definition verification : bool :=
  jseq (normalize htmlOutput) (normalize sampleHtml).

(** * Properties *)

(** ** Strings: equality, prefixes, search *)

Lemma jseq_eq (a b : jsstring) : jseq a b = true <-> a = b.
Proof.
  revert b; induction a as [|x a IH]; intros [|y b]; simpl; split;
    try congruence; try reflexivity.
  - intros H. apply andb_true_iff in H as [Hx Hr].
    apply N.eqb_eq in Hx. apply IH in Hr. congruence.
  - intros H. injection H as -> ->. rewrite N.eqb_refl. simpl.
    now apply IH.
Qed.

Lemma jseq_refl (a : jsstring) : jseq a a = true.
Proof. now apply jseq_eq. Qed.

Lemma jseq_neq (a b : jsstring) : jseq a b = false <-> a <> b.
Proof.
  split.
  - intros H E. apply jseq_eq in E. congruence.
  - intros H. destruct (jseq a b) eqn:E; [|reflexivity].
    apply jseq_eq in E. contradiction.
Qed.

Lemma len_nonneg (s : jsstring) : 0 <= len s.
Proof. unfold len. lia. Qed.

Lemma len_app (a b : jsstring) : len (a ++ b) = len a + len b.
Proof. unfold len. rewrite length_app. lia. Qed.

Lemma starts_with_app (pat rest : jsstring) : starts_with pat (pat ++ rest) = true.
Proof.
  induction pat as [|p pat IH]; simpl; [reflexivity|].
  now rewrite N.eqb_refl.
Qed.

Lemma starts_with_iff (pat s : jsstring) :
  starts_with pat s = true <-> exists rest, s = pat ++ rest.
Proof.
  split.
  - revert s; induction pat as [|p pat IH]; intros s H.
    + now exists s.
    + destruct s as [|c s]; simpl in H; [discriminate|].
      apply andb_true_iff in H as [Hc Hr]. apply N.eqb_eq in Hc.
      destruct (IH _ Hr) as [rest ->]. exists rest. simpl. congruence.
  - intros [rest ->]. apply starts_with_app.
Qed.

Lemma starts_with_length (pat s : jsstring) :
  starts_with pat s = true -> (List.length pat <= List.length s)%nat.
Proof.
  intros H. apply starts_with_iff in H as [rest ->].
  rewrite length_app. lia.
Qed.

(** [find_sub] returns an occurrence, and the first one. *)
Lemma find_sub_Some (pat s : jsstring) (p : nat) :
  find_sub pat s = Some p ->
  starts_with pat (skipn p s) = true
  /\ (p + List.length pat <= List.length s)%nat
  /\ forall q, (q < p)%nat -> starts_with pat (skipn q s) = false.
Proof.
  revert p; induction s as [|c s IH]; intros p; simpl.
  - destruct (starts_with pat []) eqn:E; [|discriminate].
    intros [= <-]. simpl. split; [exact E|]. split.
    + apply starts_with_length in E. simpl in *. lia.
    + intros q Hq. lia.
  - destruct (starts_with pat (c :: s)) eqn:E.
    + intros [= <-]. simpl. split; [exact E|]. split.
      * apply starts_with_length in E. simpl in *. lia.
      * intros q Hq. lia.
    + destruct (find_sub pat s) as [p'|] eqn:F; simpl; [|discriminate].
      intros [= <-]. destruct (IH _ eq_refl) as (H1 & H2 & H3).
      simpl. split; [exact H1|]. split; [lia|].
      intros [|q] Hq; simpl; [exact E|]. apply H3. lia.
Qed.

Lemma find_sub_None (pat s : jsstring) :
  find_sub pat s = None ->
  forall q, starts_with pat (skipn q s) = false.
Proof.
  induction s as [|c s IH]; simpl.
  - destruct (starts_with pat []) eqn:E; [discriminate|].
    intros _ q. now rewrite skipn_nil.
  - destruct (starts_with pat (c :: s)) eqn:E; [discriminate|].
    destruct (find_sub pat s) eqn:F; simpl; [discriminate|].
    intros _ [|q]; simpl; [exact E|]. now apply IH.
Qed.

(** The search finds the occurrence that no earlier one precedes. *)
Lemma find_sub_first (pat s : jsstring) (p : nat) :
  starts_with pat (skipn p s) = true ->
  (forall q, (q < p)%nat -> starts_with pat (skipn q s) = false) ->
  find_sub pat s = Some p.
Proof.
  intros Hp Hfirst.
  destruct (find_sub pat s) as [p'|] eqn:F.
  - apply find_sub_Some in F as (H1 & _ & H3).
    destruct (Nat.lt_trichotomy p p') as [L|[->|L]]; [|reflexivity|].
    + rewrite (H3 _ L) in Hp. discriminate.
    + rewrite (Hfirst _ L) in H1. discriminate.
  - rewrite (find_sub_None _ _ F p) in Hp. discriminate.
Qed.

Lemma clamp_id (s : jsstring) (i : Z) :
  0 <= i <= len s -> clamp s i = Z.to_nat i.
Proof. intros H. unfold clamp. f_equal. lia. Qed.

Lemma clamp_le (s : jsstring) (i : Z) : (clamp s i <= List.length s)%nat.
Proof. unfold clamp, len. lia. Qed.

(** A successful [indexOf] lies at or after the start of the search and
    leaves room for the whole pattern. *)
Lemma indexOf_found (s pat : jsstring) (from r : Z) :
  indexOf s pat from = r -> r <> -1 ->
  Z.of_nat (clamp s from) <= r /\ r + len pat <= len s
  /\ starts_with pat (skipn (Z.to_nat r) s) = true.
Proof.
  unfold indexOf. destruct (find_sub pat (skipn (clamp s from) s)) as [p|] eqn:F;
    intros <- Hr; [|contradiction].
  apply find_sub_Some in F as (H1 & H2 & _).
  rewrite length_skipn in H2. pose proof (clamp_le s from).
  rewrite skipn_skipn in H1. unfold len.
  split; [lia|]. split; [lia|].
  rewrite Nat2Z.id. now rewrite Nat.add_comm.
Qed.

Lemma indexOf_ge_minus1 (s pat : jsstring) (from : Z) : -1 <= indexOf s pat from.
Proof.
  unfold indexOf. destruct (find_sub _ _); lia.
Qed.

Lemma substring_spec (s : jsstring) (a b : Z) :
  0 <= a <= b -> b <= len s ->
  substring s a b = firstn (Z.to_nat (b - a)) (skipn (Z.to_nat a) s).
Proof.
  intros Ha Hb. unfold substring.
  rewrite !clamp_id by lia.
  replace (Nat.min (Z.to_nat a) (Z.to_nat b)) with (Z.to_nat a) by lia.
  replace (Nat.max (Z.to_nat a) (Z.to_nat b)) with (Z.to_nat b) by lia.
  f_equal. lia.
Qed.

Lemma len_substring (s : jsstring) (a b : Z) :
  0 <= a <= b -> b <= len s -> len (substring s a b) = b - a.
Proof.
  intros Ha Hb. rewrite substring_spec by lia.
  unfold len in *. rewrite length_firstn, length_skipn. lia.
Qed.

(** ** The scanning loop: progress and termination *)

(** The facts a successful search gives, at a search started inside the
    string: [E] is the equation of the search, [H] says it did not fail. *)
Ltac search_found E H :=
  let Hlo := fresh "Hlo" in
  let Hhi := fresh "Hhi" in
  destruct (indexOf_found _ _ _ _ E H) as (Hlo & Hhi & _);
  try (rewrite clamp_id in Hlo by lia; rewrite Z2Nat.id in Hlo by lia);
  repeat match type of Hhi with
         | context [len (js ?l)] =>
             let v := eval vm_compute in (len (js l)) in
             change (len (js l)) with v in Hhi
         end.

Section Pass.

(** One pass through the loop body, whatever the recursive call does. *)
Variable rec : list N -> option (list node).

(** A pass through the loop body that goes on has moved the cursor forward,
    and not beyond the end of the input. *)
Lemma iteration_progress html index nodes index' nodes' :
  0 <= index < len html ->
  iteration rec html index nodes = Some (Continue index' nodes') ->
  index < index' <= len html.
Proof.
  intros Hi H. unfold iteration in H. cbv zeta in H.
  remember (indexOf html (js "<") index) as nb eqn:Enb. symmetry in Enb.
  destruct (nb =? -1) eqn:Hnb; [discriminate|].
  apply Z.eqb_neq in Hnb.
  search_found Enb Hnb.
  destruct (len html <=? nb + 1) eqn:Hlen; [discriminate|].
  apply Z.leb_gt in Hlen.
  destruct (jseq (substring html nb (nb + 4)) (js "<!--")).
  - remember (indexOf html (js "-->") nb) as ce eqn:Ece. symmetry in Ece.
    destruct (ce =? -1) eqn:Hce; simpl in H.
    + injection H as <- _. lia.
    + apply Z.eqb_neq in Hce.
      search_found Ece Hce.
      injection H as <- _. lia.
  - destruct (char_is (charAt html nb) 60%N && negb (char_is (charAt html (nb + 1)) 47%N)).
    + remember (indexOf html (js ">") nb) as te eqn:Ete. symmetry in Ete.
      destruct (te =? -1) eqn:Hte; [discriminate|].
      apply Z.eqb_neq in Hte.
      search_found Ete Hte.
      destruct (tagNameMatch _) as [name|]; [|injection H as <- _; lia].
      remember (js "</" ++ toLowerCase name ++ js ">") as endTag.
      remember (indexOf html endTag (nb + (te - nb + 1))) as ei eqn:Eei. symmetry in Eei.
      destruct (_ || (ei =? -1)) eqn:Hsc.
      * injection H as <- _. lia.
      * apply orb_false_iff in Hsc as [_ Hei]. apply Z.eqb_neq in Hei.
        search_found Eei Hei.
        pose proof (len_nonneg endTag).
        assert (Hin : len (substring html (nb + (te - nb + 1)) ei) = ei - (nb + (te - nb + 1)))
          by (apply len_substring; lia).
        destruct (jseq _ _).
        -- injection H as <- _. lia.
        -- destruct (rec _); [|discriminate]. injection H as <- _. lia.
    + destruct (_ && _); injection H as <- _; lia.
Qed.

(** The recursive call is made on an [innerHTML] shorter than what is left
    of the input. *)
Lemma iteration_defined html index nodes :
  0 <= index < len html ->
  (forall inner, len inner < len html - index -> rec inner <> None) ->
  iteration rec html index nodes <> None.
Proof.
  intros Hi Hrec. unfold iteration. cbv zeta.
  remember (indexOf html (js "<") index) as nb eqn:Enb. symmetry in Enb.
  destruct (nb =? -1) eqn:Hnb; [discriminate|].
  apply Z.eqb_neq in Hnb.
  search_found Enb Hnb.
  destruct (len html <=? nb + 1); [discriminate|].
  destruct (jseq _ _); [destruct (negb _); discriminate|].
  destruct (_ && _); [|destruct (_ && _); discriminate].
  remember (indexOf html (js ">") nb) as te eqn:Ete. symmetry in Ete.
  destruct (te =? -1) eqn:Hte; [discriminate|].
  apply Z.eqb_neq in Hte.
  search_found Ete Hte.
  destruct (tagNameMatch _) as [name|]; [|discriminate].
  remember (js "</" ++ toLowerCase name ++ js ">") as endTag.
  remember (indexOf html endTag (nb + (te - nb + 1))) as ei eqn:Eei. symmetry in Eei.
  destruct (_ || (ei =? -1)) eqn:Hsc; [discriminate|].
  apply orb_false_iff in Hsc as [_ Hei]. apply Z.eqb_neq in Hei.
  search_found Eei Hei.
  pose proof (len_nonneg endTag).
  destruct (jseq _ _); [discriminate|].
  destruct (rec _) eqn:Hr; [discriminate|].
  exfalso. revert Hr. apply Hrec.
  rewrite len_substring by lia. lia.
Qed.

End Pass.

(** A pass depends on the recursive call only through the results it
    gives. *)
Lemma iteration_mono rec1 rec2 html index nodes o :
  (forall inner r, rec1 inner = Some r -> rec2 inner = Some r) ->
  iteration rec1 html index nodes = Some o ->
  iteration rec2 html index nodes = Some o.
Proof.
  intros Hrec. unfold iteration. cbv zeta.
  repeat match goal with
  | |- (if ?c then _ else _) = _ -> _ => destruct c eqn:?
  | |- match ?c with _ => _ end = _ -> _ => destruct c eqn:?
  end; try (intros; assumption); try discriminate.
  all: match goal with H : _ = Some _ |- _ => rewrite (Hrec _ _ H) end; auto.
Qed.

(** More fuel than characters left is enough fuel. *)
Lemma parse_loop_enough_fuel fuel html index nodes :
  0 <= index <= len html -> len html - index < Z.of_nat fuel ->
  exists result, parse_loop fuel html index nodes = Some result.
Proof.
  revert html index nodes. induction fuel as [|fuel IH]; intros html index nodes Hi Hf.
  - exfalso. lia.
  - simpl. destruct (index <? len html) eqn:Hlt; [|now exists nodes].
    apply Z.ltb_lt in Hlt.
    destruct (iteration _ html index nodes) as [[ns|i ns]|] eqn:Hit.
    + now exists ns.
    + apply iteration_progress in Hit; [|lia]. apply IH; lia.
    + exfalso. revert Hit. apply iteration_defined; [lia|].
      intros inner Hin Hnone.
      pose proof (len_nonneg inner).
      destruct (IH inner 0 []) as [r Hr]; [lia|lia|congruence].
Qed.

(** Spare fuel does not change the result. *)
Lemma parse_loop_mono fuel : forall fuel' html index nodes result,
  (fuel <= fuel')%nat ->
  parse_loop fuel html index nodes = Some result ->
  parse_loop fuel' html index nodes = Some result.
Proof.
  induction fuel as [|fuel IH]; intros fuel' html index nodes result Hle; [discriminate|].
  destruct fuel' as [|fuel']; [lia|]. simpl.
  destruct (index <? len html); [|auto].
  destruct (iteration (fun inner => parse_loop fuel inner 0 []) html index nodes) as [o|] eqn:Hit;
    [|discriminate].
  rewrite (iteration_mono _ (fun inner => parse_loop fuel' inner 0 []) _ _ _ _
             (fun inner r H => IH fuel' inner 0 [] r ltac:(lia) H) Hit).
  destruct o; [auto|]. apply IH. lia.
Qed.

Lemma htmlToJson_run (html : jsstring) (fuel : nat) :
  (List.length html < fuel)%nat ->
  parse_loop fuel html 0 [] = Some (htmlToJson html).
Proof.
  intros Hf. unfold htmlToJson.
  destruct (parse_loop_enough_fuel (S (List.length html)) html 0 [])
    as [r Hr]; [pose proof (len_nonneg html); lia | unfold len; lia |].
  rewrite Hr. apply (parse_loop_mono (S (List.length html)) fuel); [lia|exact Hr].
Qed.

Lemma htmlToJson_of_run (html : jsstring) (fuel : nat) (result : list node) :
  parse_loop fuel html 0 [] = Some result -> htmlToJson html = result.
Proof.
  intros H.
  assert (H1 : parse_loop (Nat.max fuel (S (List.length html))) html 0 []
               = Some result) by (apply (parse_loop_mono fuel); [lia|exact H]).
  rewrite htmlToJson_run in H1 by lia. congruence.
Qed.

(** ** The scanning loop looks only at what follows the cursor *)

Lemma clamp_app (pre suf : jsstring) (i : Z) :
  0 <= i -> clamp (pre ++ suf) (i + len pre) = (List.length pre + clamp suf i)%nat.
Proof.
  intros Hi. unfold clamp. rewrite len_app. unfold len. lia.
Qed.

Lemma skipn_app_len (pre suf : jsstring) (n : nat) :
  skipn (List.length pre + n) (pre ++ suf) = skipn n suf.
Proof.
  rewrite skipn_app. rewrite skipn_all2 by lia. simpl. f_equal. lia.
Qed.


Lemma indexOf_app (pre suf pat : jsstring) (k j : Z) :
  0 <= j -> k = j + len pre ->
  indexOf (pre ++ suf) pat k = shiftZ (len pre) (indexOf suf pat j).
Proof.
  intros Hj ->. unfold indexOf. rewrite clamp_app by lia. rewrite skipn_app_len.
  unfold shiftZ. destruct (find_sub pat (skipn (clamp suf j) suf)) as [p|].
  - replace (Z.of_nat (clamp suf j + p) =? -1) with false by (symmetry; apply Z.eqb_neq; lia).
    unfold len. lia.
  - reflexivity.
Qed.

Lemma substring_app (pre suf : jsstring) (ka kb a b : Z) :
  0 <= a -> 0 <= b -> ka = a + len pre -> kb = b + len pre ->
  substring (pre ++ suf) ka kb = substring suf a b.
Proof.
  intros Ha Hb -> ->. unfold substring. rewrite !clamp_app by lia.
  replace (Nat.min (List.length pre + clamp suf a) (List.length pre + clamp suf b))
    with (List.length pre + Nat.min (clamp suf a) (clamp suf b))%nat by lia.
  rewrite skipn_app_len. f_equal. lia.
Qed.

Lemma substring_from_app (pre suf : jsstring) (k a : Z) :
  0 <= a -> k = a + len pre ->
  substring_from (pre ++ suf) k = substring_from suf a.
Proof.
  intros Ha ->. unfold substring_from. rewrite clamp_app by lia. apply skipn_app_len.
Qed.

Lemma charAt_app (pre suf : jsstring) (k i : Z) :
  0 <= i -> k = i + len pre -> charAt (pre ++ suf) k = charAt suf i.
Proof.
  intros Hi ->. unfold charAt.
  replace (i + len pre <? 0) with false by (symmetry; apply Z.ltb_ge; pose proof (len_nonneg pre); lia).
  replace (i <? 0) with false by (symmetry; apply Z.ltb_ge; lia).
  rewrite nth_error_app2 by (unfold len; lia). f_equal. unfold len. lia.
Qed.

Lemma shiftZ_found (k r : Z) : 0 <= r -> shiftZ k r = r + k.
Proof.
  intros H. unfold shiftZ. destruct (r =? -1) eqn:E; [|reflexivity].
  apply Z.eqb_eq in E. lia.
Qed.

Lemma eqb_m1_shift (k r : Z) : 0 <= k -> -1 <= r -> (shiftZ k r =? -1) = (r =? -1).
Proof.
  intros Hk Hr. unfold shiftZ. destruct (r =? -1) eqn:E; [reflexivity|].
  apply Z.eqb_neq in E. apply Z.eqb_neq. lia.
Qed.

Lemma iteration_app rec pre suf nodes :
  iteration rec (pre ++ suf) (len pre) nodes
  = option_map (shift_outcome (len pre)) (iteration rec suf 0 nodes).
Proof.
  unfold iteration. cbv zeta.
  pose proof (len_nonneg pre) as HP.
  rewrite (indexOf_app pre suf (js "<") (len pre) 0) by lia.
  remember (indexOf suf (js "<") 0) as nb eqn:Enb. symmetry in Enb.
  rewrite eqb_m1_shift by (subst nb; auto using indexOf_ge_minus1).
  destruct (nb =? -1) eqn:Hnb.
  { simpl. rewrite (substring_from_app pre suf _ 0) by lia. reflexivity. }
  apply Z.eqb_neq in Hnb.
  destruct (indexOf_found _ _ _ _ Enb Hnb) as (Hlo & Hhi & _).
  assert (H0 : 0 <= nb) by lia.
  change (len (js "<")) with 1 in Hhi.
  rewrite shiftZ_found by lia.
  rewrite !(substring_app pre suf (len pre) (nb + len pre) 0 nb) by lia.
  set (nodes1 := push_text nodes (trim (substring suf 0 nb))).
  rewrite len_app.
  replace (len pre + len suf <=? nb + len pre + 1) with (len suf <=? nb + 1)
    by (destruct (len suf <=? nb + 1) eqn:E; symmetry;
        [apply Z.leb_le; apply Z.leb_le in E | apply Z.leb_gt; apply Z.leb_gt in E]; lia).
  destruct (len suf <=? nb + 1); [reflexivity|].
  rewrite (substring_app pre suf (nb + len pre) (nb + len pre + 4) nb (nb + 4)) by lia.
  destruct (jseq (substring suf nb (nb + 4)) (js "<!--")).
  { rewrite (indexOf_app pre suf (js "-->") (nb + len pre) nb) by lia.
    remember (indexOf suf (js "-->") nb) as ce eqn:Ece. symmetry in Ece.
    rewrite eqb_m1_shift by (subst ce; auto using indexOf_ge_minus1).
    destruct (ce =? -1) eqn:Hce; simpl.
    - do 2 f_equal. lia.
    - apply Z.eqb_neq in Hce.
      destruct (indexOf_found _ _ _ _ Ece Hce) as (Hlo' & _ & _).
      rewrite shiftZ_found by lia.
      rewrite (substring_app pre suf (nb + len pre + 4) (ce + len pre) (nb + 4) ce) by lia.
      do 2 f_equal. lia. }
  rewrite (charAt_app pre suf (nb + len pre) nb) by lia.
  rewrite !(charAt_app pre suf (nb + len pre + 1) (nb + 1)) by lia.
  destruct (char_is (charAt suf nb) 60%N && negb (char_is (charAt suf (nb + 1)) 47%N)).
  2: { destruct (_ && _); simpl; do 2 f_equal; lia. }
  rewrite (indexOf_app pre suf (js ">") (nb + len pre) nb) by lia.
  remember (indexOf suf (js ">") nb) as te eqn:Ete. symmetry in Ete.
  rewrite eqb_m1_shift by (subst te; auto using indexOf_ge_minus1).
  destruct (te =? -1) eqn:Hte; [reflexivity|].
  apply Z.eqb_neq in Hte.
  destruct (indexOf_found _ _ _ _ Ete Hte) as (Hlo' & Hhi' & _).
  rewrite clamp_id in Hlo' by lia. rewrite Z2Nat.id in Hlo' by lia.
  rewrite shiftZ_found by lia.
  rewrite !(substring_app pre suf (nb + len pre + 1) (te + len pre) (nb + 1) te) by lia.
  set (fullTagContent := trim (substring suf (nb + 1) te)).
  destruct (tagNameMatch fullTagContent) as [name|]; [|simpl; do 2 f_equal; lia].
  set (tagName := toLowerCase name).
  set (endTag := js "</" ++ tagName ++ js ">").
  rewrite (indexOf_app pre suf endTag _ (nb + (te - nb + 1))) by lia.
  remember (indexOf suf endTag (nb + (te - nb + 1))) as ei eqn:Eei. symmetry in Eei.
  rewrite eqb_m1_shift by (subst ei; auto using indexOf_ge_minus1).
  destruct (_ || (ei =? -1)) eqn:Hsc; [simpl; do 2 f_equal; lia|].
  apply orb_false_iff in Hsc as [_ Hei]. apply Z.eqb_neq in Hei.
  destruct (indexOf_found _ _ _ _ Eei Hei) as (Hlo'' & Hhi'' & _).
  rewrite shiftZ_found by lia.
  rewrite !(substring_app pre suf (nb + len pre + (te + len pre - (nb + len pre) + 1))
             (ei + len pre) (nb + (te - nb + 1)) ei) by lia.
  destruct (jseq tagName (js "script")); [simpl; do 2 f_equal; lia|].
  destruct (rec _); simpl; [do 2 f_equal; lia|reflexivity].
Qed.

Lemma push_text_acc (nodes : list node) (t : jsstring) :
  push_text nodes t = nodes ++ push_text [] t.
Proof.
  unfold push_text. destruct (0 <? len t); [reflexivity|]. now rewrite app_nil_r.
Qed.

Lemma iteration_acc rec html index nodes :
  iteration rec html index nodes
  = option_map (prepend nodes) (iteration rec html index []).
Proof.
  unfold iteration. cbv zeta.
  rewrite !(push_text_acc nodes).
  repeat match goal with
  | |- (if ?c then _ else _) = _ => destruct c
  | |- match ?c with _ => _ end = _ => destruct c
  end; simpl; rewrite <- ?app_assoc; reflexivity.
Qed.

Lemma parse_loop_acc fuel : forall html index nodes,
  parse_loop fuel html index nodes
  = option_map (app nodes) (parse_loop fuel html index []).
Proof.
  induction fuel as [|fuel IH]; intros html index nodes; [reflexivity|].
  simpl. destruct (index <? len html); [|simpl; now rewrite app_nil_r].
  rewrite (iteration_acc _ html index nodes).
  destruct (iteration _ html index []) as [[ns|i ns]|]; simpl;
    [reflexivity| |reflexivity].
  rewrite (IH html i (nodes ++ ns)), (IH html i ns).
  destruct (parse_loop fuel html i []); simpl; [|reflexivity].
  now rewrite app_assoc.
Qed.


(** The part of the input before the cursor plays no role. *)
Lemma parse_loop_app fuel : forall pre suf nodes,
  parse_loop fuel (pre ++ suf) (len pre) nodes
  = parse_loop fuel suf 0 nodes.
Proof.
  induction fuel as [|fuel IH]; intros pre suf nodes; [reflexivity|].
  simpl. rewrite len_app.
  replace (len pre <? len pre + len suf) with (0 <? len suf)
    by (destruct (0 <? len suf) eqn:E; symmetry;
        [apply Z.ltb_lt; apply Z.ltb_lt in E | apply Z.ltb_ge; apply Z.ltb_ge in E]; lia).
  destruct (0 <? len suf) eqn:Hlt; [|reflexivity].
  apply Z.ltb_lt in Hlt.
  rewrite iteration_app.
  destruct (iteration _ suf 0 nodes) as [[ns|i ns]|] eqn:Hit; simpl; try reflexivity.
  apply iteration_progress in Hit; [|lia].
  assert (Hl' : len (firstn (Z.to_nat i) suf) = i).
  { unfold len in *. rewrite length_firstn. lia. }
  assert (Hl : len (pre ++ firstn (Z.to_nat i) suf) = i + len pre).
  { rewrite len_app. lia. }
  transitivity (parse_loop fuel (skipn (Z.to_nat i) suf) 0 ns).
  - rewrite <- Hl.
    replace (pre ++ suf) with ((pre ++ firstn (Z.to_nat i) suf) ++ skipn (Z.to_nat i) suf)
      by (now rewrite <- app_assoc, firstn_skipn).
    apply IH.
  - symmetry.
    rewrite <- (IH (firstn (Z.to_nat i) suf)).
    now rewrite Hl', firstn_skipn.
Qed.

Lemma htmlToJson_unfold (html : jsstring) :
  html <> [] ->
  match first_pass html with
  | Some (Break nodes) => htmlToJson html = nodes
  | Some (Continue index nodes) =>
      0 < index <= len html /\
      htmlToJson html = nodes ++ htmlToJson (skipn (Z.to_nat index) html)
  | None => False
  end.
Proof.
  intros Hne.
  assert (Hlen : 0 < len html).
  { destruct html; [contradiction|]. unfold len. simpl. lia. }
  pose proof (htmlToJson_run html (S (List.length html)) ltac:(lia)) as Hrun.
  simpl in Hrun.
  replace (0 <? len html) with true in Hrun by (symmetry; now apply Z.ltb_lt).
  destruct (iteration (fun inner => parse_loop (List.length html) inner 0 []) html 0 [])
    as [o|] eqn:Hit; [|discriminate].
  assert (Hfp : first_pass html = Some o).
  { unfold first_pass. revert Hit. apply iteration_mono.
    intros inner r Hr. f_equal. eapply htmlToJson_of_run. exact Hr. }
  rewrite Hfp. destruct o as [ns|i ns]; [congruence|].
  apply iteration_progress in Hit; [|lia]. split; [exact Hit|].
  assert (Hl : len (firstn (Z.to_nat i) html) = i).
  { unfold len in *. rewrite length_firstn. lia. }
  pose proof (parse_loop_app (List.length html) (firstn (Z.to_nat i) html)
                (skipn (Z.to_nat i) html) ns) as Happ.
  rewrite firstn_skipn, Hl, Hrun in Happ. symmetry in Happ.
  rewrite parse_loop_acc in Happ. rename Happ into Hrun'.
  clear Hrun. rename Hrun' into Hrun.
  rewrite htmlToJson_run in Hrun.
  - simpl in Hrun. congruence.
  - rewrite length_skipn. unfold len in *. lia.
Qed.

(** ** Closing tags: the search, upper case, strays *)

(** C3.  The closing tag is searched for with the lower-cased tag name, and
    the search itself distinguishes case: in [<DIV>x</DIV>] no [</div>] is
    found.  The element gets no children, [x] becomes a top-level text, and
    the closing tag, its [<] skipped, is left as the text [/DIV>]. *)
Theorem uppercase_closing_tag_is_not_found :
  htmlToJson (js "<DIV>x</DIV>")
  = [Element (js "div") [] []; Text (js "x"); Text (js "/DIV>")].
Proof. vm_compute. reflexivity. Qed.

(** With the closing tag in lower case the element is paired. *)
Example uppercase_opening_tag_lowercase_closing :
  htmlToJson (js "<DIV>x</div>") = [Element (js "div") [] [Text (js "x")]].
Proof. vm_compute. reflexivity. Qed.

(** C4.  On a lone closing tag the loop skips the [<] and goes on: what
    remains of the tag has no [<] and is pushed as a text node. *)
Theorem stray_closing_tag_leaves_text :
  htmlToJson (js "</div>") = [Text (js "/div>")].
Proof. vm_compute. reflexivity. Qed.

(** The pass that meets the closing tag pushes nothing and moves the cursor
    by one. *)
Example stray_closing_tag_first_pass :
  first_pass (js "</div>") = Some (Continue 1 []).
Proof. vm_compute. reflexivity. Qed.

(** The loop does not stop at a stray closing tag: the nodes after it are
    parsed as well. *)
Example stray_closing_tag_then_element :
  htmlToJson (js "</div><p>x</p>")
  = [Text (js "/div>"); Element (js "p") [] [Text (js "x")]].
Proof. vm_compute. reflexivity. Qed.

(** C5, as the claim has it, fails: after the first node, no element [a]
    is among the siblings. *)
Lemma nested_same_tag_no_sibling_element :
  ~ (exists first rest attributes children,
        htmlToJson (js "<a><a></a></a>") = first :: rest
        /\ In (Element (js "a") attributes children) rest).
Proof.
  intros (first & rest & attributes & children & H & Hin).
  vm_compute in H. injection H as <- <-.
  destruct Hin as [Hin|[]]. discriminate.
Qed.

(** C5, amended.  The outer [a] is paired with the first [</a>]: the first
    pass takes the inner span [<a>], whose parse is one childless element
    [a], and leaves the cursor at index 10, on the second [</a>].  The
    output is the outer element followed by what that stray closing tag
    yields. *)
Theorem nested_same_tag_first_match :
  first_pass (js "<a><a></a></a>")
  = Some (Continue 10 [Element (js "a") [] [Element (js "a") [] []]])
  /\ skipn 10 (js "<a><a></a></a>") = js "</a>"
  /\ htmlToJson (js "<a><a></a></a>")
     = Element (js "a") [] [Element (js "a") [] []] :: htmlToJson (js "</a>").
Proof. vm_compute. repeat split. Qed.

(** ** Termination *)

(** C2.  [htmlToJson] terminates on every input: with more fuel than the
    input has characters the loop, recursive calls included, is left with
    the result [htmlToJson html]; and every pass through the loop body that
    does not leave the loop moves the cursor forward by at least one
    character, never past the end of the input.  Nothing is assumed of the
    input, malformed or not. *)
Theorem htmlToJson_terminates :
  (forall (html : jsstring) (fuel : nat),
      (List.length html < fuel)%nat ->
      parse_loop fuel html 0 [] = Some (htmlToJson html))
  /\ (forall rec html index nodes index' nodes',
         0 <= index < len html ->
         iteration rec html index nodes = Some (Continue index' nodes') ->
         index < index' <= len html).
Proof.
  split.
  - intros html fuel Hf. now apply htmlToJson_run.
  - intros rec html index nodes index' nodes' Hi Hit.
    exact (iteration_progress rec html index nodes index' nodes' Hi Hit).
Qed.

Lemma htmlToJson_terminates_witness :
  parse_loop 5 (js "<p>x") 0 [] = Some (htmlToJson (js "<p>x"))
  /\ 0 < 3 <= len (js "<p>x").
Proof.
  split.
  - apply (proj1 htmlToJson_terminates). simpl. lia.
  - apply (proj2 htmlToJson_terminates (fun _ => None) (js "<p>x") 0 []
             3 [Element (js "p") [] []]).
    + unfold len. simpl. lia.
    + vm_compute. reflexivity.
Defined.

(** ** The attribute pattern and the extraction loop *)

Lemma takeWhile_dropWhile (p : char -> bool) (s : jsstring) :
  takeWhile p s ++ dropWhile p s = s.
Proof.
  induction s as [|c s IH]; simpl; [reflexivity|].
  destruct (p c); simpl; [now rewrite IH|reflexivity].
Qed.

Lemma length_takeWhile_dropWhile (p : char -> bool) (s : jsstring) :
  (List.length (takeWhile p s) + List.length (dropWhile p s) = List.length s)%nat.
Proof. rewrite <- length_app. now rewrite takeWhile_dropWhile. Qed.

Lemma quoted_length (q : char) (s : jsstring) (v : jsstring) (n : nat) :
  quoted q s = Some (v, n) -> (n <= List.length s)%nat.
Proof.
  unfold quoted. destruct s as [|c s]; [discriminate|].
  destruct (N.eqb c q); [|discriminate].
  pose proof (length_takeWhile_dropWhile (fun x => negb (N.eqb x q)) s) as Hl.
  destruct (dropWhile _ s) eqn:E; [discriminate|].
  intros [= <- <-]. simpl in *. lia.
Qed.

Lemma value_group_length (s : jsstring) g2 g3 (n : nat) :
  value_group s = Some (g2, g3, n) -> (n <= List.length s)%nat.
Proof.
  unfold value_group.
  pose proof (length_takeWhile_dropWhile is_ws s) as H1.
  destruct (dropWhile is_ws s) as [|c s1] eqn:E1; [discriminate|].
  destruct (N.eqb c 61); [|discriminate].
  pose proof (length_takeWhile_dropWhile is_ws s1) as H2.
  destruct (quoted squote (dropWhile is_ws s1)) as [[v m]|] eqn:Q1.
  - apply quoted_length in Q1. intros [= _ _ <-]. simpl in *. lia.
  - destruct (quoted dquote (dropWhile is_ws s1)) as [[v m]|] eqn:Q2; [|discriminate].
    apply quoted_length in Q2. intros [= _ _ <-]. simpl in *. lia.
Qed.

(** A match is never empty and lies within the string. *)
Lemma attr_match_here_length (s : jsstring) (m : attr_match) (n : nat) :
  attr_match_here s = Some (m, n) -> (0 < n <= List.length s)%nat.
Proof.
  unfold attr_match_here.
  pose proof (length_takeWhile_dropWhile is_name_char s) as Hl.
  destruct (takeWhile is_name_char s) as [|c name] eqn:E; [discriminate|].
  destruct (value_group (dropWhile is_name_char s)) as [[[g2 g3] k]|] eqn:V.
  - apply value_group_length in V. intros [= _ <-]. simpl in *. lia.
  - intros [= _ <-]. simpl in *. lia.
Qed.

Lemma matches_skip_skipn (s : jsstring) : forall skip,
  matches_skip s skip = matches_skip (skipn skip s) 0.
Proof.
  induction s as [|c s IH]; intros [|k]; try reflexivity.
  simpl matches_skip at 1. rewrite IH. reflexivity.
Qed.

Lemma attr_matches_match (s : jsstring) (m : attr_match) (n : nat) :
  attr_match_here s = Some (m, n) ->
  attr_matches s = m :: attr_matches (skipn n s).
Proof.
  intros H. pose proof (attr_match_here_length _ _ _ H) as Hn.
  destruct s as [|c s]; [simpl in Hn; lia|].
  unfold attr_matches. simpl matches_skip at 1. rewrite H.
  rewrite matches_skip_skipn. destruct n as [|n]; [lia|].
  simpl. now rewrite Nat.sub_0_r.
Qed.

Lemma attr_matches_skip (c : char) (s : jsstring) :
  attr_match_here (c :: s) = None -> attr_matches (c :: s) = attr_matches s.
Proof.
  intros H. unfold attr_matches. simpl matches_skip at 1. now rewrite H.
Qed.

Lemma search_from_spec (s : jsstring) : forall pos,
  match search_from s pos with
  | Some (m, i) =>
      (pos < i <= pos + List.length s)%nat
      /\ attr_matches s = m :: attr_matches (skipn (i - pos) s)
  | None => attr_matches s = []
  end.
Proof.
  induction s as [|c s IH]; intros pos.
  - reflexivity.
  - simpl search_from. destruct (attr_match_here (c :: s)) as [[m n]|] eqn:H.
    + pose proof (attr_match_here_length _ _ _ H) as Hn. split; [lia|].
      replace (pos + n - pos)%nat with n by lia. now apply attr_matches_match.
    + specialize (IH (S pos)). rewrite (attr_matches_skip _ _ H).
      destruct (search_from s (S pos)) as [[m i]|]; [|exact IH].
      destruct IH as [Hi Hm]. simpl List.length. split; [lia|].
      rewrite Hm. replace (i - pos)%nat with (S (i - S pos)) by lia. reflexivity.
Qed.

Lemma extract_loop_spec (fuel : nat) : forall tagString lastIndex attributes,
  (lastIndex <= List.length tagString)%nat ->
  (List.length tagString - lastIndex < fuel)%nat ->
  extract_loop fuel tagString lastIndex attributes
  = Some (fold_left record_match (attr_matches (skipn lastIndex tagString)) attributes).
Proof.
  induction fuel as [|fuel IH]; intros s i o Hi Hf; [lia|].
  simpl. unfold attrRegex_exec.
  replace (Nat.leb i (List.length s)) with true by (symmetry; now apply Nat.leb_le).
  pose proof (search_from_spec (skipn i s) i) as Hs.
  rewrite length_skipn in Hs.
  destruct (search_from (skipn i s) i) as [[m j]|].
  - destruct Hs as [Hj Hm]. rewrite Hm. simpl.
    rewrite skipn_skipn. replace (j - i + i)%nat with j by lia.
    apply IH; lia.
  - now rewrite Hs.
Qed.

(** The extraction loop ends within its fuel; its result is the matches
    recorded one after the other, from left to right. *)
Lemma extractAttributes_fold (tagString : jsstring) :
  extractAttributes tagString
  = fold_left record_match (attr_matches tagString) [].
Proof.
  unfold extractAttributes. rewrite extract_loop_spec by (simpl; lia).
  reflexivity.
Qed.

(** ** Objects: reading after writing *)

Lemma obj_get_update (o : obj) (k v k' : jsstring) :
  obj_get o k <> None ->
  obj_get (obj_update o k v) k' = if jseq k k' then Some v else obj_get o k'.
Proof.
  induction o as [|[k0 v0] o IH]; simpl; [congruence|].
  destruct (jseq k0 k) eqn:E0.
  - apply jseq_eq in E0. subst k0. intros _. simpl. now destruct (jseq k k').
  - intros H. simpl. destruct (jseq k0 k') eqn:E1.
    + apply jseq_eq in E1. subst k'.
      destruct (jseq k k0) eqn:E2; [|reflexivity].
      apply jseq_eq in E2. subst k0. rewrite jseq_refl in E0. discriminate.
    + now apply IH.
Qed.

Lemma obj_get_app (o1 o2 : obj) (k : jsstring) :
  obj_get (o1 ++ o2) k
  = match obj_get o1 k with Some v => Some v | None => obj_get o2 k end.
Proof.
  induction o1 as [|[k0 v0] o1 IH]; simpl; [reflexivity|].
  destruct (jseq k0 k); [reflexivity|exact IH].
Qed.

Lemma obj_get_insert_index (n : N) (o : obj) (k v k' : jsstring) :
  obj_get o k = None ->
  obj_get (obj_insert_index n k v o) k'
  = if jseq k k' then Some v else obj_get o k'.
Proof.
  induction o as [|[k0 v0] o IH]; simpl; [reflexivity|].
  destruct (jseq k0 k) eqn:E0; [discriminate|]. intros Hk.
  destruct (array_index k0) as [m|]; [destruct (N.ltb m n)|]; simpl;
    try reflexivity.
  rewrite (IH Hk). destruct (jseq k0 k') eqn:E1; [|reflexivity].
  apply jseq_eq in E1. subst k'.
  destruct (jseq k k0) eqn:E2; [|reflexivity].
  apply jseq_eq in E2. subst k0. rewrite jseq_refl in E0. discriminate.
Qed.

(** Reading [k'] after [o[k] = v]. *)
Lemma obj_get_set (o : obj) (k v k' : jsstring) :
  obj_get (obj_set o k v) k'
  = if jseq k proto_key then obj_get o k'
    else if jseq k k' then Some v else obj_get o k'.
Proof.
  unfold obj_set. destruct (jseq k proto_key); [reflexivity|].
  destruct (obj_get o k) as [v0|] eqn:G.
  - apply obj_get_update. congruence.
  - destruct (array_index k) as [n|].
    + now apply obj_get_insert_index.
    + rewrite obj_get_app. simpl.
      destruct (jseq k k') eqn:E.
      * apply jseq_eq in E. subst k'. now rewrite G.
      * destruct (obj_get o k'); reflexivity.
Qed.

Lemma last_value_app (k : jsstring) (ms : list attr_match) (m : attr_match) :
  last_value k (ms ++ [m])
  = if jseq (group1 m) k then Some (match_value m) else last_value k ms.
Proof. unfold last_value. now rewrite fold_left_app. Qed.

(** What the recorded matches leave under a key: the value of the last
    match of that name.  The key [__proto__] stays absent. *)
Lemma obj_get_fold_record (ms : list attr_match) (k : jsstring) :
  obj_get (fold_left record_match ms []) k
  = if jseq k proto_key then None else last_value k ms.
Proof.
  induction ms as [|m ms IH] using rev_ind.
  - simpl. now destruct (jseq k proto_key).
  - rewrite fold_left_app. simpl. unfold record_match at 1.
    rewrite obj_get_set, IH, last_value_app.
    destruct (jseq (group1 m) k) eqn:E.
    + apply jseq_eq in E. subst k.
      now destruct (jseq (group1 m) proto_key).
    + now destruct (jseq (group1 m) proto_key).
Qed.

Lemma extractAttributes_lookup (tagString k : jsstring) :
  obj_get (extractAttributes tagString) k
  = if jseq k proto_key then None else last_value k (attr_matches tagString).
Proof. rewrite extractAttributes_fold. apply obj_get_fold_record. Qed.

(** ** extractAttributes: duplicates, bare names, unquoted values *)

(** C8.  The matches are recorded from left to right, and under every
    name but [__proto__] the result holds the value of the last match of
    that name: a later occurrence has overwritten every earlier one.  For
    the two occurrences of [id] the result is the one-entry mapping of
    [id] to the later value [b], and likewise for a name that is an array
    index.  Under the name [__proto__] the result holds nothing, however
    often the name occurs: the assignment to that key of a plain object
    stores nothing, so the later occurrence has nothing to overwrite and
    leaves nothing behind. *)
Theorem extractAttributes_last_write_wins :
  (forall s, extractAttributes s = fold_left record_match (attr_matches s) [])
  /\ (forall s k,
         k <> proto_key ->
         obj_get (extractAttributes s) k = last_value k (attr_matches s))
  /\ extractAttributes
       (js "id=" ++ [dquote] ++ js "a" ++ [dquote]
        ++ js " id=" ++ [dquote] ++ js "b" ++ [dquote])
     = [(js "id", js "b")]
  /\ extractAttributes (js "1='a' x='c' 1='b'") = [(js "1", js "b"); (js "x", js "c")]
  /\ attr_matches
       (js "__proto__=" ++ [dquote] ++ js "a" ++ [dquote]
        ++ js " __proto__=" ++ [dquote] ++ js "b" ++ [dquote])
     = [{| group1 := js "__proto__"; group2 := None; group3 := Some (js "a") |};
        {| group1 := js "__proto__"; group2 := None; group3 := Some (js "b") |}]
  /\ extractAttributes
       (js "__proto__=" ++ [dquote] ++ js "a" ++ [dquote]
        ++ js " __proto__=" ++ [dquote] ++ js "b" ++ [dquote])
     = [].
Proof.
  split; [exact extractAttributes_fold|]. split.
  - intros s k Hk. rewrite extractAttributes_lookup.
    apply jseq_neq in Hk. now rewrite Hk.
  - vm_compute. repeat split.
Qed.

Lemma extractAttributes_last_write_wins_witness :
  obj_get
    (extractAttributes
       (js "id=" ++ [dquote] ++ js "a" ++ [dquote]
        ++ js " id=" ++ [dquote] ++ js "b" ++ [dquote]))
    (js "id")
  = last_value (js "id")
      (attr_matches (js "id=" ++ [dquote] ++ js "a" ++ [dquote]
                     ++ js " id=" ++ [dquote] ++ js "b" ++ [dquote])).
Proof.
  apply (proj1 (proj2 extractAttributes_last_write_wins)). discriminate.
Defined.

Example extractAttributes_disabled :
  extractAttributes (js "disabled") = [(js "disabled", [])].
Proof. vm_compute. reflexivity. Qed.

Example jsonToHtml_disabled :
  jsonToHtml [Element (js "input") (extractAttributes (js "disabled")) []]
  = js "<input disabled>".
Proof. vm_compute. reflexivity. Qed.

(** An attribute whose value is the empty string is rendered as a space
    and its name, nothing more. *)
Lemma attrString_empty_value (key : jsstring) (rest : obj) :
  attrString ((key, []) :: rest) = js " " ++ key ++ attrString rest.
Proof. reflexivity. Qed.

(** C9.  The bare name [__proto__] is matched like any other name, with
    the empty string as its value, but the assignment to that key of a
    plain object stores nothing: the result has no entry at all, and the
    attribute is missing from the rendering of the parsed tag. *)
Theorem extractAttributes_bare_proto :
  attr_matches (js "__proto__")
  = [{| group1 := js "__proto__"; group2 := None; group3 := None |}]
  /\ extractAttributes (js "__proto__") = []
  /\ obj_get (extractAttributes (js "__proto__")) (js "__proto__") = None
  /\ jsonToHtml (htmlToJson (js "<input __proto__>")) = js "<input>".
Proof. vm_compute. repeat split. Qed.

Example extractAttributes_width_100 :
  extractAttributes (js "width=100") = [(js "100", []); (js "width", [])].
Proof. vm_compute. reflexivity. Qed.

(** C10.  In [__proto__=100] the identifier is matched without a value and
    the unquoted token as a name of its own, but only the token is stored:
    the identifier [__proto__] is not mapped to the empty string. *)
Theorem extractAttributes_unquoted_proto :
  attr_matches (js "__proto__=100")
  = [{| group1 := js "__proto__"; group2 := None; group3 := None |};
     {| group1 := js "100"; group2 := None; group3 := None |}]
  /\ extractAttributes (js "__proto__=100") = [(js "100", [])]
  /\ extractAttributes (js "width=__proto__") = [(js "width", [])].
Proof. vm_compute. repeat split. Qed.

(** ** Text before a tag *)

Lemma clamp_0 (s : jsstring) : clamp s 0 = 0%nat.
Proof. unfold clamp. pose proof (len_nonneg s). lia. Qed.

Lemma indexOf_0 (s pat : jsstring) :
  indexOf s pat 0
  = match find_sub pat s with Some p => Z.of_nat p | None => -1 end.
Proof. unfold indexOf. rewrite clamp_0. reflexivity. Qed.

Lemma find_sub_here (pat s : jsstring) :
  starts_with pat s = true -> find_sub pat s = Some 0%nat.
Proof. intros H. destruct s; simpl; now rewrite H. Qed.

Lemma find_sub_app_char (c : char) (a b : jsstring) :
  ~ In c a -> find_sub [c] (a ++ c :: b) = Some (List.length a).
Proof.
  induction a as [|x a IH]; intros Hn; simpl.
  - now rewrite N.eqb_refl.
  - destruct (N.eqb c x) eqn:E.
    + apply N.eqb_eq in E. subst x. exfalso. apply Hn. now left.
    + simpl. rewrite IH; [reflexivity|]. intros H. apply Hn. now right.
Qed.

Lemma find_sub_char_none (c : char) (a : jsstring) :
  ~ In c a -> find_sub [c] a = None.
Proof.
  induction a as [|x a IH]; intros Hn; simpl; [reflexivity|].
  destruct (N.eqb c x) eqn:E.
  - apply N.eqb_eq in E. subst x. exfalso. apply Hn. now left.
  - simpl. rewrite IH; [reflexivity|]. intros H. apply Hn. now right.
Qed.

Lemma substring_0_len (a b : jsstring) : substring (a ++ b) 0 (len a) = a.
Proof.
  rewrite substring_spec
    by (rewrite ?len_app; pose proof (len_nonneg a); pose proof (len_nonneg b); lia).
  simpl. replace (Z.to_nat (len a - 0)) with (List.length a) by (unfold len; lia).
  rewrite firstn_app, firstn_all, Nat.sub_diag. simpl. apply app_nil_r.
Qed.

Lemma substring_same (s : jsstring) (a : Z) : substring s a a = [].
Proof.
  unfold substring. now rewrite Nat.max_id, Nat.min_id, Nat.sub_diag.
Qed.

Lemma indexOf_fix (s pat : jsstring) (from r : Z) :
  indexOf s pat from = r -> r <> -1 -> indexOf s pat r = r.
Proof.
  intros H Hr. destruct (indexOf_found _ _ _ _ H Hr) as (Hlo & Hhi & Hs).
  pose proof (len_nonneg pat).
  unfold indexOf. rewrite clamp_id by lia.
  rewrite (find_sub_here _ _ Hs). lia.
Qed.

(** The pass that finds the next [<] at [nb] is the pass started at [nb]
    with the text before it already pushed. *)
Lemma iteration_text rec html index nodes :
  indexOf html (js "<") index <> -1 ->
  iteration rec html index nodes
  = iteration rec html (indexOf html (js "<") index)
      (push_text nodes (trim (substring html index (indexOf html (js "<") index)))).
Proof.
  intros Hnb. remember (indexOf html (js "<") index) as nb eqn:Enb.
  symmetry in Enb. unfold iteration. cbv zeta.
  rewrite Enb, (indexOf_fix _ _ _ _ Enb Hnb), substring_same.
  change (trim []) with (@nil char).
  change (push_text ?x []) with x.
  replace (nb =? -1) with false by (symmetry; now apply Z.eqb_neq).
  reflexivity.
Qed.

Lemma first_pass_text (txt rest : jsstring) :
  ~ In 60%N txt ->
  first_pass (txt ++ 60%N :: rest)
  = option_map (prepend (push_text [] (trim txt)))
      (option_map (shift_outcome (len txt)) (first_pass (60%N :: rest))).
Proof.
  intros Hn. unfold first_pass.
  assert (Hnb : indexOf (txt ++ 60%N :: rest) (js "<") 0 = len txt).
  { rewrite indexOf_0. change (js "<") with [60%N].
    now rewrite find_sub_app_char. }
  rewrite iteration_text by (rewrite Hnb; pose proof (len_nonneg txt); lia).
  rewrite Hnb, substring_0_len, iteration_acc, iteration_app.
  reflexivity.
Qed.

(** Text in front of a tag becomes one text node, trimmed, unless nothing
    is left of it; the parse then goes on as from the tag. *)
Lemma htmlToJson_text_prefix (txt rest : jsstring) :
  ~ In 60%N txt ->
  htmlToJson (txt ++ 60%N :: rest)
  = push_text [] (trim txt) ++ htmlToJson (60%N :: rest).
Proof.
  intros Hn.
  pose proof (htmlToJson_unfold (txt ++ 60%N :: rest)) as H1.
  pose proof (htmlToJson_unfold (60%N :: rest)) as H2.
  rewrite first_pass_text in H1 by assumption.
  destruct (first_pass (60%N :: rest)) as [[ns|i ns]|]; simpl in *.
  - rewrite H1 by (now destruct txt). rewrite H2 by discriminate. reflexivity.
  - destruct H1 as [_ H1]; [now destruct txt|].
    destruct H2 as [Hi H2]; [discriminate|].
    rewrite H1, H2, <- app_assoc. do 2 f_equal.
    replace (Z.to_nat (i + len txt)) with (List.length txt + Z.to_nat i)%nat
      by (unfold len; lia).
    now rewrite skipn_app_len.
  - exfalso. apply H2. discriminate.
Qed.

(** Input without any [<] is one text node, trimmed, or nothing. *)
Lemma htmlToJson_text_only (txt : jsstring) :
  ~ In 60%N txt -> htmlToJson txt = push_text [] (trim txt).
Proof.
  intros Hn. destruct txt as [|c txt]; [reflexivity|].
  pose proof (htmlToJson_unfold (c :: txt) ltac:(discriminate)) as H.
  unfold first_pass, iteration in H. cbv zeta in H.
  rewrite indexOf_0 in H. change (js "<") with [60%N] in H.
  rewrite (find_sub_char_none _ _ Hn) in H. simpl in H. exact H.
Qed.

(** ** An opening tag *)

Lemma dropWhile_head (p : char -> bool) (s : jsstring) (c : char) (r : jsstring) :
  dropWhile p s = c :: r -> p c = false /\ exists c0 r0, s = c0 :: r0 /\ (p c0 = true \/ c0 = c).
Proof.
  induction s as [|x s IH]; simpl; [discriminate|].
  destruct (p x) eqn:E.
  - intros H. destruct (IH H) as [Hc _]. split; [exact Hc|].
    exists x, s. split; [reflexivity|now left].
  - intros [= -> ->]. split; [exact E|]. exists c, r. split; [reflexivity|now right].
Qed.

Lemma takeWhile_head (p : char -> bool) (s : jsstring) (c : char) (r : jsstring) :
  takeWhile p s = c :: r -> p c = true /\ exists r0, s = c :: r0.
Proof.
  destruct s as [|x s]; simpl; [discriminate|].
  destruct (p x) eqn:E; [|discriminate].
  intros [= -> _]. split; [exact E|]. now exists s.
Qed.

(** A tag interior with a tag name starts with whitespace or with a name
    character. *)
Lemma tagNameMatch_head (t name : jsstring) :
  tagNameMatch (trim t) = Some name ->
  exists c t', t = c :: t' /\ (is_ws c = true \/ is_name_char c = true).
Proof.
  unfold tagNameMatch. destruct (takeWhile is_name_char (trim t)) as [|x n] eqn:E;
    [discriminate|]. intros _.
  apply takeWhile_head in E as [Hx [r0 Hr]].
  unfold trim, trimEnd in Hr.
  destruct (dropWhile is_ws (rev (trimStart t))) as [|y w] eqn:D.
  { simpl in Hr. discriminate. }
  pose proof (f_equal (@rev N) Hr) as Hr'. rewrite rev_involutive in Hr'.
  assert (Hts : exists r1, trimStart t = x :: r1).
  { pose proof (takeWhile_dropWhile is_ws (rev (trimStart t))) as Hsplit.
    rewrite D, Hr' in Hsplit.
    apply (f_equal (@rev N)) in Hsplit. rewrite rev_involutive in Hsplit.
    rewrite rev_app_distr in Hsplit. simpl in Hsplit.
    rewrite rev_app_distr in Hsplit. rewrite rev_involutive in Hsplit.
    simpl in Hsplit. rewrite <- Hsplit. eexists. reflexivity. }
  destruct Hts as [r1 Hts]. unfold trimStart in Hts.
  apply dropWhile_head in Hts as [_ (c0 & t0 & -> & [Hw| ->])].
  - exists c0, t0. split; [reflexivity|now left].
  - exists x, t0. split; [reflexivity|now right].
Qed.

Lemma not_comment_open (x c : char) (r : jsstring) :
  c <> 33%N -> jseq (substring (x :: c :: r) 0 4) (js "<!--") = false.
Proof.
  intros Hc. unfold substring. rewrite clamp_0. simpl Nat.min. simpl skipn.
  rewrite Nat.sub_0_r, Nat.max_0_l.
  assert (H2 : (2 <= clamp (x :: c :: r) 4)%nat).
  { unfold clamp, len. simpl List.length. lia. }
  destruct (clamp (x :: c :: r) 4) as [|[|b]]; [lia|lia|].
  simpl. apply N.eqb_neq in Hc. rewrite Hc. now rewrite andb_false_r.
Qed.

Lemma charAt_0 (c : char) (s : jsstring) : charAt (c :: s) 0 = Some c.
Proof. reflexivity. Qed.

Lemma charAt_1 (x c : char) (s : jsstring) : charAt (x :: c :: s) 1 = Some c.
Proof. reflexivity. Qed.

Lemma substring_0_firstn (s : jsstring) (p : nat) :
  (p <= List.length s)%nat -> substring s 0 (Z.of_nat p) = firstn p s.
Proof.
  intros Hp. rewrite substring_spec by (unfold len; lia).
  simpl. f_equal. lia.
Qed.

(** The pass over an opening tag [<t>] whose interior [t] has no [>] and
    yields a tag name: the element it pushes and where it leaves the
    cursor. *)
Lemma first_pass_open_tag (t rest name : jsstring) :
  ~ In 62%N t ->
  tagNameMatch (trim t) = Some name ->
  first_pass (60%N :: t ++ 62%N :: rest)
  = let tagName := toLowerCase name in
    let attributes :=
      extractAttributes (trim (substring_from (trim t) (len tagName))) in
    let endTag := js "</" ++ tagName ++ js ">" in
    if endsWith (trim t) (js "/") || includes voidTags tagName then
      Some (Continue (len t + 2) [Element tagName attributes []])
    else
      match find_sub endTag rest with
      | None => Some (Continue (len t + 2) [Element tagName attributes []])
      | Some p =>
          let innerHTML := firstn p rest in
          Some (Continue (len t + 2 + Z.of_nat p + len endTag)
                  [Element tagName attributes
                     (if jseq tagName (js "script")
                      then if 0 <? len (trim innerHTML)
                           then [Text innerHTML] else []
                      else htmlToJson innerHTML)])
      end.
Proof.
  intros Hgt Hname.
  destruct (tagNameMatch_head _ _ Hname) as (c & t' & Ht & Hc).
  set (s := 60%N :: t ++ 62%N :: rest).
  pose proof (len_nonneg t) as Hlt. pose proof (len_nonneg rest) as Hlr.
  assert (Hls : len s = len t + 2 + len rest).
  { unfold s, len. simpl. rewrite length_app. simpl. lia. }
  assert (Hlt1 : 1 <= len t) by (subst t; unfold len; simpl; lia).
  assert (E1 : indexOf s (js "<") 0 = 0).
  { rewrite indexOf_0. now rewrite (find_sub_here (js "<") s). }
  assert (E2 : jseq (substring s 0 4) (js "<!--") = false).
  { unfold s. rewrite Ht. simpl app. apply not_comment_open.
    intros ->. destruct Hc as [Hc|Hc]; vm_compute in Hc; discriminate. }
  assert (E3 : char_is (charAt s 0) 60%N && negb (char_is (charAt s 1) 47%N) = true).
  { unfold s. rewrite Ht. simpl app. rewrite charAt_0, charAt_1. simpl.
    destruct (N.eqb c 47) eqn:E; [|reflexivity].
    apply N.eqb_eq in E. subst c.
    destruct Hc as [Hc|Hc]; vm_compute in Hc; discriminate. }
  assert (E4 : indexOf s (js ">") 0 = len t + 1).
  { rewrite indexOf_0. change (js ">") with [62%N].
    change s with ((60%N :: t) ++ 62%N :: rest).
    rewrite find_sub_app_char.
    - unfold len. simpl. lia.
    - intros [H|H]; [discriminate|contradiction]. }
  assert (E5 : substring s 1 (len t + 1) = t).
  { change s with ([60%N] ++ (t ++ 62%N :: rest)).
    rewrite (substring_app [60%N] _ 1 (len t + 1) 0 (len t)) by (unfold len; simpl; lia).
    apply substring_0_len. }
  set (tagName := toLowerCase name).
  set (endTag := js "</" ++ tagName ++ js ">").
  assert (E6 : indexOf s endTag (len t + 2)
               = shiftZ (len t + 2) (indexOf rest endTag 0)).
  { replace (len t + 2) with (len (60%N :: t ++ [62%N]))
      by (unfold len; simpl; rewrite length_app; simpl; lia).
    replace s with ((60%N :: t ++ [62%N]) ++ rest)
      by (unfold s; simpl; now rewrite <- app_assoc).
    apply indexOf_app; lia. }
  unfold first_pass, iteration. cbv zeta. fold s.
  rewrite E1. simpl (0 =? -1). cbv iota.
  rewrite !Z.add_0_l, substring_same, E2, E3, E4.
  replace (len s <=? 1) with false by (symmetry; apply Z.leb_gt; lia).
  replace (len t + 1 =? -1) with false by (symmetry; apply Z.eqb_neq; lia).
  rewrite E5, Hname. fold tagName. fold endTag.
  replace (len t + 1 - 0 + 1) with (len t + 2) by lia.
  rewrite E6, indexOf_0.
  change (push_text [] (trim [])) with (@nil node). simpl app.
  destruct (endsWith (trim t) (js "/") || includes voidTags tagName);
    [reflexivity|]. simpl orb.
  destruct (find_sub endTag rest) as [p|] eqn:F; [|reflexivity].
  apply find_sub_Some in F as (_ & Hp & _).
  rewrite shiftZ_found by lia.
  replace (Z.of_nat p + (len t + 2) =? -1) with false
    by (symmetry; apply Z.eqb_neq; lia).
  assert (E7 : substring s (len t + 2) (Z.of_nat p + (len t + 2)) = firstn p rest).
  { replace s with ((60%N :: t ++ [62%N]) ++ rest)
      by (unfold s; simpl; now rewrite <- app_assoc).
    rewrite (substring_app _ rest _ _ 0 (Z.of_nat p))
      by (unfold len; simpl; rewrite ?length_app; simpl; lia).
    apply substring_0_firstn. lia. }
  rewrite E7.
  assert (E8 : len (firstn p rest) = Z.of_nat p).
  { unfold len. rewrite length_firstn. lia. }
  rewrite E8.
  replace (len t + 2 + Z.of_nat p) with (Z.of_nat p + (len t + 2)) by lia.
  destruct (jseq tagName (js "script")); reflexivity.
Qed.

(** What follows an opening tag in the output: with a self-closing tag or
    without a closing tag, the childless element and the parse of the
    rest; else the element with the inner span as its content and the
    parse of what follows the closing tag. *)
Lemma htmlToJson_open_tag (t rest name : jsstring) :
  ~ In 62%N t ->
  tagNameMatch (trim t) = Some name ->
  htmlToJson (60%N :: t ++ 62%N :: rest)
  = let tagName := toLowerCase name in
    let attributes :=
      extractAttributes (trim (substring_from (trim t) (len tagName))) in
    let endTag := js "</" ++ tagName ++ js ">" in
    if endsWith (trim t) (js "/") || includes voidTags tagName then
      Element tagName attributes [] :: htmlToJson rest
    else
      match find_sub endTag rest with
      | None => Element tagName attributes [] :: htmlToJson rest
      | Some p =>
          let innerHTML := firstn p rest in
          Element tagName attributes
            (if jseq tagName (js "script")
             then if 0 <? len (trim innerHTML) then [Text innerHTML] else []
             else htmlToJson innerHTML)
          :: htmlToJson (skipn (p + List.length endTag) rest)
      end.
Proof.
  intros Hgt Hname.
  pose proof (htmlToJson_unfold (60%N :: t ++ 62%N :: rest) ltac:(discriminate)) as H.
  rewrite (first_pass_open_tag t rest name Hgt Hname) in H. cbv zeta in *.
  assert (Hskip : forall k, skipn (Z.to_nat (len t + 2 + Z.of_nat k)) (60%N :: t ++ 62%N :: rest)
                            = skipn k rest).
  { intros k. replace (60%N :: t ++ 62%N :: rest) with ((60%N :: t ++ [62%N]) ++ rest)
      by (simpl; now rewrite <- app_assoc).
    replace (Z.to_nat (len t + 2 + Z.of_nat k))
      with (List.length (60%N :: t ++ [62%N]) + k)%nat
      by (unfold len; simpl; rewrite length_app; simpl; lia).
    apply skipn_app_len. }
  destruct (endsWith (trim t) (js "/") || includes voidTags (toLowerCase name)).
  - destruct H as [_ H]. rewrite H. specialize (Hskip 0%nat).
    rewrite Z.add_0_r in Hskip. now rewrite Hskip.
  - destruct (find_sub _ rest) as [p|].
    + destruct H as [_ H]. rewrite H. simpl app. f_equal. f_equal.
      rewrite <- Hskip. f_equal. unfold len. lia.
    + destruct H as [_ H]. rewrite H. specialize (Hskip 0%nat).
      rewrite Z.add_0_r in Hskip. now rewrite Hskip.
Qed.

(** ** Raw text in [script] *)

(** C6.  Where an opening tag named [script] (in any case, with any
    attributes, after any text) is not self-closed and [</script>] occurs
    after it, the inner span, from the end of the opening tag to the first
    [</script>], is not parsed: when it is not empty after trimming, the
    element's children are exactly one text node holding the span verbatim.
    The example of the claim is an instance. *)
Theorem script_inner_span_is_verbatim_text :
  (forall txt t rest name p,
      ~ In 60%N txt -> ~ In 62%N t ->
      tagNameMatch (trim t) = Some name ->
      toLowerCase name = js "script" ->
      endsWith (trim t) (js "/") = false ->
      find_sub (js "</script>") rest = Some p ->
      trim (firstn p rest) <> [] ->
      htmlToJson (txt ++ 60%N :: t ++ 62%N :: rest)
      = push_text [] (trim txt)
        ++ Element (js "script")
             (extractAttributes (trim (substring_from (trim t) 6)))
             [Text (firstn p rest)]
           :: htmlToJson (skipn (p + 9) rest))
  /\ htmlToJson (js "<script>if (a < b) { x(); }</script>")
     = [Element (js "script") [] [Text (js "if (a < b) { x(); }")]].
Proof.
  split; [|vm_compute; reflexivity].
  intros txt t rest name p Htxt Hgt Hname Hscript Hslash Hfind Hinner.
  rewrite htmlToJson_text_prefix by assumption. f_equal.
  rewrite (htmlToJson_open_tag t rest name Hgt Hname). cbv zeta.
  rewrite Hscript, Hslash.
  change (includes voidTags (js "script")) with false.
  change (js "</" ++ js "script" ++ js ">") with (js "</script>").
  rewrite Hfind. simpl orb. cbv iota.
  change (jseq (js "script") (js "script")) with true. cbv iota.
  replace (0 <? len (trim (firstn p rest))) with true.
  - reflexivity.
  - symmetry. apply Z.ltb_lt.
    destruct (trim (firstn p rest)); [contradiction|]. unfold len. simpl. lia.
Qed.

Lemma script_inner_span_is_verbatim_text_witness :
  htmlToJson (js "a" ++ 60%N :: js "SCRIPT defer" ++ 62%N :: js " x<y </script>z")
  = push_text [] (trim (js "a"))
    ++ Element (js "script")
         (extractAttributes (trim (substring_from (trim (js "SCRIPT defer")) 6)))
         [Text (firstn 5 (js " x<y </script>z"))]
       :: htmlToJson (skipn (5 + 9) (js " x<y </script>z")).
Proof.
  apply (proj1 script_inner_span_is_verbatim_text
           (js "a") (js "SCRIPT defer") (js " x<y </script>z") (js "SCRIPT") 5%nat).
  - vm_compute. intuition discriminate.
  - vm_compute. intuition discriminate.
  - vm_compute. reflexivity.
  - vm_compute. reflexivity.
  - vm_compute. reflexivity.
  - vm_compute. reflexivity.
  - vm_compute. discriminate.
Defined.

(** ** Self-closing tag names *)

Lemma void_childless_element (tagName : jsstring) (attributes : obj)
    (children : list node) :
  void_childless (Element tagName attributes children)
  <-> (includes voidTags tagName = true -> children = [])
      /\ Forall void_childless children.
Proof.
  simpl. split; intros [H1 H2]; (split; [exact H1|]).
  - induction children as [|c l IH]; constructor; [apply H2|].
    apply IH; [|apply H2]. intros H. specialize (H1 H). discriminate.
  - clear H1. induction H2 as [|c l Hc Hl IH]; [exact I|]. split; assumption.
Qed.

Lemma void_childless_push_text (nodes : list node) (text : jsstring) :
  Forall void_childless nodes -> Forall void_childless (push_text nodes text).
Proof.
  intros H. unfold push_text. destruct (0 <? len text); [|exact H].
  apply Forall_app. split; [exact H|]. repeat constructor.
Qed.

Lemma void_childless_push (nodes : list node) (n : node) :
  Forall void_childless nodes -> void_childless n ->
  Forall void_childless (nodes ++ [n]).
Proof.
  intros H Hn. apply Forall_app. split; [exact H|]. now repeat constructor.
Qed.

(** One pass keeps the invariant, whatever self-closing elements the
    recursive call has left childless. *)
Lemma iteration_void_childless rec html index nodes o :
  (forall inner r, rec inner = Some r -> Forall void_childless r) ->
  Forall void_childless nodes ->
  iteration rec html index nodes = Some o ->
  Forall void_childless (outcome_nodes o).
Proof.
  intros Hrec Hnodes. unfold iteration. cbv zeta.
  pose proof (void_childless_push_text nodes) as Hpt.
  repeat match goal with
  | |- (if ?c then _ else _) = _ -> _ => destruct c eqn:?
  | |- match ?c with _ => _ end = _ -> _ => destruct c eqn:?
  end; intros [= <-]; simpl; auto;
    (apply void_childless_push; [auto|]);
    try exact I;
    (apply void_childless_element; split;
     [ intros Hv; try reflexivity;
       match goal with
       | H : _ || includes voidTags _ || _ = false |- _ =>
           rewrite Hv, orb_true_r in H; discriminate
       end
     | try match goal with
           | |- Forall _ (if ?c then _ else _) => destruct c
           end;
       repeat constructor; eauto ]).
Qed.

Lemma parse_loop_void_childless (fuel : nat) : forall html index nodes result,
  Forall void_childless nodes ->
  parse_loop fuel html index nodes = Some result ->
  Forall void_childless result.
Proof.
  induction fuel as [|fuel IH]; intros html index nodes result Hnodes;
    [discriminate|].
  simpl. destruct (index <? len html); [|now intros [= <-]].
  destruct (iteration _ html index nodes) as [o|] eqn:Hit; [|discriminate].
  apply iteration_void_childless in Hit; [|eauto|exact Hnodes].
  destruct o as [ns|i ns]; [now intros [= <-]|]. now apply IH.
Qed.

Lemma htmlToJson_void_childless (html : jsstring) :
  Forall void_childless (htmlToJson html).
Proof.
  apply (parse_loop_void_childless (S (List.length html)) html 0 []);
    [constructor|]. apply htmlToJson_run. lia.
Qed.

(** C7.  In the output of [htmlToJson], on any input, every element with a
    tag name of the self-closing list, at any depth, has no children.  An
    opening tag with such a name yields the childless element and the
    parse goes on right behind the tag, whatever follows.  [jsonToHtml]
    renders such an element as its opening tag alone, whatever children it
    is given.  The [input] tag of the claim yields one childless
    element. *)
Theorem void_elements_have_no_children :
  (forall html, Forall void_childless (htmlToJson html))
  /\ (forall txt t rest name,
         ~ In 60%N txt -> ~ In 62%N t ->
         tagNameMatch (trim t) = Some name ->
         includes voidTags (toLowerCase name) = true ->
         htmlToJson (txt ++ 60%N :: t ++ 62%N :: rest)
         = push_text [] (trim txt)
           ++ Element (toLowerCase name)
                (extractAttributes
                   (trim (substring_from (trim t) (len (toLowerCase name)))))
                []
              :: htmlToJson rest)
  /\ (forall tagName attributes children,
         includes voidTags tagName = true ->
         jsonToHtml_node (Element tagName attributes children)
         = js "<" ++ tagName ++ attrString attributes ++ js ">")
  /\ htmlToJson (js "<input type=" ++ [dquote] ++ js "text" ++ [dquote]
                 ++ js " required>")
     = [Element (js "input") [(js "type", js "text"); (js "required", [])] []].
Proof.
  split; [exact htmlToJson_void_childless|]. split; [|split].
  - intros txt t rest name Htxt Hgt Hname Hvoid.
    rewrite htmlToJson_text_prefix by assumption. f_equal.
    rewrite (htmlToJson_open_tag t rest name Hgt Hname). cbv zeta.
    now rewrite Hvoid, orb_true_r.
  - intros tagName attributes children Hvoid.
    cbn -[includes voidTags js app]. rewrite Hvoid. cbn [negb].
    now rewrite app_nil_r.
  - vm_compute. reflexivity.
Qed.

Lemma void_elements_have_no_children_witness :
  htmlToJson (js "a " ++ 60%N :: js "BR" ++ 62%N :: js "b</br>")
  = push_text [] (trim (js "a "))
    ++ Element (toLowerCase (js "BR"))
         (extractAttributes
            (trim (substring_from (trim (js "BR")) (len (toLowerCase (js "BR"))))))
         []
       :: htmlToJson (js "b</br>")
  /\ jsonToHtml_node (Element (js "br") [] [Text (js "x")]) = js "<br>".
Proof.
  split.
  - apply (proj1 (proj2 void_elements_have_no_children)).
    + vm_compute. intuition discriminate.
    + vm_compute. intuition discriminate.
    + vm_compute. reflexivity.
    + vm_compute. reflexivity.
  - apply (proj1 (proj2 (proj2 void_elements_have_no_children))
             (js "br") [] [Text (js "x")]).
    vm_compute. reflexivity.
Defined.

(** ** Trimming and searching in strings put together *)

Lemma dropWhile_stop (p : char -> bool) (c : char) (s : jsstring) :
  p c = false -> dropWhile p (c :: s) = c :: s.
Proof. intros H. simpl. now rewrite H. Qed.

Lemma trimEnd_snoc_ws (s : jsstring) (x : char) :
  is_ws x = true -> trimEnd (s ++ [x]) = trimEnd s.
Proof.
  intros H. unfold trimEnd. rewrite rev_app_distr. simpl. now rewrite H.
Qed.

Lemma trimEnd_fixed (s : jsstring) (d : char) (r : jsstring) :
  rev s = d :: r -> is_ws d = false -> trimEnd s = s.
Proof.
  intros Hr Hd. unfold trimEnd. rewrite Hr, dropWhile_stop by assumption.
  rewrite <- Hr. apply rev_involutive.
Qed.

(** A string that neither starts nor ends with whitespace is its own
    trimming. *)
Lemma trim_fixed (c : char) (s : jsstring) (d : char) (r : jsstring) :
  is_ws c = false -> rev (c :: s) = d :: r -> is_ws d = false ->
  trim (c :: s) = c :: s.
Proof.
  intros Hc Hr Hd. unfold trim, trimStart. rewrite dropWhile_stop by assumption.
  now apply (trimEnd_fixed _ d r).
Qed.

Lemma trim_fixed_ends (s : jsstring) :
  trim s = s -> s <> [] ->
  (exists c r, s = c :: r /\ is_ws c = false)
  /\ (exists d r, rev s = d :: r /\ is_ws d = false).
Proof.
  intros Ht Hne. unfold trim, trimEnd in Ht.
  assert (Hstart : exists c r, s = c :: r /\ is_ws c = false).
  { destruct s as [|c r]; [contradiction|]. exists c, r. split; [reflexivity|].
    destruct (is_ws c) eqn:E; [|reflexivity]. exfalso.
    unfold trimStart in Ht. simpl in Ht. rewrite E in Ht.
    apply (f_equal (@List.length N)) in Ht.
    rewrite length_rev in Ht.
    pose proof (length_takeWhile_dropWhile is_ws (rev (dropWhile is_ws r))) as H1.
    pose proof (length_takeWhile_dropWhile is_ws r) as H2.
    rewrite length_rev in H1. simpl in Ht. lia. }
  split; [exact Hstart|].
  destruct Hstart as (c & r & -> & Hc).
  unfold trimStart in Ht. rewrite dropWhile_stop in Ht by assumption.
  destruct (rev (c :: r)) as [|d r'] eqn:Hr.
  { apply (f_equal (@List.length N)) in Hr. rewrite length_rev in Hr. discriminate. }
  exists d, r'. split; [reflexivity|].
  destruct (is_ws d) eqn:E; [|reflexivity]. exfalso.
  simpl in Ht. rewrite E in Ht.
  apply (f_equal (@List.length N)) in Ht. rewrite length_rev in Ht.
  apply (f_equal (@List.length N)) in Hr. rewrite length_rev in Hr.
  pose proof (length_takeWhile_dropWhile is_ws r') as H1. simpl in *. lia.
Qed.

(** One blank on either side is trimmed away. *)
Lemma trim_padded (s : jsstring) :
  trim s = s -> trim (32%N :: s ++ [32%N]) = s.
Proof.
  intros Ht. destruct s as [|c r].
  - reflexivity.
  - destruct (trim_fixed_ends _ Ht ltac:(discriminate))
      as [(c0 & r0 & [= <- <-] & Hc) (d & r' & Hr & Hd)].
    unfold trim, trimStart.
    change (dropWhile is_ws (32%N :: (c :: r) ++ [32%N]))
      with (dropWhile is_ws ((c :: r) ++ [32%N])).
    simpl app. rewrite dropWhile_stop by assumption.
    change (c :: r ++ [32%N]) with ((c :: r) ++ [32%N]).
    rewrite trimEnd_snoc_ws by reflexivity.
    now apply (trimEnd_fixed _ d r').
Qed.

Lemma takeWhile_app_stop (p : char -> bool) (a b : jsstring) :
  forallb p a = true ->
  (forall c r, b = c :: r -> p c = false) ->
  takeWhile p (a ++ b) = a /\ dropWhile p (a ++ b) = b.
Proof.
  intros Ha Hb. induction a as [|x a IH]; simpl.
  - destruct b as [|c r]; [now split|]. simpl. rewrite (Hb c r eq_refl). now split.
  - simpl in Ha. apply andb_true_iff in Ha as [Hx Ha]. rewrite Hx.
    destruct (IH Ha) as [-> ->]. now split.
Qed.

(** No occurrence of a pattern reaches across a character that the
    pattern has at most at its head. *)
Lemma starts_with_cut (pat u : jsstring) (x : char) (b : jsstring) :
  ~ In x pat ->
  starts_with pat (u ++ x :: b) = true -> starts_with pat u = true.
Proof.
  revert u; induction pat as [|q pat IH]; intros u Hx H; [reflexivity|].
  destruct u as [|d u]; simpl in *.
  - apply andb_true_iff in H as [Hq _]. apply N.eqb_eq in Hq. subst q.
    exfalso. apply Hx. now left.
  - apply andb_true_iff in H as [Hq Hr]. rewrite Hq. simpl.
    apply IH; [|exact Hr]. intros Hin. apply Hx. now right.
Qed.

Lemma find_sub_barrier (pat a : jsstring) (x : char) (b : jsstring) :
  ~ In x (tl pat) ->
  find_sub pat a = None ->
  find_sub pat (a ++ x :: b)
  = option_map (Nat.add (List.length a)) (find_sub pat (x :: b)).
Proof.
  intros Hx. induction a as [|c a IH]; intros Hnone.
  - simpl app. destruct (find_sub pat (x :: b)); reflexivity.
  - simpl in Hnone. destruct (starts_with pat (c :: a)) eqn:E; [discriminate|].
    destruct (find_sub pat a) eqn:F; [discriminate|].
    simpl app. simpl find_sub at 1.
    assert (E' : starts_with pat (c :: a ++ x :: b) = false).
    { destruct (starts_with pat (c :: a ++ x :: b)) eqn:E'; [|reflexivity].
      destruct pat as [|q pat]; [discriminate|]. simpl in E', E, Hx.
      apply andb_true_iff in E' as [Hq Hr]. rewrite Hq in E. simpl in E.
      rewrite (starts_with_cut pat a x b Hx Hr) in E. discriminate. }
    rewrite E', (IH eq_refl).
    destruct (find_sub pat (x :: b)); reflexivity.
Qed.

Lemma find_sub_skip_char (pat : jsstring) (x : char) (b : jsstring) :
  starts_with pat (x :: b) = false ->
  find_sub pat (x :: b) = option_map S (find_sub pat b).
Proof. intros H. simpl. now rewrite H. Qed.

(** After content without the pattern, the pattern itself is the first
    occurrence, provided its head character occurs nowhere else in it. *)
Lemma find_sub_after (pat a rest : jsstring) :
  ~ In (hd 0%N pat) (tl pat) -> pat <> [] ->
  find_sub pat a = None ->
  find_sub pat (a ++ pat ++ rest) = Some (List.length a).
Proof.
  intros Hhd Hne Hnone. destruct pat as [|x pat]; [contradiction|].
  simpl in Hhd. simpl app.
  rewrite find_sub_barrier by assumption.
  rewrite (find_sub_here (x :: pat) (x :: pat ++ rest)).
  - simpl. f_equal. lia.
  - apply (starts_with_app (x :: pat) rest).
Qed.

(** ** Rendered attributes are read back *)

Lemma name_char_not (c x : char) :
  is_name_char c = true -> is_name_char x = false -> N.eqb c x = false.
Proof.
  intros Hc Hx. destruct (N.eqb_spec c x) as [->|]; [congruence|reflexivity].
Qed.

Lemma name_char_range (c : char) :
  is_name_char c = true -> (45 <= c <= 122)%N.
Proof.
  unfold is_name_char.
  rewrite !orb_true_iff, !andb_true_iff, !N.leb_le, !N.eqb_eq. lia.
Qed.

Lemma name_char_not_ws (c : char) : is_name_char c = true -> is_ws c = false.
Proof.
  intros H. apply name_char_range in H.
  destruct (is_ws c) eqn:E; [|reflexivity]. unfold is_ws in E.
  rewrite !orb_true_iff, !andb_true_iff, !N.leb_le, !N.eqb_eq in E. lia.
Qed.

Lemma name_ok_head (k : jsstring) :
  name_ok k -> exists c r, k = c :: r /\ is_name_char c = true.
Proof.
  intros [Hne Hall]. destruct k as [|c r]; [contradiction|].
  simpl in Hall. apply andb_true_iff in Hall as [Hc _]. now exists c, r.
Qed.

Lemma name_ok_last (k : jsstring) :
  name_ok k -> exists d r, rev k = d :: r /\ is_name_char d = true.
Proof.
  intros [Hne Hall]. destruct (rev k) as [|d r] eqn:E.
  - apply (f_equal (@List.length N)) in E. rewrite length_rev in E.
    destruct k; [contradiction|discriminate].
  - exists d, r. split; [reflexivity|].
    rewrite forallb_forall in Hall. apply Hall. apply in_rev. rewrite E. now left.
Qed.

Lemma name_ok_not_in (k : jsstring) (x : char) :
  name_ok k -> is_name_char x = false -> ~ In x k.
Proof.
  intros [_ Hall] Hx Hin. rewrite forallb_forall in Hall.
  rewrite (Hall _ Hin) in Hx. discriminate.
Qed.

Lemma attrString_cons (k v : jsstring) (rest : obj) :
  attrString ((k, v) :: rest)
  = 32%N :: k ++ attr_value_part v ++ attrString rest.
Proof.
  unfold attr_value_part. destruct v as [|x v]; simpl; [reflexivity|].
  f_equal. rewrite <- !app_assoc. simpl. now rewrite <- !app_assoc.
Qed.

Lemma attrString_head (attributes : obj) (c : char) (r : jsstring) :
  attrString attributes = c :: r -> c = 32%N.
Proof.
  destruct attributes as [|[k v] rest]; [discriminate|].
  rewrite attrString_cons. now intros [= <- _].
Qed.

Lemma value_group_none_before_name (attributes : obj) :
  Forall attr_ok attributes -> value_group (attrString attributes) = None.
Proof.
  intros Hok. destruct attributes as [|[k v] rest]; [reflexivity|].
  rewrite attrString_cons. inversion Hok as [|? ? [Hk _] _]; subst.
  simpl in Hk. destruct (name_ok_head _ Hk) as (c & r & -> & Hc).
  unfold value_group. simpl. rewrite (name_char_not_ws _ Hc).
  now rewrite (name_char_not c 61 Hc).
Qed.

Lemma value_group_quoted (v tail : jsstring) :
  ~ In dquote v ->
  value_group (js "=" ++ [dquote] ++ v ++ [dquote] ++ tail)
  = Some (None, Some v, (List.length v + 3)%nat).
Proof.
  intros Hv. unfold value_group. simpl.
  destruct (takeWhile_app_stop (fun x => negb (N.eqb x dquote)) v (dquote :: tail))
    as [Ht Hd].
  - apply forallb_forall. intros x Hx. apply negb_true_iff.
    apply N.eqb_neq. intros ->. contradiction.
  - now intros c r [= <- _].
  - change (34%N) with dquote. rewrite Ht, Hd. do 2 f_equal. lia.
Qed.

(** At the name of a rendered attribute the pattern matches the whole
    attribute. *)
Lemma attr_match_here_rendered (k v : jsstring) (rest : obj) :
  attr_ok (k, v) -> Forall attr_ok rest ->
  attr_match_here (k ++ attr_value_part v ++ attrString rest)
  = Some (attr_to_match (k, v),
          (List.length k + List.length (attr_value_part v))%nat).
Proof.
  intros (Hk & Hq & _) Hrest. simpl in Hk, Hq.
  unfold attr_match_here.
  destruct (takeWhile_app_stop is_name_char k (attr_value_part v ++ attrString rest))
    as [Ht Hd].
  - apply Hk.
  - intros c r Hcr. unfold attr_value_part in Hcr. destruct v as [|x v].
    + simpl in Hcr. now rewrite (attrString_head _ _ _ Hcr).
    + now injection Hcr as <- _.
  - rewrite Ht, Hd. destruct Hk as [Hne _].
    destruct k as [|c k']; [contradiction|].
    unfold attr_value_part, attr_to_match. simpl fst. simpl snd.
    destruct v as [|x v].
    + simpl app. rewrite value_group_none_before_name by assumption.
      simpl. now rewrite Nat.add_0_r.
    + rewrite <- !app_assoc.
      rewrite (value_group_quoted (x :: v) (attrString rest) Hq).
      do 3 f_equal. rewrite !length_app. simpl. lia.
Qed.

Lemma attr_matches_rendered (k v : jsstring) (rest : obj) :
  attr_ok (k, v) -> Forall attr_ok rest ->
  attr_matches (k ++ attr_value_part v ++ attrString rest)
  = attr_to_match (k, v) :: attr_matches (attrString rest).
Proof.
  intros Hkv Hrest.
  rewrite (attr_matches_match _ _ _ (attr_match_here_rendered k v rest Hkv Hrest)).
  f_equal. f_equal. rewrite app_assoc.
  rewrite <- length_app. rewrite skipn_app, skipn_all, Nat.sub_diag. reflexivity.
Qed.

Lemma attr_matches_attrString (attributes : obj) :
  Forall attr_ok attributes ->
  attr_matches (attrString attributes) = map attr_to_match attributes.
Proof.
  induction attributes as [|[k v] rest IH]; intros Hok; [reflexivity|].
  inversion Hok as [|? ? Hkv Hrest]; subst.
  rewrite attrString_cons, attr_matches_skip by reflexivity.
  rewrite attr_matches_rendered by assumption. simpl. now rewrite IH.
Qed.

Lemma attrString_last (attributes : obj) :
  Forall attr_ok attributes -> attributes <> [] ->
  ends_in_name_or_quote (attrString attributes).
Proof.
  induction attributes as [|[k v] rest IH]; intros Hok Hne; [contradiction|].
  inversion Hok as [|? ? (Hk & _) Hrest]; subst. simpl in Hk.
  rewrite attrString_cons. destruct rest as [|kv rest].
  - simpl attrString. rewrite app_nil_r. unfold attr_value_part.
    destruct v as [|x v].
    + rewrite app_nil_r. destruct (name_ok_last _ Hk) as (d & r & Hr & Hd).
      exists d, (r ++ [32%N]). simpl. rewrite Hr. split; [reflexivity|now left].
    + exists dquote, (rev (32%N :: k ++ js "=" ++ [dquote] ++ x :: v)).
      split; [|now right].
      replace (32%N :: k ++ js "=" ++ [dquote] ++ (x :: v) ++ [dquote])
        with ((32%N :: k ++ js "=" ++ [dquote] ++ x :: v) ++ [dquote])
        by (simpl; rewrite <- !app_assoc; reflexivity).
      now rewrite rev_app_distr.
  - destruct (IH Hrest ltac:(discriminate)) as (d & r & Hr & Hd).
    exists d, (r ++ rev (32%N :: k ++ attr_value_part v)). split; [|exact Hd].
    replace (32%N :: k ++ attr_value_part v ++ attrString (kv :: rest))
      with ((32%N :: k ++ attr_value_part v) ++ attrString (kv :: rest))
      by (simpl; rewrite <- !app_assoc; reflexivity).
    now rewrite rev_app_distr, Hr.
Qed.

Lemma ends_ok_not_ws (s : jsstring) :
  ends_in_name_or_quote s -> exists d r, rev s = d :: r /\ is_ws d = false /\ d <> 47%N.
Proof.
  intros (d & r & Hr & Hd). exists d, r. split; [exact Hr|].
  destruct Hd as [Hd| ->].
  - split; [now apply name_char_not_ws|].
    intros ->. vm_compute in Hd. discriminate.
  - split; [reflexivity|discriminate].
Qed.

Lemma trim_attrString (k v : jsstring) (rest : obj) :
  Forall attr_ok ((k, v) :: rest) ->
  trim (attrString ((k, v) :: rest)) = k ++ attr_value_part v ++ attrString rest.
Proof.
  intros Hok. pose proof (attrString_last _ Hok ltac:(discriminate)) as Hl.
  apply ends_ok_not_ws in Hl as (d & r & Hr & Hd & _).
  rewrite attrString_cons in *.
  inversion Hok as [|? ? (Hk & _) Hrest]; subst. simpl in Hk.
  destruct (name_ok_head _ Hk) as (c & k' & -> & Hc).
  unfold trim, trimStart. simpl app.
  change (dropWhile is_ws (32%N :: c :: k' ++ attr_value_part v ++ attrString rest))
    with (dropWhile is_ws (c :: k' ++ attr_value_part v ++ attrString rest)).
  rewrite dropWhile_stop by now apply name_char_not_ws.
  destruct (rev (c :: k' ++ attr_value_part v ++ attrString rest)) as [|d' r'] eqn:E.
  { apply (f_equal (@List.length N)) in E. rewrite length_rev in E. discriminate. }
  apply (trimEnd_fixed _ d' r' E).
  simpl app in Hr. simpl rev in Hr. simpl rev in E. rewrite E in Hr.
  simpl in Hr. now injection Hr as -> _.
Qed.

(** [extractAttributes] reads the rendered attributes back. *)
Lemma extractAttributes_attrString (attributes : obj) :
  attributes_ok attributes ->
  extractAttributes (trim (attrString attributes)) = attributes.
Proof.
  intros [Hok Hfold]. rewrite extractAttributes_fold.
  assert (Hm : attr_matches (trim (attrString attributes))
               = map attr_to_match attributes).
  { destruct attributes as [|[k v] rest]; [reflexivity|].
    rewrite trim_attrString by assumption.
    inversion Hok; subst.
    rewrite attr_matches_rendered by assumption. simpl.
    now rewrite attr_matches_attrString. }
  rewrite Hm. rewrite <- Hfold at 2. clear.
  generalize (@nil (list N * list N)).
  induction attributes as [|[k v] rest IH]; intros o; [reflexivity|].
  simpl. rewrite IH. f_equal. unfold record_match, attr_to_match. simpl.
  destruct v; reflexivity.
Qed.

(** ** A comment *)

(** The pass over a comment whose closing marker is the first [-->] of
    the input. *)
Lemma htmlToJson_comment (body after : jsstring) :
  find_sub (js "-->") (js "<!--" ++ body ++ js "-->" ++ after)
  = Some (4 + List.length body)%nat ->
  htmlToJson (js "<!--" ++ body ++ js "-->" ++ after)
  = Comment (trim body) :: htmlToJson after.
Proof.
  intros Hfind.
  set (s := js "<!--" ++ body ++ js "-->" ++ after) in *.
  pose proof (len_nonneg body) as Hlb. pose proof (len_nonneg after) as Hla.
  assert (Hls : len s = len body + 7 + len after).
  { unfold s. rewrite !len_app. change (len (js "<!--")) with 4. change (len (js "-->")) with 3. lia. }
  assert (E1 : indexOf s (js "<") 0 = 0).
  { rewrite indexOf_0. now rewrite (find_sub_here (js "<") s). }
  assert (E2 : substring s 0 4 = js "<!--").
  { unfold s. apply (substring_0_len (js "<!--")). }
  assert (E3 : indexOf s (js "-->") 0 = len body + 4).
  { rewrite indexOf_0, Hfind. unfold len. lia. }
  assert (E4 : substring s 4 (len body + 4) = body).
  { unfold s.
    rewrite (substring_app (js "<!--") _ 4 (len body + 4) 0 (len body))
      by (unfold len; simpl; lia).
    apply substring_0_len. }
  pose proof (htmlToJson_unfold s) as H.
  unfold first_pass, iteration in H. cbv zeta in H.
  rewrite E1 in H. simpl (0 =? -1) in H. cbv iota in H.
  rewrite !Z.add_0_l, substring_same, E2, E3 in H.
  replace (len s <=? 1) with false in H by (symmetry; apply Z.leb_gt; lia).
  replace (len body + 4 =? -1) with false in H by (symmetry; apply Z.eqb_neq; lia).
  change (jseq (js "<!--") (js "<!--")) with true in H. simpl negb in H.
  cbv iota in H. rewrite E4 in H.
  destruct H as [_ H]; [unfold s; discriminate|].
  rewrite H. apply (f_equal (cons (Comment (trim body)))). f_equal.
  replace (Z.to_nat (4 + (len body + 4 - 4 + 3)))
    with (List.length (js "<!--" ++ body ++ js "-->") + 0)%nat
    by (rewrite !length_app; change (List.length (js "<!--")) with 4%nat;
        change (List.length (js "-->")) with 3%nat; unfold len; lia).
  unfold s.
  replace (js "<!--" ++ body ++ js "-->" ++ after)
    with ((js "<!--" ++ body ++ js "-->") ++ after)
    by (now rewrite <- !app_assoc).
  now rewrite skipn_app_len.
Qed.

(** The closing marker of a rendered comment is the first [-->]. *)
Lemma find_comment_end (content after : jsstring) :
  find_sub (js "-->") content = None ->
  find_sub (js "-->") (js "<!--" ++ (32%N :: content ++ [32%N]) ++ js "-->" ++ after)
  = Some (4 + List.length (32%N :: content ++ [32%N]))%nat.
Proof.
  intros Hnone.
  replace (js "<!--" ++ (32%N :: content ++ [32%N]) ++ js "-->" ++ after)
    with (js "<!--" ++ 32%N :: (content ++ 32%N :: js "-->" ++ after))
    by (simpl; now rewrite <- !app_assoc).
  rewrite find_sub_barrier; [|vm_compute; intuition discriminate|reflexivity].
  rewrite find_sub_skip_char by reflexivity.
  rewrite find_sub_barrier; [|vm_compute; intuition discriminate|assumption].
  rewrite find_sub_skip_char by reflexivity.
  rewrite (find_sub_here (js "-->") (js "-->" ++ after)) by reflexivity.
  simpl. f_equal. rewrite length_app. simpl. lia.
Qed.

(** ** An element *)

Lemma node_nested_ind (P : node -> Prop) :
  (forall content, P (Text content)) ->
  (forall content, P (Comment content)) ->
  (forall tagName attributes children,
      Forall P children -> P (Element tagName attributes children)) ->
  forall n, P n.
Proof.
  intros HT HC HE. fix IH 1. intros [c|c|tagName attributes children].
  - apply HT.
  - apply HC.
  - apply HE. induction children as [|n l IHl]; constructor.
    + apply IH.
    + exact IHl.
Qed.

Lemma jsonToHtml_element (tagName : jsstring) (attributes : obj)
    (children : list node) :
  jsonToHtml_node (Element tagName attributes children)
  = 60%N :: (tagName ++ attrString attributes)
    ++ 62%N :: (if includes voidTags tagName then []
                else jsonToHtml children ++ js "</" ++ tagName ++ js ">").
Proof.
  cbn -[includes voidTags js app].
  assert (Hjoin : forall l,
             (fix join (l : list node) : list N :=
                match l with
                | [] => []
                | c :: l' => jsonToHtml_node c ++ join l'
                end) l = jsonToHtml l).
  { induction l as [|c l IH]; [reflexivity|]. simpl. now rewrite IH. }
  rewrite Hjoin. change (js "<" ++ ?x) with (60%N :: x). f_equal.
  rewrite <- app_assoc. f_equal. change (js ">" ++ ?x) with (62%N :: x). f_equal.
  destruct (includes voidTags tagName); [reflexivity|].
  reflexivity.
Qed.

Lemma substring_from_len (a b : jsstring) : substring_from (a ++ b) (len a) = b.
Proof.
  unfold substring_from.
  rewrite clamp_id by (rewrite len_app; pose proof (len_nonneg a); pose proof (len_nonneg b); lia).
  unfold len. rewrite Nat2Z.id.
  now rewrite skipn_app, skipn_all, Nat.sub_diag.
Qed.

Lemma canonical_children (children : list node) :
  (fix all (l : list node) : Prop :=
     match l with
     | [] => True
     | c :: l' => canonical c /\ all l'
     end) children
  <-> Forall canonical children.
Proof.
  induction children as [|c l IH]; split; intros H.
  - constructor.
  - exact I.
  - destruct H as [Hc Hl]. constructor; [exact Hc|now apply IH].
  - inversion H; subst. split; [assumption|now apply IH].
Qed.

Lemma jsonToHtml_cons (n : node) (l : list node) :
  jsonToHtml (n :: l) = jsonToHtml_node n ++ jsonToHtml l.
Proof. reflexivity. Qed.

(** ** Names without a value, and values without quotes *)

Lemma value_group_none_at_name (t : jsstring) :
  name_ok t -> value_group (61%N :: t) = None.
Proof.
  intros Ht. destruct (name_ok_head _ Ht) as (c & r & -> & Hc).
  unfold value_group. simpl.
  rewrite (name_char_not_ws _ Hc).
  unfold quoted. now rewrite (name_char_not c squote Hc), (name_char_not c dquote Hc).
Qed.

(** A name standing alone is matched once, without a value. *)
Lemma attr_matches_bare_name (k : jsstring) :
  name_ok k -> attr_matches k = [bare_match k].
Proof.
  intros Hk.
  assert (H : attr_match_here k = Some (bare_match k, List.length k)).
  { unfold attr_match_here.
    destruct (takeWhile_app_stop is_name_char k []) as [Ht Hd];
      [apply Hk|discriminate|].
    rewrite app_nil_r in Ht, Hd. rewrite Ht, Hd.
    destruct Hk as [Hne _]. destruct k; [contradiction|reflexivity]. }
  rewrite (attr_matches_match _ _ _ H). now rewrite skipn_all.
Qed.

(** In [k=t] the name [k] is matched without a value, and the unquoted
    token [t] as a name of its own, without a value. *)
Lemma attr_matches_unquoted (k t : jsstring) :
  name_ok k -> name_ok t ->
  attr_matches (k ++ js "=" ++ t) = [bare_match k; bare_match t].
Proof.
  intros Hk Ht.
  assert (H : attr_match_here (k ++ js "=" ++ t)
              = Some (bare_match k, List.length k)).
  { unfold attr_match_here.
    destruct (takeWhile_app_stop is_name_char k (js "=" ++ t)) as [Ht' Hd];
      [apply Hk|now intros c r [= <- _]|].
    rewrite Ht', Hd. change (js "=" ++ t) with (61%N :: t).
    rewrite (value_group_none_at_name t Ht).
    destruct Hk as [Hne _]. destruct k; [contradiction|reflexivity]. }
  rewrite (attr_matches_match _ _ _ H).
  rewrite skipn_app, skipn_all, Nat.sub_diag. simpl skipn. simpl app.
  rewrite attr_matches_skip by reflexivity.
  now rewrite attr_matches_bare_name.
Qed.

(** What [extractAttributes] makes of a bare name and of [k=t]: the
    assignments of the empty string, which store an entry under every key
    but [__proto__]. *)
Lemma extractAttributes_bare_name (k : jsstring) :
  name_ok k -> extractAttributes k = obj_set [] k [].
Proof.
  intros Hk. now rewrite extractAttributes_fold, attr_matches_bare_name.
Qed.

Lemma extractAttributes_unquoted (k t : jsstring) :
  name_ok k -> name_ok t ->
  extractAttributes (k ++ js "=" ++ t) = obj_set (obj_set [] k []) t [].
Proof.
  intros Hk Ht. now rewrite extractAttributes_fold, attr_matches_unquoted.
Qed.

Lemma obj_set_fresh (k v : jsstring) :
  k <> proto_key -> obj_set [] k v = [(k, v)].
Proof.
  intros Hk. unfold obj_set. apply jseq_neq in Hk. rewrite Hk. simpl.
  now destruct (array_index k).
Qed.

(** So a bare name other than [__proto__] yields the one-entry mapping of
    that name to the empty string, and [k=t] maps both names, when neither
    is [__proto__], to the empty string. *)
Lemma extractAttributes_bare_name_stored (k : jsstring) :
  name_ok k -> k <> proto_key -> extractAttributes k = [(k, [])].
Proof.
  intros Hk Hp. rewrite extractAttributes_bare_name by assumption.
  now apply obj_set_fresh.
Qed.

Lemma extractAttributes_unquoted_stored (k t : jsstring) :
  name_ok k -> name_ok t -> k <> proto_key -> t <> proto_key ->
  obj_get (extractAttributes (k ++ js "=" ++ t)) k = Some []
  /\ obj_get (extractAttributes (k ++ js "=" ++ t)) t = Some [].
Proof.
  intros Hk Ht Hpk Hpt. rewrite extractAttributes_unquoted by assumption.
  apply jseq_neq in Hpk, Hpt. rewrite !obj_get_set, Hpk, Hpt, !jseq_refl.
  split; [|reflexivity]. now destruct (jseq t k).
Qed.

Lemma quoted_shape (q : char) (s v : jsstring) (n : nat) :
  quoted q s = Some (v, n) -> exists post, s = q :: v ++ q :: post.
Proof.
  unfold quoted. destruct s as [|c s]; [discriminate|].
  destruct (N.eqb_spec c q) as [->|]; [|discriminate].
  pose proof (takeWhile_dropWhile (fun x => negb (N.eqb x q)) s) as Hs.
  destruct (dropWhile (fun x => negb (N.eqb x q)) s) as [|c' post] eqn:Hd;
    [discriminate|].
  intros [= <- _]. exists post. rewrite <- Hs at 1. do 2 f_equal.
  apply dropWhile_head in Hd as [Hc _].
  apply negb_false_iff, N.eqb_eq in Hc. now subst.
Qed.

Lemma value_group_shape (s : jsstring) g2 g3 (n : nat) :
  value_group s = Some (g2, g3, n) ->
  exists v, quoted_in v s
            /\ (g2 = Some v /\ g3 = None \/ g2 = None /\ g3 = Some v).
Proof.
  unfold value_group.
  pose proof (takeWhile_dropWhile is_ws s) as H1.
  destruct (dropWhile is_ws s) as [|c s1]; [discriminate|].
  destruct (N.eqb c 61); [|discriminate].
  pose proof (takeWhile_dropWhile is_ws s1) as H2.
  destruct (quoted squote (dropWhile is_ws s1)) as [[v m]|] eqn:Q1.
  - intros [= <- <- _]. exists v. split; [|now left].
    apply quoted_shape in Q1 as [post Hp]. rewrite Hp in H2.
    exists squote, (takeWhile is_ws s ++ c :: takeWhile is_ws s1), post.
    split; [now left|]. rewrite <- app_assoc. simpl. now rewrite H2, H1.
  - destruct (quoted dquote (dropWhile is_ws s1)) as [[v m]|] eqn:Q2;
      [|discriminate].
    intros [= <- <- _]. exists v. split; [|now right].
    apply quoted_shape in Q2 as [post Hp]. rewrite Hp in H2.
    exists dquote, (takeWhile is_ws s ++ c :: takeWhile is_ws s1), post.
    split; [now right|]. rewrite <- app_assoc. simpl. now rewrite H2, H1.
Qed.

Lemma attr_match_here_value (s : jsstring) (m : attr_match) (n : nat) :
  attr_match_here s = Some (m, n) ->
  match_value m = [] \/ quoted_in (match_value m) s.
Proof.
  unfold attr_match_here.
  pose proof (takeWhile_dropWhile is_name_char s) as Hs.
  destruct (takeWhile is_name_char s) as [|c name]; [discriminate|].
  destruct (value_group (dropWhile is_name_char s)) as [[[g2 g3] k]|] eqn:V.
  - intros [= <- _]. right.
    apply value_group_shape in V as (v & (q & pre & post & Hq & Hp) & Hg).
    assert (Hv : match_value {| group1 := c :: name; group2 := g2; group3 := g3 |} = v).
    { unfold match_value. simpl. destruct Hg as [[-> ->]|[-> ->]]; reflexivity. }
    rewrite Hv. exists q, ((c :: name) ++ pre), post. split; [exact Hq|].
    rewrite <- app_assoc, <- Hp. exact (eq_sym Hs).
  - intros [= <- _]. now left.
Qed.

Lemma quoted_in_suffix (v pre s : jsstring) :
  quoted_in v s -> quoted_in v (pre ++ s).
Proof.
  intros (q & p & post & Hq & ->). exists q, (pre ++ p), post.
  split; [exact Hq|]. now rewrite <- app_assoc.
Qed.

Lemma matches_skip_value (s : jsstring) : forall skip m,
  In m (matches_skip s skip) ->
  match_value m = [] \/ quoted_in (match_value m) s.
Proof.
  induction s as [|c s IH]; intros skip m Hin; [contradiction|].
  assert (Hrec : forall k, In m (matches_skip s k) ->
                           match_value m = [] \/ quoted_in (match_value m) (c :: s)).
  { intros k Hk. destruct (IH k m Hk) as [H|H]; [now left|right].
    now apply (quoted_in_suffix _ [c]). }
  simpl in Hin. destruct skip as [|k]; [|now apply (Hrec k)].
  destruct (attr_match_here (c :: s)) as [[m' n]|] eqn:E; [|now apply (Hrec 0%nat)].
  destruct Hin as [<-|Hin]; [|now apply (Hrec (n - 1)%nat)].
  now apply (attr_match_here_value _ _ _ E).
Qed.

(** Every match carries the empty string or a value written between
    quotes in the input: an unquoted value is never captured. *)
Lemma attr_matches_value (s : jsstring) (m : attr_match) :
  In m (attr_matches s) ->
  match_value m = [] \/ quoted_in (match_value m) s.
Proof. apply matches_skip_value. Qed.

Lemma last_value_in (k v : jsstring) (ms : list attr_match) :
  last_value k ms = Some v -> exists m, In m ms /\ match_value m = v.
Proof.
  induction ms as [|m ms IH] using rev_ind; [discriminate|].
  rewrite last_value_app. destruct (jseq (group1 m) k).
  - intros [= <-]. exists m. split; [|reflexivity]. apply in_or_app. right. now left.
  - intros H. destruct (IH H) as (m' & Hin & Hv). exists m'. split; [|exact Hv].
    apply in_or_app. now left.
Qed.

(** The values [extractAttributes] returns are empty or were quoted. *)
Lemma extractAttributes_values_quoted (s k v : jsstring) :
  obj_get (extractAttributes s) k = Some v -> v = [] \/ quoted_in v s.
Proof.
  rewrite extractAttributes_lookup. destruct (jseq k proto_key); [discriminate|].
  intros H. apply last_value_in in H as (m & Hin & <-).
  now apply attr_matches_value.
Qed.

(** ** Well-formed documents are read back *)

Lemma blank_no_lt (w : jsstring) : blank w -> ~ In 60%N w.
Proof.
  intros Hw Hin. unfold blank in Hw. rewrite forallb_forall in Hw.
  specialize (Hw _ Hin). discriminate.
Qed.

Lemma dropWhile_blank (w s : jsstring) :
  blank w -> dropWhile is_ws (w ++ s) = dropWhile is_ws s.
Proof.
  intros Hw. induction w as [|c w IH]; [reflexivity|].
  unfold blank in Hw. simpl in Hw. apply andb_true_iff in Hw as [Hc Hw].
  simpl. rewrite Hc. now apply IH.
Qed.

Lemma blank_rev (w : jsstring) : blank w -> blank (rev w).
Proof.
  unfold blank. rewrite !forallb_forall. intros H c Hc. apply H.
  now apply in_rev.
Qed.

Lemma dropWhile_all_blank (w : jsstring) : blank w -> dropWhile is_ws w = [].
Proof.
  intros Hw. rewrite <- (app_nil_r w). now rewrite dropWhile_blank.
Qed.

Lemma dropWhile_app_blank (s w : jsstring) :
  blank w ->
  dropWhile is_ws (s ++ w)
  = match dropWhile is_ws s with [] => [] | r => r ++ w end.
Proof.
  intros Hw. induction s as [|x s IH].
  - simpl. now apply dropWhile_all_blank.
  - simpl. destruct (is_ws x); [exact IH|reflexivity].
Qed.

(** Whitespace on either side does not change the trimming. *)
Lemma trim_blank_padded (w1 w2 s : jsstring) :
  blank w1 -> blank w2 -> trim (w1 ++ s ++ w2) = trim s.
Proof.
  intros H1 H2. unfold trim, trimStart. rewrite dropWhile_blank by assumption.
  rewrite dropWhile_app_blank by assumption. unfold trimEnd.
  destruct (dropWhile is_ws s) as [|c r]; [reflexivity|].
  rewrite rev_app_distr. now rewrite dropWhile_blank by now apply blank_rev.
Qed.

Lemma trim_blank (w : jsstring) : blank w -> trim w = [].
Proof.
  intros Hw. rewrite <- (app_nil_r w).
  change (w ++ []) with (w ++ [] ++ []).
  now rewrite trim_blank_padded.
Qed.

Lemma push_text_trimmed (content : jsstring) :
  text_ok content -> push_text [] (trim content) = [Text content].
Proof.
  intros (Hne & Htrim & _). rewrite Htrim. unfold push_text.
  replace (0 <? len content) with true; [reflexivity|].
  symmetry. apply Z.ltb_lt. destruct content; [contradiction|].
  unfold len. simpl. lia.
Qed.

Lemma padded_text_no_lt (content w1 w2 : jsstring) :
  text_ok content -> blank w1 -> blank w2 -> ~ In 60%N (w1 ++ content ++ w2).
Proof.
  intros (_ & _ & Hc) H1 H2 Hin. rewrite !in_app_iff in Hin.
  destruct Hin as [H|[H|H]]; [|contradiction|]; revert H; now apply blank_no_lt.
Qed.

Lemma markup_starts_with_lt (n : node) (m : jsstring) :
  markup n m -> exists r, m = 60%N :: r.
Proof. intros H. destruct H; eexists; reflexivity. Qed.

(** An occurrence found in a string is still the first when the string is
    extended. *)
Lemma starts_with_app_l (pat a b : jsstring) :
  starts_with pat a = true -> starts_with pat (a ++ b) = true.
Proof.
  intros H. apply starts_with_iff in H as [r ->]. rewrite <- app_assoc.
  apply starts_with_app.
Qed.

Lemma starts_with_within (pat a b : jsstring) :
  (List.length pat <= List.length a)%nat ->
  starts_with pat (a ++ b) = starts_with pat a.
Proof.
  revert a. induction pat as [|p pat IH]; intros a Hl; [reflexivity|].
  destruct a as [|c a]; [simpl in Hl; lia|].
  simpl. f_equal. apply IH. simpl in Hl. lia.
Qed.

Lemma find_sub_app_l (pat a b : jsstring) (p : nat) :
  find_sub pat a = Some p -> find_sub pat (a ++ b) = Some p.
Proof.
  intros H. apply find_sub_Some in H as (Hp & Hlen & Hfirst).
  apply find_sub_first.
  - rewrite skipn_app. replace (p - List.length a)%nat with 0%nat by lia.
    now apply starts_with_app_l.
  - intros q Hq. rewrite skipn_app.
    replace (q - List.length a)%nat with 0%nat by lia. simpl skipn.
    rewrite starts_with_within by (rewrite length_skipn; lia).
    now apply Hfirst.
Qed.

(** *** Opening tags *)

Lemma attr_match_here_no_name (c : char) (s : jsstring) :
  is_name_char c = false -> attr_match_here (c :: s) = None.
Proof. intros H. unfold attr_match_here. simpl. now rewrite H. Qed.

Lemma takeWhile_not_quote (q : char) (v tail : jsstring) :
  ~ In q v ->
  takeWhile (fun x => negb (N.eqb x q)) (v ++ q :: tail) = v
  /\ dropWhile (fun x => negb (N.eqb x q)) (v ++ q :: tail) = q :: tail.
Proof.
  intros Hv. apply takeWhile_app_stop.
  - apply forallb_forall. intros x Hx. apply negb_true_iff.
    apply N.eqb_neq. intros ->. contradiction.
  - intros c r [= <- _]. now rewrite N.eqb_refl.
Qed.

Lemma quoted_closed (q : char) (v tail : jsstring) :
  ~ In q v -> quoted q (q :: v ++ q :: tail) = Some (v, (List.length v + 2)%nat).
Proof.
  intros Hv. unfold quoted. rewrite N.eqb_refl.
  destruct (takeWhile_not_quote q v tail Hv) as [-> ->]. reflexivity.
Qed.

Lemma value_group_spaced (w1 w2 : jsstring) (q : char) (v tail : jsstring) :
  blank w1 -> blank w2 -> q = squote \/ q = dquote -> ~ In q v ->
  value_group (w1 ++ 61%N :: w2 ++ q :: v ++ q :: tail)
  = Some (if N.eqb q squote then Some v else None,
          if N.eqb q squote then None else Some v,
          (List.length w1 + 1 + List.length w2 + (List.length v + 2))%nat).
Proof.
  intros Hw1 Hw2 Hq Hv. unfold value_group.
  destruct (takeWhile_app_stop is_ws w1 (61%N :: w2 ++ q :: v ++ q :: tail))
    as [-> ->]; [exact Hw1|now intros c r [= <- _]|].
  cbn [N.eqb Pos.eqb].
  assert (Hqws : is_ws q = false) by (destruct Hq as [-> | ->]; reflexivity).
  destruct (takeWhile_app_stop is_ws w2 (q :: v ++ q :: tail))
    as [-> ->]; [exact Hw2|now intros c r [= <- _]|].
  destruct Hq as [-> | ->].
  - rewrite quoted_closed by assumption. reflexivity.
  - change (quoted squote (dquote :: v ++ dquote :: tail)) with (@None (jsstring * nat)).
    rewrite quoted_closed by assumption. reflexivity.
Qed.

Lemma takeWhile_blank (s : jsstring) : blank (takeWhile is_ws s).
Proof.
  induction s as [|c s IH]; [reflexivity|]. simpl.
  destruct (is_ws c) eqn:E; [|reflexivity].
  unfold blank. simpl. rewrite E. exact IH.
Qed.

Lemma attr_matches_blank (w s : jsstring) :
  blank w -> attr_matches (w ++ s) = attr_matches s.
Proof.
  intros Hw. induction w as [|c w IH]; [reflexivity|].
  unfold blank in Hw. simpl in Hw. apply andb_true_iff in Hw as [Hc Hw].
  simpl app. rewrite attr_matches_skip; [now apply IH|].
  apply attr_match_here_no_name.
  destruct (is_name_char c) eqn:E; [|reflexivity].
  apply name_char_not_ws in E. congruence.
Qed.

Lemma blank_head (w : jsstring) (c : char) (r : jsstring) :
  blank w -> w = c :: r -> is_ws c = true.
Proof. intros Hw ->. unfold blank in Hw. simpl in Hw. now apply andb_true_iff in Hw as [Hc _]. Qed.

(** A spelling of attributes that follows a name is empty or starts with
    whitespace; any spelling starts with whitespace or a name character. *)
Lemma spells_head (glued : bool) (attributes : obj) (a : jsstring) :
  spells_attributes glued attributes a ->
  forall c r, a = c :: r ->
    (glued = true -> is_ws c = true)
    /\ (is_ws c = true \/ is_name_char c = true).
Proof.
  intros H c r E. destruct H as [g|g k rest w s Hk Hw Hg _|g k v rest w w1 w2 s [Hk _] _ Hw Hg _ _ _].
  - discriminate.
  - destruct w as [|x w].
    + split; [intros G; now destruct (Hg G)|]. right.
      destruct (name_ok_head _ Hk) as (c0 & r0 & -> & Hc0). simpl in E. now injection E as <- _.
    + simpl in E. injection E as <- _. pose proof (blank_head _ _ _ Hw eq_refl) as Hx.
      split; [auto|now left].
  - simpl in Hk. destruct w as [|x w].
    + split; [intros G; now destruct (Hg G)|]. right.
      destruct (name_ok_head _ Hk) as (c0 & r0 & -> & Hc0). simpl in E. now injection E as <- _.
    + simpl in E. injection E as <- _. pose proof (blank_head _ _ _ Hw eq_refl) as Hx.
      split; [auto|now left].
Qed.

Lemma value_group_none_at (s : jsstring) :
  (forall c r, dropWhile is_ws s = c :: r -> N.eqb c 61 = false) ->
  value_group s = None.
Proof.
  intros H. unfold value_group. destruct (dropWhile is_ws s) as [|c r]; [reflexivity|].
  now rewrite (H c r eq_refl).
Qed.

Lemma spells_value_group (glued : bool) (attributes : obj) (a : jsstring) :
  spells_attributes glued attributes a -> value_group a = None.
Proof.
  intros H. apply value_group_none_at. intros c r E.
  assert (Hname : forall k s, name_ok k -> forall w, blank w ->
            dropWhile is_ws (w ++ k ++ s) = c :: r -> N.eqb c 61 = false).
  { intros k s Hk w Hw E'. rewrite dropWhile_blank in E' by assumption.
    destruct (name_ok_head _ Hk) as (c0 & r0 & -> & Hc0).
    simpl app in E'. rewrite dropWhile_stop in E' by now apply name_char_not_ws.
    injection E' as <- _. now apply name_char_not. }
  destruct H as [g|g k rest w s Hk Hw _ _|g k v rest w w1 w2 s [Hk _] _ Hw _ _ _ _].
  - discriminate.
  - exact (Hname k s Hk w Hw E).
  - simpl in Hk. exact (Hname k _ Hk w Hw E).
Qed.

Lemma fold_record_attr_to_match (attributes : obj) : forall o,
  fold_left record_match (map attr_to_match attributes) o
  = fold_left (fun o kv => obj_set o (fst kv) (snd kv)) attributes o.
Proof.
  induction attributes as [|[k v] rest IH]; intros o; [reflexivity|].
  simpl. rewrite IH. f_equal. unfold record_match, attr_to_match. simpl.
  destruct v; reflexivity.
Qed.

Lemma spells_attr_matches (glued : bool) (attributes : obj) (a : jsstring) :
  spells_attributes glued attributes a ->
  attr_matches a = map attr_to_match attributes.
Proof.
  induction 1 as [g|g k rest w s Hk Hw Hg Hs IH|g k v rest w w1 w2 s Hkv Hv Hw Hg Hw1 Hw2 Hs IH].
  - reflexivity.
  - rewrite attr_matches_blank by assumption.
    assert (Hstop : forall c r, s = c :: r -> is_name_char c = false).
    { intros c r E. destruct (spells_head _ _ _ Hs c r E) as [Hc _].
      specialize (Hc eq_refl). destruct (is_name_char c) eqn:En; [|reflexivity].
      apply name_char_not_ws in En. congruence. }
    destruct (takeWhile_app_stop is_name_char k s (proj2 Hk) Hstop) as [Ht Hd].
    assert (H : attr_match_here (k ++ s) = Some (bare_match k, List.length k)).
    { unfold attr_match_here. rewrite Ht, Hd, (spells_value_group _ _ _ Hs).
      destruct Hk as [Hne _]. destruct k; [contradiction|reflexivity]. }
    rewrite (attr_matches_match _ _ _ H).
    rewrite skipn_app, skipn_all, Nat.sub_diag. simpl. now rewrite IH.
  - rewrite attr_matches_blank by assumption.
    destruct Hkv as (Hk & Hq & _). simpl in Hk, Hq.
    set (tail := w1 ++ js "=" ++ w2 ++ [dquote] ++ v ++ [dquote] ++ s).
    assert (Hstop : forall c r, tail = c :: r -> is_name_char c = false).
    { unfold tail. intros c r E. destruct w1 as [|x w1].
      - now injection E as <- _.
      - injection E as <- _. pose proof (blank_head _ _ _ Hw1 eq_refl) as Hx.
        destruct (is_name_char x) eqn:En; [|reflexivity].
        apply name_char_not_ws in En. congruence. }
    destruct (takeWhile_app_stop is_name_char k tail (proj2 Hk) Hstop) as [Ht Hd].
    assert (H : attr_match_here (k ++ tail)
                = Some (attr_to_match (k, v),
                        (List.length k + (List.length w1 + 1 + List.length w2
                                          + (List.length v + 2)))%nat)).
    { unfold attr_match_here. rewrite Ht, Hd. unfold tail.
      change (w1 ++ js "=" ++ w2 ++ [dquote] ++ v ++ [dquote] ++ s)
        with (w1 ++ 61%N :: w2 ++ dquote :: v ++ dquote :: s).
      rewrite (value_group_spaced w1 w2 dquote v s Hw1 Hw2 (or_intror eq_refl) Hq).
      destruct Hk as [Hne _]. destruct k as [|c k]; [contradiction|].
      unfold attr_to_match. simpl fst. simpl snd.
      destruct v as [|x v]; [contradiction|]. reflexivity. }
    rewrite (attr_matches_match _ _ _ H). cbn [map]. f_equal. rewrite <- IH. f_equal.
    unfold tail.
    replace (k ++ w1 ++ js "=" ++ w2 ++ [dquote] ++ v ++ [dquote] ++ s)
      with ((k ++ w1 ++ js "=" ++ w2 ++ [dquote] ++ v ++ [dquote]) ++ s)
      by (now rewrite <- !app_assoc).
    replace (List.length k + (List.length w1 + 1 + List.length w2 + (List.length v + 2)))%nat
      with (List.length (k ++ w1 ++ js "=" ++ w2 ++ [dquote] ++ v ++ [dquote]) + 0)%nat
      by (repeat (rewrite !length_app; cbn [List.length]); change (List.length (js "=")) with 1%nat; lia).
    apply skipn_app_len.
Qed.

Lemma blank_not_in (w : jsstring) (x : char) : blank w -> is_ws x = false -> ~ In x w.
Proof.
  intros Hw Hx Hin. unfold blank in Hw. rewrite forallb_forall in Hw.
  rewrite (Hw _ Hin) in Hx. discriminate.
Qed.

Lemma spells_no_gt (glued : bool) (attributes : obj) (a : jsstring) :
  spells_attributes glued attributes a -> ~ In 62%N a.
Proof.
  induction 1 as [g|g k rest w s Hk Hw Hg Hs IH|g k v rest w w1 w2 s Hkv Hv Hw Hg Hw1 Hw2 Hs IH].
  - intros [].
  - rewrite !in_app_iff. intros [H|[H|H]]; [|clear IH|contradiction].
    + now apply (blank_not_in w 62%N Hw).
    + now apply (name_ok_not_in k 62%N Hk).
  - destruct Hkv as (Hk & _ & Hgt). simpl in Hk, Hgt.
    change (js "=") with [61%N]. rewrite !in_app_iff.
    intros [H|[H|[H|[H|[H|[H|[H|[H|H]]]]]]]].
    + now apply (blank_not_in w 62%N Hw).
    + now apply (name_ok_not_in k 62%N Hk).
    + now apply (blank_not_in w1 62%N Hw1).
    + destruct H as [H|[]]. discriminate.
    + now apply (blank_not_in w2 62%N Hw2).
    + destruct H as [H|[]]. discriminate.
    + contradiction.
    + destruct H as [H|[]]. discriminate.
    + contradiction.
Qed.

Lemma ends_in_app (a b : jsstring) :
  ends_in_name_or_quote b -> ends_in_name_or_quote (a ++ b).
Proof.
  intros (d & r & Hr & Hd). exists d, (r ++ rev a). split; [|exact Hd].
  now rewrite rev_app_distr, Hr.
Qed.

Lemma name_ends (k : jsstring) : name_ok k -> ends_in_name_or_quote k.
Proof.
  intros Hk. destruct (name_ok_last _ Hk) as (d & r & Hr & Hd).
  exists d, r. split; [exact Hr|now left].
Qed.

Lemma spells_last (glued : bool) (attributes : obj) (a : jsstring) :
  spells_attributes glued attributes a -> a <> [] -> ends_in_name_or_quote a.
Proof.
  induction 1 as [g|g k rest w s Hk Hw Hg Hs IH|g k v rest w w1 w2 s Hkv Hv Hw Hg Hw1 Hw2 Hs IH];
    intros Hne.
  - contradiction.
  - apply ends_in_app. destruct s as [|c s].
    + rewrite app_nil_r. now apply name_ends.
    + apply ends_in_app. apply IH. discriminate.
  - rewrite !app_assoc. destruct s as [|c s].
    + rewrite app_nil_r. apply ends_in_app. exists dquote, []. split; [reflexivity|now right].
    + apply ends_in_app. apply IH. discriminate.
Qed.

Lemma trim_keeps_end (a : jsstring) :
  ends_in_name_or_quote a -> trim a = dropWhile is_ws a.
Proof.
  intros Ha. apply ends_ok_not_ws in Ha as (d & r & Hr & Hd & _).
  unfold trim, trimStart.
  pose proof (takeWhile_dropWhile is_ws a) as E.
  destruct (rev (dropWhile is_ws a)) as [|d' r'] eqn:Er.
  - apply (f_equal (@rev N)) in Er. rewrite rev_involutive in Er. simpl in Er.
    rewrite Er, app_nil_r in E.
    pose proof (takeWhile_blank a) as Hb. rewrite E in Hb.
    exfalso. apply (blank_not_in a d Hb Hd). apply in_rev. rewrite Hr. now left.
  - apply (trimEnd_fixed _ d' r' Er).
    rewrite <- E, rev_app_distr, Er in Hr. simpl in Hr. now injection Hr as -> _.
Qed.

Lemma attr_matches_trim (a : jsstring) :
  ends_in_name_or_quote a -> attr_matches (trim a) = attr_matches a.
Proof.
  intros Ha. rewrite (trim_keeps_end _ Ha).
  rewrite <- (takeWhile_dropWhile is_ws a) at 2.
  now rewrite attr_matches_blank by apply takeWhile_blank.
Qed.

Lemma spells_extractAttributes (attributes : obj) (a : jsstring) :
  attributes_ok attributes -> spells_attributes true attributes a ->
  extractAttributes (trim a) = attributes.
Proof.
  intros [_ Hfold] Hs. rewrite extractAttributes_fold.
  assert (Hm : attr_matches (trim a) = map attr_to_match attributes).
  { destruct a as [|c a'] eqn:Ea.
    - now rewrite <- (spells_attr_matches _ _ _ Hs).
    - rewrite <- Ea in *. rewrite attr_matches_trim.
      + now apply (spells_attr_matches true).
      + apply (spells_last true attributes); [exact Hs|]. rewrite Ea. discriminate. }
  rewrite Hm, fold_record_attr_to_match. exact Hfold.
Qed.

(** What an opening tag gives when it is read. *)
Lemma opening_tag_read (tagName : jsstring) (attributes : obj) (t : jsstring) :
  name_ok tagName -> toLowerCase tagName = tagName ->
  attributes_ok attributes ->
  opening_tag tagName attributes t ->
  ~ In 62%N t
  /\ tagNameMatch (trim t) = Some tagName
  /\ extractAttributes (trim (substring_from (trim t) (len (toLowerCase tagName))))
     = attributes
  /\ endsWith (trim t) (js "/") = false.
Proof.
  intros Ht Hlow Hattrs [w0 a w1 Hw0 Hs Hw1].
  assert (Hend : ends_in_name_or_quote (tagName ++ a)).
  { destruct a as [|c a'] eqn:Ea.
    - rewrite app_nil_r. now apply name_ends.
    - rewrite <- Ea in *. apply ends_in_app.
      apply (spells_last true attributes); [exact Hs|]. rewrite Ea. discriminate. }
  assert (Htrim : trim (w0 ++ tagName ++ a ++ w1) = tagName ++ a).
  { replace (w0 ++ tagName ++ a ++ w1) with (w0 ++ (tagName ++ a) ++ w1)
      by (now rewrite <- !app_assoc).
    rewrite trim_blank_padded by assumption.
    rewrite (trim_keeps_end _ Hend).
    destruct (name_ok_head _ Ht) as (c & k & -> & Hc).
    simpl app. apply dropWhile_stop. now apply name_char_not_ws. }
  rewrite Htrim. split; [|split; [|split]].
  - rewrite !in_app_iff. intros [H|[H|[H|H]]].
    + now apply (blank_not_in w0 62%N Hw0).
    + now apply (name_ok_not_in tagName 62%N Ht).
    + now apply (spells_no_gt _ _ _ Hs).
    + now apply (blank_not_in w1 62%N Hw1).
  - unfold tagNameMatch.
    destruct (takeWhile_app_stop is_name_char tagName a) as [-> _].
    + apply Ht.
    + intros c r E. destruct (spells_head _ _ _ Hs c r E) as [Hc _].
      specialize (Hc eq_refl). destruct (is_name_char c) eqn:En; [|reflexivity].
      apply name_char_not_ws in En. congruence.
    + destruct Ht as [Hne _]. destruct tagName; [contradiction|reflexivity].
  - rewrite Hlow, substring_from_len. now apply spells_extractAttributes.
  - apply ends_ok_not_ws in Hend as (d & r & Hr & _ & Hd).
    unfold endsWith. rewrite Hr. change (rev (js "/")) with [47%N].
    cbn [starts_with]. destruct (N.eqb_spec 47 d); [congruence|reflexivity].
Qed.

(** The rendering of attributes is a spelling of them. *)
Lemma spells_attrString (attributes : obj) :
  Forall attr_ok attributes ->
  forall glued, spells_attributes glued attributes (attrString attributes).
Proof.
  induction 1 as [|[k v] rest Hkv _ IH]; intros glued; [constructor|].
  rewrite attrString_cons. change (32%N :: k ++ attr_value_part v ++ attrString rest)
    with ([32%N] ++ k ++ attr_value_part v ++ attrString rest).
  destruct v as [|x v].
  - apply spells_bare; [apply Hkv|reflexivity|discriminate|apply IH].
  - unfold attr_value_part. rewrite <- !app_assoc.
    apply (spells_valued glued k (x :: v) rest [32%N] [] []);
      try reflexivity; try discriminate; [exact Hkv|apply IH].
Qed.

Lemma opening_tag_rendered (tagName : jsstring) (attributes : obj) :
  Forall attr_ok attributes ->
  opening_tag tagName attributes (tagName ++ attrString attributes).
Proof.
  intros Hok.
  pose proof (opening_tag_intro tagName attributes [] (attrString attributes) []
                eq_refl (spells_attrString _ Hok true) eq_refl) as H.
  now rewrite app_nil_r in H.
Qed.

Lemma name_ok_script : name_ok (js "script").
Proof. split; [discriminate|reflexivity]. Qed.

Lemma end_tag_found (tagName inner after : jsstring) :
  name_ok tagName ->
  find_sub (js "</" ++ tagName ++ js ">") inner = None ->
  find_sub (js "</" ++ tagName ++ js ">")
    ((inner ++ js "</" ++ tagName ++ js ">") ++ after)
  = Some (List.length inner)
  /\ firstn (List.length inner)
       ((inner ++ js "</" ++ tagName ++ js ">") ++ after) = inner
  /\ skipn (List.length inner + List.length (js "</" ++ tagName ++ js ">"))
       ((inner ++ js "</" ++ tagName ++ js ">") ++ after) = after.
Proof.
  intros Ht Hnone. set (endTag := js "</" ++ tagName ++ js ">") in *.
  split; [|split].
  - rewrite <- app_assoc. apply find_sub_after; [|discriminate|exact Hnone].
    unfold endTag. simpl. intros [H|H]; [discriminate|].
    apply in_app_or in H. destruct H as [H|H].
    + now apply (name_ok_not_in tagName 60%N Ht).
    + simpl in H. destruct H as [H|[]]. discriminate.
  - rewrite <- app_assoc, firstn_app, firstn_all, Nat.sub_diag. simpl.
    apply app_nil_r.
  - rewrite <- length_app. now rewrite skipn_app, skipn_all, Nat.sub_diag.
Qed.

Lemma tag_app_after (t b after : jsstring) :
  (60%N :: t ++ 62%N :: b) ++ after = 60%N :: t ++ 62%N :: (b ++ after).
Proof. cbn [app]. now rewrite <- app_assoc. Qed.

Lemma htmlToJson_renders :
  (forall nodes x, renders nodes x -> htmlToJson x = nodes)
  /\ (forall n m, markup n m ->
        forall after, htmlToJson (m ++ after) = n :: htmlToJson after).
Proof.
  apply renders_markup_ind.
  - (* blank *)
    intros w Hw. rewrite htmlToJson_text_only by now apply blank_no_lt.
    now rewrite trim_blank.
  - (* one text *)
    intros content w1 w2 Hc H1 H2.
    rewrite htmlToJson_text_only by now apply padded_text_no_lt.
    rewrite trim_blank_padded by assumption. now apply push_text_trimmed.
  - (* markup first *)
    intros n m l x w Hw Hm IHm _ IHl.
    destruct (markup_starts_with_lt _ _ Hm) as [r ->].
    simpl app. rewrite htmlToJson_text_prefix by now apply blank_no_lt.
    rewrite trim_blank by assumption.
    change (60%N :: r ++ x) with ((60%N :: r) ++ x).
    now rewrite IHm, IHl.
  - (* text, then markup *)
    intros content w1 w2 n m l x Hc H1 H2 Hm IHm _ IHl.
    destruct (markup_starts_with_lt _ _ Hm) as [r ->].
    replace (w1 ++ content ++ w2 ++ (60%N :: r) ++ x)
      with ((w1 ++ content ++ w2) ++ 60%N :: (r ++ x))
      by (now rewrite <- !app_assoc).
    rewrite htmlToJson_text_prefix by now apply padded_text_no_lt.
    rewrite trim_blank_padded, push_text_trimmed by assumption.
    change (60%N :: r ++ x) with ((60%N :: r) ++ x).
    now rewrite IHm, IHl.
  - (* comment *)
    intros body Hfind after. rewrite <- !app_assoc.
    apply htmlToJson_comment.
    rewrite !app_assoc. apply find_sub_app_l. now rewrite <- !app_assoc.
  - (* self-closing name *)
    intros tagName attributes t Ht Hlow Hattrs Hvoid Htag after.
    destruct (opening_tag_read _ _ _ Ht Hlow Hattrs Htag) as (Hgt & Hname & Hex & Hsl).
    rewrite (tag_app_after _ [] after).
    rewrite (htmlToJson_open_tag _ _ tagName Hgt Hname). cbv zeta.
    now rewrite Hex, Hlow, Hvoid, orb_true_r.
  - (* script *)
    intros attributes t inner Hattrs Htag Hnone after.
    destruct (opening_tag_read _ _ _ name_ok_script eq_refl Hattrs Htag)
      as (Hgt & Hname & Hex & Hsl).
    destruct (end_tag_found (js "script") inner after name_ok_script Hnone)
      as (Hfind & Hinner & Hafter).
    rewrite tag_app_after.
    rewrite (htmlToJson_open_tag _ _ (js "script") Hgt Hname). cbv zeta.
    rewrite Hex, Hsl.
    change (toLowerCase (js "script")) with (js "script").
    change (includes voidTags (js "script")) with false.
    change (jseq (js "script") (js "script")) with true.
    rewrite orb_false_l. cbv iota.
    change (js "</" ++ js "script" ++ js ">") with (js "</script>") in *.
    now rewrite Hfind, Hinner, Hafter.
  - (* element *)
    intros tagName attributes children t inner Ht Hlow Hattrs Hvoid Hscript
      Htag Hnone _ IHch after.
    destruct (opening_tag_read _ _ _ Ht Hlow Hattrs Htag) as (Hgt & Hname & Hex & Hsl).
    destruct (end_tag_found tagName inner after Ht Hnone)
      as (Hfind & Hinner & Hafter).
    rewrite tag_app_after.
    rewrite (htmlToJson_open_tag _ _ tagName Hgt Hname). cbv zeta.
    rewrite Hex, Hsl, Hlow, Hvoid, Hscript. rewrite orb_false_l. cbv iota.
    now rewrite Hfind, Hinner, Hafter, IHch.
Qed.

(** ** Canonical documents are well formed *)

Lemma blank_nil : blank [].
Proof. reflexivity. Qed.

Lemma canonical_markup (n : node) :
  canonical n ->
  match n with
  | Text _ => True
  | Comment _ => markup n (jsonToHtml_node n)
  | Element _ _ children =>
      (canonical_document children -> renders children (jsonToHtml children)) ->
      markup n (jsonToHtml_node n)
  end.
Proof.
  destruct n as [content|content|tagName attributes children]; intros Hcan.
  - exact I.
  - destruct Hcan as [Htrim Hnone].
    pose proof (markup_comment (32%N :: content ++ [32%N])) as H.
    rewrite trim_padded in H by assumption.
    replace (jsonToHtml_node (Comment content))
      with (js "<!--" ++ (32%N :: content ++ [32%N]) ++ js "-->")
      by (simpl; now rewrite <- !app_assoc).
    apply H.
    pose proof (find_comment_end content [] Hnone) as Hf.
    now rewrite !app_nil_r in Hf.
  - intros Hch. destruct Hcan as (Ht & Hlow & Hattrs & Hc).
    rewrite jsonToHtml_element.
    destruct (includes voidTags tagName) eqn:Hvoid.
    + subst children. apply markup_void; try assumption.
      apply opening_tag_rendered, Hattrs.
    + destruct Hc as [Hnone Hc].
      destruct (jseq tagName (js "script")) eqn:Hscript.
      * apply jseq_eq in Hscript. subst tagName.
        pose proof (markup_script attributes _ (jsonToHtml children) Hattrs
                      (opening_tag_rendered (js "script") attributes (proj1 Hattrs))
                      Hnone) as H.
        destruct Hc as [->|(content & -> & Hne)].
        -- exact H.
        -- simpl jsonToHtml in *. rewrite app_nil_r in *.
           replace (0 <? len (trim content)) with true in H; [exact H|].
           symmetry. apply Z.ltb_lt. destruct (trim content); [contradiction|].
           unfold len. simpl. lia.
      * apply markup_element; try assumption.
        { apply opening_tag_rendered, Hattrs. }
        apply Hch. destruct Hc as [Hadj Hall]. split; [exact Hadj|].
        now apply canonical_children.
Qed.

Lemma canonical_renders_list (l : list node) :
  Forall (fun n => canonical n ->
                   match n with
                   | Text _ => True
                   | _ => markup n (jsonToHtml_node n)
                   end) l ->
  (canonical_document l -> renders l (jsonToHtml l))
  /\ (forall content, text_ok content -> no_text_after (Text content) l ->
        canonical_document l ->
        renders (Text content :: l) (content ++ jsonToHtml l)).
Proof.
  induction 1 as [|n l Hn _ [IH1 IH2]].
  - split.
    + intros _. apply renders_blank, blank_nil.
    + intros content Hc _ _.
      apply (renders_text content [] [] Hc blank_nil blank_nil).
  - assert (Htail : canonical_document (n :: l) -> canonical_document l).
    { intros [Hadj Hcan]. split; [|now inversion Hcan].
      destruct n; try exact Hadj. destruct l as [|[]]; try exact Hadj.
      contradiction. }
    split.
    + intros Hdoc. pose proof (Htail Hdoc) as Hl.
      destruct Hdoc as [Hadj Hcan]. inversion Hcan as [|? ? Hcn Hcl]; subst.
      specialize (Hn Hcn). destruct n as [content| |].
      * apply IH2; [exact Hcn| |exact Hl].
        destruct l as [|[]]; try exact I. exact Hadj.
      * apply (renders_markup _ _ l _ [] blank_nil Hn (IH1 Hl)).
      * apply (renders_markup _ _ l _ [] blank_nil Hn (IH1 Hl)).
    + intros content Hc Hnt Hdoc. pose proof (Htail Hdoc) as Hl.
      destruct Hdoc as [Hadj Hcan]. inversion Hcan as [|? ? Hcn Hcl]; subst.
      specialize (Hn Hcn). destruct n as [c0| |]; [contradiction| |].
      * apply (renders_text_markup content [] [] _ _ l _ Hc blank_nil blank_nil
                 Hn (IH1 Hl)).
      * apply (renders_text_markup content [] [] _ _ l _ Hc blank_nil blank_nil
                 Hn (IH1 Hl)).
Qed.

Lemma canonical_renders (nodes : list node) :
  canonical_document nodes -> renders nodes (jsonToHtml nodes).
Proof.
  apply canonical_renders_list. apply Forall_forall. intros n _. revert n.
  induction n as [content|content|tagName attributes children IH]
    using node_nested_ind; intros Hcan.
  - exact I.
  - exact (canonical_markup _ Hcan).
  - apply (canonical_markup _ Hcan). now apply canonical_renders_list.
Qed.

(** The rendering of canonical nodes is read back as these nodes. *)
Lemma htmlToJson_jsonToHtml (nodes : list node) :
  canonical_document nodes -> htmlToJson (jsonToHtml nodes) = nodes.
Proof.
  intros H. apply (proj1 htmlToJson_renders). now apply canonical_renders.
Qed.

(** ** Whitespace deleted *)

Lemma strip_ws_app (a b : jsstring) : strip_ws (a ++ b) = strip_ws a ++ strip_ws b.
Proof. apply filter_app. Qed.

Lemma strip_ws_blank (w : jsstring) : blank w -> strip_ws w = [].
Proof.
  intros Hw. induction w as [|c w IH]; [reflexivity|].
  unfold blank in Hw. simpl in Hw. apply andb_true_iff in Hw as [Hc Hw].
  simpl. rewrite Hc. simpl. now apply IH.
Qed.

Lemma strip_ws_trim (s : jsstring) : strip_ws (trim s) = strip_ws s.
Proof.
  unfold trim, trimStart, trimEnd.
  rewrite <- (takeWhile_dropWhile is_ws s) at 2.
  rewrite strip_ws_app, (strip_ws_blank _ (takeWhile_blank s)). simpl.
  set (u := dropWhile is_ws s).
  rewrite <- (rev_involutive u) at 2.
  rewrite <- (takeWhile_dropWhile is_ws (rev u)) at 2.
  rewrite rev_app_distr, strip_ws_app.
  rewrite (strip_ws_blank (rev (takeWhile is_ws (rev u)))).
  - now rewrite app_nil_r.
  - apply blank_rev, takeWhile_blank.
Qed.

Lemma strip_ws_tag (t b : jsstring) :
  strip_ws (60%N :: t ++ 62%N :: b) = 60%N :: strip_ws t ++ 62%N :: strip_ws b.
Proof.
  change (60%N :: t ++ 62%N :: b) with ([60%N] ++ t ++ [62%N] ++ b).
  now rewrite !strip_ws_app.
Qed.

Lemma spells_strip_ws (glued : bool) (attributes : obj) (a : jsstring) :
  spells_attributes glued attributes a ->
  strip_ws a = strip_ws (attrString attributes).
Proof.
  induction 1 as [g|g k rest w s Hk Hw Hg Hs IH|g k v rest w w1 w2 s Hkv Hv Hw Hg Hw1 Hw2 Hs IH].
  - reflexivity.
  - rewrite attrString_cons. change (32%N :: k ++ attr_value_part [] ++ attrString rest)
      with ([32%N] ++ k ++ attrString rest).
    rewrite !strip_ws_app, (strip_ws_blank w Hw), IH. reflexivity.
  - rewrite attrString_cons. destruct v as [|x v]; [contradiction|].
    unfold attr_value_part.
    change (32%N :: ?y) with ([32%N] ++ y).
    rewrite !strip_ws_app, (strip_ws_blank w Hw), (strip_ws_blank w1 Hw1),
      (strip_ws_blank w2 Hw2), IH.
    cbn [app]. now rewrite <- !app_assoc.
Qed.

Lemma opening_tag_strip_ws (tagName : jsstring) (attributes : obj) (t : jsstring) :
  opening_tag tagName attributes t ->
  strip_ws t = strip_ws (tagName ++ attrString attributes).
Proof.
  intros [w0 a w1 Hw0 Hs Hw1].
  rewrite !strip_ws_app, (strip_ws_blank w0 Hw0), (strip_ws_blank w1 Hw1),
    (spells_strip_ws _ _ _ Hs).
  now rewrite app_nil_r.
Qed.

Lemma strip_ws_renders :
  (forall nodes x, renders nodes x -> strip_ws x = strip_ws (jsonToHtml nodes))
  /\ (forall n m, markup n m -> strip_ws m = strip_ws (jsonToHtml_node n)).
Proof.
  apply renders_markup_ind.
  - intros w Hw. now apply strip_ws_blank.
  - intros content w1 w2 _ H1 H2. simpl jsonToHtml.
    rewrite !strip_ws_app, (strip_ws_blank w1), (strip_ws_blank w2) by assumption.
    reflexivity.
  - intros n m l x w Hw _ IHm _ IHl. rewrite jsonToHtml_cons.
    now rewrite !strip_ws_app, (strip_ws_blank w), IHm, IHl by assumption.
  - intros content w1 w2 n m l x _ H1 H2 _ IHm _ IHl.
    rewrite !jsonToHtml_cons. simpl jsonToHtml_node at 1.
    rewrite !strip_ws_app, (strip_ws_blank w1), (strip_ws_blank w2), IHm, IHl
      by assumption.
    reflexivity.
  - intros body _.
    change (jsonToHtml_node (Comment (trim body)))
      with (js "<!-- " ++ trim body ++ js " -->").
    now rewrite !strip_ws_app, strip_ws_trim.
  - intros tagName attributes t _ _ _ Hvoid Htag.
    rewrite jsonToHtml_element, Hvoid.
    rewrite !strip_ws_tag. now rewrite (opening_tag_strip_ws _ _ _ Htag).
  - intros attributes t inner _ Htag _. rewrite jsonToHtml_element.
    change (includes voidTags (js "script")) with false. cbv iota.
    rewrite !strip_ws_tag, (opening_tag_strip_ws _ _ _ Htag). do 3 f_equal.
    destruct (0 <? len (trim inner)) eqn:E.
    + simpl jsonToHtml. now rewrite app_nil_r.
    + assert (Hb : strip_ws inner = []).
      { rewrite <- strip_ws_trim. apply Z.ltb_ge in E.
        destruct (trim inner); [reflexivity|]. unfold len in E. simpl in E. lia. }
      simpl jsonToHtml. now rewrite !strip_ws_app, Hb.
  - intros tagName attributes children t inner _ _ _ Hvoid _ Htag _ _ IH.
    rewrite jsonToHtml_element, Hvoid.
    rewrite !strip_ws_tag, (opening_tag_strip_ws _ _ _ Htag).
    now rewrite !strip_ws_app, IH.
Qed.

(** ** Round trip *)

(** C1, as the claim has it, fails: the blanks inside [<p> a </p>] are
    trimmed away by [htmlToJson] and [jsonToHtml] does not put them back,
    while collapsing runs of whitespace keeps one blank on each side. *)
Lemma round_trip_drops_whitespace_at_tags :
  htmlToJson (js "<p> a </p>") = [Element (js "p") [] [Text (js "a")]]
  /\ normalize (jsonToHtml (htmlToJson (js "<p> a </p>"))) = js "<p>a</p>"
  /\ normalize (js "<p> a </p>") = js "<p> a </p>"
  /\ normalize (jsonToHtml (htmlToJson (js "<p> a </p>")))
     <> normalize (js "<p> a </p>").
Proof. vm_compute. repeat split. discriminate. Qed.

(** Whitespace between two elements is lost in the same way. *)
Example round_trip_drops_whitespace_between_elements :
  normalize (jsonToHtml (htmlToJson (js "<p>a</p> <b>c</b>")))
  = js "<p>a</p><b>c</b>".
Proof. vm_compute. reflexivity. Qed.

(** The quotes of the source are not kept: single quotes come back as
    double quotes, with or without whitespace. *)
Example round_trip_changes_quotes :
  jsonToHtml (htmlToJson (js "<p id='x'>a</p>"))
  = js "<p id=" ++ [dquote] ++ js "x" ++ [dquote] ++ js ">a</p>".
Proof. vm_compute. reflexivity. Qed.

(** A comment gets one blank on either side. *)
Example round_trip_pads_comment :
  jsonToHtml (htmlToJson (js "<!--note-->")) = js "<!-- note -->".
Proof. vm_compute. reflexivity. Qed.

(** Whitespace inside an opening tag comes back as one blank before
    each attribute; where the document has whitespace there and nowhere
    else, collapsing the runs makes the two agree. *)
Example round_trip_collapses_whitespace_in_tags :
  jsonToHtml (htmlToJson (js "<p  id = " ++ [dquote] ++ js "x" ++ [dquote]
                          ++ js "  hidden >a</p>"))
  = js "<p id=" ++ [dquote] ++ js "x" ++ [dquote] ++ js " hidden>a</p>"
  /\ normalize (jsonToHtml (htmlToJson (js "<p  id=" ++ [dquote] ++ js "x"
                                        ++ [dquote] ++ js ">a</p>")))
     = normalize (js "<p  id=" ++ [dquote] ++ js "x" ++ [dquote] ++ js ">a</p>").
Proof. vm_compute. split; reflexivity. Qed.

(** An attribute named [__proto__] does not come back, and an attribute
    whose name is an integer comes back in front of the others. *)
Example round_trip_drops_proto_attribute :
  jsonToHtml (htmlToJson (js "<p __proto__=" ++ [dquote] ++ js "x" ++ [dquote]
                          ++ js ">a</p>"))
  = js "<p>a</p>"
  /\ jsonToHtml (htmlToJson (js "<p b 1>a</p>")) = js "<p 1 b>a</p>".
Proof. vm_compute. split; reflexivity. Qed.

(** C1, amended.  A well-formed document [x] spells a sequence of nodes
    in the markup [jsonToHtml] writes: lower-case tag names; attributes
    written [name="value"], or as the name alone when the value is
    empty, with values free of double quote and [>], and such that
    assigning them one after the other to an empty object leaves them as
    they are written (no name twice, no name [__proto__], no integer
    name behind another name or behind a larger integer); nothing under
    a self-closing name; no element whose content contains its own
    closing tag; raw content under [script]; texts without [<].  It may
    have any whitespace around texts, between nodes, inside the comment
    delimiters and inside an opening tag: before the name, before each
    attribute, around the equals sign and before the closing [>].  For
    such an [x], [htmlToJson x] is the sequence of nodes, [jsonToHtml
    (htmlToJson x)] is the rendering of these nodes, in which of all
    that whitespace one blank before each attribute and one inside each
    comment delimiter is left, and the two documents agree once all
    whitespace is deleted; they agree after runs of whitespace are
    collapsed and the ends trimmed exactly when [x] so agrees with the
    rendering of its nodes.  When [x] is itself the rendering of
    canonical nodes, [jsonToHtml (htmlToJson x)] is [x], so also after
    runs of whitespace are collapsed and the ends trimmed. *)
Theorem round_trip_well_formed :
  (forall nodes x,
      renders nodes x ->
      htmlToJson x = nodes
      /\ jsonToHtml (htmlToJson x) = jsonToHtml nodes
      /\ strip_ws (jsonToHtml (htmlToJson x)) = strip_ws x
      /\ (normalize (jsonToHtml (htmlToJson x)) = normalize x
          <-> normalize (jsonToHtml nodes) = normalize x))
  /\ (forall nodes,
         canonical_document nodes ->
         renders nodes (jsonToHtml nodes)
         /\ jsonToHtml (htmlToJson (jsonToHtml nodes)) = jsonToHtml nodes
         /\ normalize (jsonToHtml (htmlToJson (jsonToHtml nodes)))
            = normalize (jsonToHtml nodes)).
Proof.
  split.
  - intros nodes x H.
    pose proof (proj1 htmlToJson_renders nodes x H) as E. rewrite E.
    split; [reflexivity|]. split; [reflexivity|]. split; [|reflexivity].
    symmetry. now apply (proj1 strip_ws_renders).
  - intros nodes H. rewrite (htmlToJson_jsonToHtml nodes H).
    repeat split. now apply canonical_renders.
Qed.

Lemma round_trip_well_formed_witness :
  let div :=
    Element (js "div") [(js "id", js "main"); (js "hidden", [])]
      [Text (js "a  b"); Element (js "br") [] [];
       Element (js "p") [] [Text (js "hi")]] in
  let x :=
    js " <!--note-->< div  id = " ++ [dquote] ++ js "main" ++ [dquote]
    ++ js "hidden > a  b <br > <p>hi</p> </div> " in
  (htmlToJson x = [Comment (js "note"); div]
   /\ jsonToHtml (htmlToJson x) = jsonToHtml [Comment (js "note"); div]
   /\ strip_ws (jsonToHtml (htmlToJson x)) = strip_ws x
   /\ (normalize (jsonToHtml (htmlToJson x)) = normalize x
       <-> normalize (jsonToHtml [Comment (js "note"); div]) = normalize x))
  /\ (renders [div] (jsonToHtml [div])
      /\ jsonToHtml (htmlToJson (jsonToHtml [div])) = jsonToHtml [div]
      /\ normalize (jsonToHtml (htmlToJson (jsonToHtml [div])))
         = normalize (jsonToHtml [div])).
Proof.
  intros div x.
  assert (Hname : forall k, k <> [] -> forallb is_name_char k = true -> name_ok k)
    by (intros k H1 H2; now split).
  assert (Hattrs : attributes_ok [(js "id", js "main"); (js "hidden", [])]).
  { split; [|reflexivity].
    repeat constructor; try discriminate; vm_compute; intuition discriminate. }
  assert (Hnil : attributes_ok []) by (split; [constructor|reflexivity]).
  assert (Hblank : blank (js " ")) by reflexivity.
  assert (Hplain : forall tagName w1,
             blank w1 -> opening_tag tagName [] (tagName ++ w1)).
  { intros tagName w1 Hw1.
    exact (opening_tag_intro tagName [] [] [] w1 eq_refl (spells_none true) Hw1). }
  split.
  - apply (proj1 round_trip_well_formed).
    apply (renders_markup (Comment (js "note")) (js "<!--note-->") [div]
             (js "< div  id = " ++ [dquote] ++ js "main" ++ [dquote]
              ++ js "hidden > a  b <br > <p>hi</p> </div> ") (js " ") Hblank).
    + apply (markup_comment (js "note")). vm_compute. reflexivity.
    + apply (renders_markup div
               (js "< div  id = " ++ [dquote] ++ js "main" ++ [dquote]
                ++ js "hidden > a  b <br > <p>hi</p> </div>") [] (js " ") []
               eq_refl); [|now apply renders_blank].
      apply (markup_element (js "div") [(js "id", js "main"); (js "hidden", [])]
               [Text (js "a  b"); Element (js "br") [] [];
                Element (js "p") [] [Text (js "hi")]]
               (js " div  id = " ++ [dquote] ++ js "main" ++ [dquote]
                ++ js "hidden ")
               (js " a  b <br > <p>hi</p> "));
        try reflexivity; try exact Hattrs; try (apply Hname; [discriminate|reflexivity]).
      * apply (opening_tag_intro (js "div") _ (js " ")
                 (js "  id = " ++ [dquote] ++ js "main" ++ [dquote] ++ js "hidden")
                 (js " ")); try reflexivity.
        apply (spells_valued true (js "id") (js "main") [(js "hidden", [])]
                 (js "  ") (js " ") (js " ") (js "hidden"));
          try reflexivity; try discriminate.
        -- repeat split; try discriminate; vm_compute; intuition discriminate.
        -- apply (spells_bare false (js "hidden") [] [] []);
             try reflexivity; try discriminate; try apply spells_none.
           apply Hname; [discriminate|reflexivity].
      * apply (renders_text_markup (js "a  b") (js " ") (js " ")
                 (Element (js "br") [] []) (js "<br >")
                 [Element (js "p") [] [Text (js "hi")]] (js " <p>hi</p> "));
          try exact Hblank.
        -- repeat split; try discriminate. vm_compute. intuition discriminate.
        -- apply (markup_void (js "br") [] (js "br ")); try reflexivity;
             try exact Hnil; try (apply Hname; [discriminate|reflexivity]).
           now apply (Hplain (js "br") (js " ")).
        -- apply (renders_markup (Element (js "p") [] [Text (js "hi")])
                   (js "<p>hi</p>") [] (js " ") (js " ") Hblank);
             [|now apply renders_blank].
           apply (markup_element (js "p") [] [Text (js "hi")] (js "p") (js "hi"));
             try reflexivity; try exact Hnil;
             try (apply Hname; [discriminate|reflexivity]).
           ++ now apply (Hplain (js "p") []).
           ++ apply (renders_text (js "hi") [] []); try reflexivity.
              repeat split; try discriminate. vm_compute. intuition discriminate.
  - apply (proj2 round_trip_well_formed).
    unfold div, canonical_document. split; [exact I|].
    repeat first
      [ apply Forall_cons | apply Forall_nil
      | progress cbn [canonical]
      | apply conj
      | exact I
      | reflexivity
      | progress (vm_compute; try reflexivity; try (intuition discriminate)) ].
Defined.

(** * Further properties *)

(** ** Attributes: the names, the values, the order *)

Lemma attr_matches_no_name (s : jsstring) :
  forallb (fun c => negb (is_name_char c)) s = true -> attr_matches s = [].
Proof.
  induction s as [|c s IH]; [reflexivity|]. simpl.
  intros H. apply andb_true_iff in H as [Hc Hs]. apply negb_true_iff in Hc.
  rewrite attr_matches_skip by now apply attr_match_here_no_name.
  now apply IH.
Qed.

Lemma blank_no_name (w : jsstring) :
  blank w -> forallb (fun c => negb (is_name_char c)) w = true.
Proof.
  unfold blank. rewrite !forallb_forall. intros H c Hc.
  specialize (H c Hc). destruct (is_name_char c) eqn:E; [|reflexivity].
  apply name_char_not_ws in E. congruence.
Qed.

(** X1.  Characters that are no name characters are passed over: put in
    front of a tag string they change nothing.  A tag string without any
    name character, an empty or a blank one in particular, yields the
    empty object. *)
Theorem extractAttributes_skips_other_characters :
  (forall junk s, forallb (fun c => negb (is_name_char c)) junk = true ->
                  extractAttributes (junk ++ s) = extractAttributes s)
  /\ (forall s, forallb (fun c => negb (is_name_char c)) s = true ->
                extractAttributes s = [])
  /\ (forall w, blank w -> extractAttributes w = []).
Proof.
  assert (H : forall junk s, forallb (fun c => negb (is_name_char c)) junk = true ->
                             extractAttributes (junk ++ s) = extractAttributes s).
  { intros junk s Hj. rewrite !extractAttributes_fold. f_equal.
    induction junk as [|c junk IH]; [reflexivity|].
    simpl in Hj. apply andb_true_iff in Hj as [Hc Hj]. apply negb_true_iff in Hc.
    simpl app. rewrite attr_matches_skip by now apply attr_match_here_no_name.
    now apply IH. }
  split; [exact H|].
  assert (H0 : forall s, forallb (fun c => negb (is_name_char c)) s = true ->
                         extractAttributes s = []).
  { intros s Hs. now rewrite extractAttributes_fold, attr_matches_no_name. }
  split; [exact H0|]. intros w Hw. apply H0. now apply blank_no_name.
Qed.

Lemma extractAttributes_skips_other_characters_witness :
  extractAttributes (js "/ = " ++ js "id='a'") = extractAttributes (js "id='a'")
  /\ extractAttributes (js " = / ") = []
  /\ extractAttributes (js "  ") = [].
Proof.
  split; [|split].
  - apply (proj1 extractAttributes_skips_other_characters). reflexivity.
  - apply (proj1 (proj2 extractAttributes_skips_other_characters)). reflexivity.
  - apply (proj2 (proj2 extractAttributes_skips_other_characters)). reflexivity.
Defined.

Lemma forallb_takeWhile (p : char -> bool) (s : jsstring) :
  forallb p (takeWhile p s) = true.
Proof.
  induction s as [|c s IH]; [reflexivity|]. simpl.
  destruct (p c) eqn:E; [|reflexivity]. simpl. now rewrite E.
Qed.

Lemma attr_match_here_name (s : jsstring) (m : attr_match) (n : nat) :
  attr_match_here s = Some (m, n) -> name_ok (group1 m).
Proof.
  unfold attr_match_here.
  pose proof (forallb_takeWhile is_name_char s) as Hall.
  destruct (takeWhile is_name_char s) as [|c name]; [discriminate|].
  destruct (value_group _) as [[[g2 g3] k]|]; intros [= <- _]; simpl;
    (split; [discriminate|exact Hall]).
Qed.

Lemma matches_skip_name (s : jsstring) : forall skip m,
  In m (matches_skip s skip) -> name_ok (group1 m).
Proof.
  induction s as [|c s IH]; intros skip m Hin; [contradiction|].
  simpl in Hin. destruct skip as [|k]; [|now apply (IH k)].
  destruct (attr_match_here (c :: s)) as [[m' n]|] eqn:E; [|now apply (IH 0%nat)].
  destruct Hin as [<-|Hin]; [|now apply (IH (n - 1)%nat)].
  now apply (attr_match_here_name _ _ _ E).
Qed.

Lemma attr_matches_name (s : jsstring) (m : attr_match) :
  In m (attr_matches s) -> name_ok (group1 m).
Proof. apply matches_skip_name. Qed.

Lemma obj_get_None_keys (o : obj) (k : jsstring) :
  obj_get o k = None <-> ~ In k (keys o).
Proof.
  induction o as [|[k' v] o IH]; simpl; [tauto|].
  destruct (jseq k' k) eqn:E.
  - apply jseq_eq in E. subst. split; [discriminate|]. intros H. exfalso. apply H. now left.
  - apply jseq_neq in E. rewrite IH. tauto.
Qed.

Lemma keys_obj_update (o : obj) (k v : jsstring) :
  keys (obj_update o k v) = keys o.
Proof.
  induction o as [|[k' v'] o IH]; [reflexivity|]. simpl.
  destruct (jseq k' k); simpl; [reflexivity|]. now rewrite IH.
Qed.

Lemma keys_obj_insert_index (n : N) (k v : jsstring) (o : obj) :
  forall k', In k' (keys (obj_insert_index n k v o)) <-> k' = k \/ In k' (keys o).
Proof.
  induction o as [|[k1 v1] o IH]; intros k'; simpl; [intuition|].
  destruct (array_index k1) as [m|]; [destruct (N.ltb m n)|]; simpl;
    try rewrite IH; intuition.
Qed.

Lemma NoDup_obj_insert_index (n : N) (k v : jsstring) (o : obj) :
  NoDup (keys o) -> ~ In k (keys o) -> NoDup (keys (obj_insert_index n k v o)).
Proof.
  induction o as [|[k1 v1] o IH]; intros Hnd Hk; simpl.
  - constructor; [intros []|constructor].
  - simpl in Hnd, Hk. inversion Hnd as [|? ? Hk1 Hnd']; subst.
    assert (Hhere : NoDup (keys ((k, v) :: (k1, v1) :: o))).
    { simpl. constructor; [exact Hk|exact Hnd]. }
    destruct (array_index k1) as [m|]; [destruct (N.ltb m n)|]; try exact Hhere.
    simpl. constructor.
    + rewrite keys_obj_insert_index. intros [->|H]; [|contradiction].
      apply Hk. now left.
    + apply IH; [exact Hnd'|]. intros H. apply Hk. now right.
Qed.

Lemma keys_obj_set (o : obj) (k v : jsstring) :
  forall k', In k' (keys (obj_set o k v))
             <-> In k' (keys o) \/ (k' = k /\ k <> proto_key).
Proof.
  intros k'. unfold obj_set. destruct (jseq k proto_key) eqn:Ep.
  - apply jseq_eq in Ep. intuition.
  - apply jseq_neq in Ep. destruct (obj_get o k) as [v0|] eqn:Eg.
    + rewrite keys_obj_update. split; [now left|].
      intros [H|[-> _]]; [exact H|].
      destruct (in_dec (list_eq_dec N.eq_dec) k (keys o)) as [Hin|Hout]; [exact Hin|].
      apply obj_get_None_keys in Hout. congruence.
    + destruct (array_index k).
      * rewrite keys_obj_insert_index. intuition.
      * unfold keys. rewrite map_app, in_app_iff. simpl. intuition.
Qed.

Lemma NoDup_obj_set (o : obj) (k v : jsstring) :
  NoDup (keys o) -> NoDup (keys (obj_set o k v)).
Proof.
  intros Hnd. unfold obj_set. destruct (jseq k proto_key); [exact Hnd|].
  destruct (obj_get o k) as [v0|] eqn:Eg.
  - now rewrite keys_obj_update.
  - apply obj_get_None_keys in Eg. destruct (array_index k).
    + now apply NoDup_obj_insert_index.
    + unfold keys. rewrite map_app. simpl.
      apply NoDup_app; [exact Hnd|constructor; [intros []|constructor]|].
      intros x Hx [<-|[]]. contradiction.
Qed.

Lemma keys_fold_record (ms : list attr_match) : forall o k,
  In k (keys (fold_left record_match ms o))
  <-> In k (keys o)
      \/ (k <> proto_key /\ exists m, In m ms /\ group1 m = k).
Proof.
  induction ms as [|m ms IH]; intros o k; simpl.
  - split; [now left|]. intros [H|(_ & m & [] & _)]. exact H.
  - rewrite IH. unfold record_match. rewrite keys_obj_set. split.
    + intros [[H|[-> Hp]]|(Hp & m' & Hin & Hm)].
      * now left.
      * right. split; [exact Hp|]. exists m. split; [now left|reflexivity].
      * right. split; [exact Hp|]. exists m'. split; [now right|exact Hm].
    + intros [H|(Hp & m' & [<-|Hin] & Hm)].
      * left. now left.
      * left. right. split; [now symmetry|]. now rewrite Hm.
      * right. split; [exact Hp|]. now exists m'.
Qed.

Lemma NoDup_fold_record (ms : list attr_match) : forall o,
  NoDup (keys o) -> NoDup (keys (fold_left record_match ms o)).
Proof.
  induction ms as [|m ms IH]; intros o Hnd; [exact Hnd|].
  simpl. apply IH. now apply NoDup_obj_set.
Qed.

Lemma extractAttributes_keys_matched (s k : jsstring) :
  In k (keys (extractAttributes s))
  <-> k <> proto_key /\ exists m, In m (attr_matches s) /\ group1 m = k.
Proof.
  rewrite extractAttributes_fold, keys_fold_record. simpl. tauto.
Qed.

Lemma extractAttributes_NoDup (s : jsstring) : NoDup (keys (extractAttributes s)).
Proof.
  rewrite extractAttributes_fold. apply NoDup_fold_record. constructor.
Qed.

(** X2.  The keys of the result are pairwise different; they are the
    names the pattern has matched, [__proto__] left out; each is a
    non-empty run of name characters. *)
Theorem extractAttributes_keys (s : jsstring) :
  NoDup (keys (extractAttributes s))
  /\ (forall k, In k (keys (extractAttributes s))
                <-> k <> proto_key /\ exists m, In m (attr_matches s) /\ group1 m = k)
  /\ (forall k, In k (keys (extractAttributes s)) -> name_ok k).
Proof.
  split; [apply extractAttributes_NoDup|]. split; [apply extractAttributes_keys_matched|].
  intros k H. apply extractAttributes_keys_matched in H as (_ & m & Hin & <-).
  now apply attr_matches_name in Hin.
Qed.

Lemma extractAttributes_keys_witness : name_ok (js "id").
Proof.
  apply (proj2 (proj2 (extractAttributes_keys (js "id='a' id=b __proto__")))).
  vm_compute. now left.
Defined.

Lemma quoted_value (q : char) (s v : jsstring) (n : nat) :
  quoted q s = Some (v, n) ->
  ~ In q v /\ n = (List.length v + 2)%nat /\ exists post, s = q :: v ++ q :: post.
Proof.
  intros H. split; [|split].
  - unfold quoted in H. destruct s as [|c s]; [discriminate|].
    destruct (N.eqb c q); [|discriminate].
    pose proof (forallb_takeWhile (fun x => negb (N.eqb x q)) s) as Hall.
    destruct (dropWhile _ s); [discriminate|]. injection H as <- _.
    rewrite forallb_forall in Hall. intros Hin. specialize (Hall _ Hin).
    now rewrite N.eqb_refl in Hall.
  - unfold quoted in H. destruct s as [|c s]; [discriminate|].
    destruct (N.eqb c q); [|discriminate].
    destruct (dropWhile _ s); [discriminate|]. now injection H as <- <-.
  - now apply quoted_shape in H.
Qed.

Lemma value_group_between (s : jsstring) g2 g3 (n : nat) :
  value_group s = Some (g2, g3, n) ->
  exists v, between_quotes v s
            /\ (g2 = Some v /\ g3 = None \/ g2 = None /\ g3 = Some v).
Proof.
  unfold value_group.
  pose proof (takeWhile_dropWhile is_ws s) as H1.
  destruct (dropWhile is_ws s) as [|c s1]; [discriminate|].
  destruct (N.eqb c 61); [|discriminate].
  pose proof (takeWhile_dropWhile is_ws s1) as H2.
  destruct (quoted squote (dropWhile is_ws s1)) as [[v m]|] eqn:Q1.
  - intros [= <- <- _]. exists v. split; [|now left].
    apply quoted_value in Q1 as (Hv & _ & post & Hp). rewrite Hp in H2.
    exists squote, (takeWhile is_ws s ++ c :: takeWhile is_ws s1), post.
    split; [now left|]. split; [exact Hv|].
    rewrite <- app_assoc. simpl. now rewrite H2, H1.
  - destruct (quoted dquote (dropWhile is_ws s1)) as [[v m]|] eqn:Q2;
      [|discriminate].
    intros [= <- <- _]. exists v. split; [|now right].
    apply quoted_value in Q2 as (Hv & _ & post & Hp). rewrite Hp in H2.
    exists dquote, (takeWhile is_ws s ++ c :: takeWhile is_ws s1), post.
    split; [now right|]. split; [exact Hv|].
    rewrite <- app_assoc. simpl. now rewrite H2, H1.
Qed.

Lemma attr_match_here_between (s : jsstring) (m : attr_match) (n : nat) :
  attr_match_here s = Some (m, n) ->
  match_value m = [] \/ between_quotes (match_value m) s.
Proof.
  unfold attr_match_here.
  pose proof (takeWhile_dropWhile is_name_char s) as Hs.
  destruct (takeWhile is_name_char s) as [|c name]; [discriminate|].
  destruct (value_group (dropWhile is_name_char s)) as [[[g2 g3] k]|] eqn:V.
  - intros [= <- _]. right.
    apply value_group_between in V as (v & (q & pre & post & Hq & Hnq & Hp) & Hg).
    assert (Hv : match_value {| group1 := c :: name; group2 := g2; group3 := g3 |} = v).
    { unfold match_value. simpl. destruct Hg as [[-> ->]|[-> ->]]; reflexivity. }
    rewrite Hv. exists q, ((c :: name) ++ pre), post. split; [exact Hq|].
    split; [exact Hnq|]. rewrite <- app_assoc, <- Hp. exact (eq_sym Hs).
  - intros [= <- _]. now left.
Qed.

Lemma between_quotes_suffix (v pre s : jsstring) :
  between_quotes v s -> between_quotes v (pre ++ s).
Proof.
  intros (q & p & post & Hq & Hnq & ->). exists q, (pre ++ p), post.
  split; [exact Hq|]. split; [exact Hnq|]. now rewrite <- app_assoc.
Qed.

Lemma matches_skip_between (s : jsstring) : forall skip m,
  In m (matches_skip s skip) ->
  match_value m = [] \/ between_quotes (match_value m) s.
Proof.
  induction s as [|c s IH]; intros skip m Hin; [contradiction|].
  assert (Hrec : forall k, In m (matches_skip s k) ->
                           match_value m = [] \/ between_quotes (match_value m) (c :: s)).
  { intros k Hk. destruct (IH k m Hk) as [H|H]; [now left|right].
    now apply (between_quotes_suffix _ [c]). }
  simpl in Hin. destruct skip as [|k]; [|now apply (Hrec k)].
  destruct (attr_match_here (c :: s)) as [[m' n]|] eqn:E; [|now apply (Hrec 0%nat)].
  destruct Hin as [<-|Hin]; [|now apply (Hrec (n - 1)%nat)].
  now apply (attr_match_here_between _ _ _ E).
Qed.

(** X3.  A value of the result is the empty string or stands in the tag
    string between two quotes of one kind, single or double, and holds
    no quote of that kind: what is written without quotes is never
    stored as a value. *)
Theorem extractAttributes_values_between_quotes (s k v : jsstring) :
  obj_get (extractAttributes s) k = Some v ->
  v = [] \/ between_quotes v s.
Proof.
  rewrite extractAttributes_lookup. destruct (jseq k proto_key); [discriminate|].
  intros H. apply last_value_in in H as (m & Hin & <-).
  now apply (matches_skip_between s 0%nat).
Qed.

Lemma extractAttributes_values_between_quotes_witness :
  js "b c" = []
  \/ between_quotes (js "b c") (js "a = 'b c' d=e").
Proof.
  apply (extractAttributes_values_between_quotes (js "a = 'b c' d=e") (js "a")).
  vm_compute. reflexivity.
Defined.

Lemma attr_matches_one (k w1 w2 : jsstring) (q : char) (v : jsstring) :
  name_ok k -> blank w1 -> blank w2 -> q = squote \/ q = dquote -> ~ In q v ->
  attr_matches (k ++ w1 ++ 61%N :: w2 ++ q :: v ++ [q])
  = [{| group1 := k;
        group2 := if N.eqb q squote then Some v else None;
        group3 := if N.eqb q squote then None else Some v |}].
Proof.
  intros Hk Hw1 Hw2 Hq Hv.
  set (tail := w1 ++ 61%N :: w2 ++ q :: v ++ [q]).
  assert (Hstop : forall c r, tail = c :: r -> is_name_char c = false).
  { unfold tail. intros c r E. destruct w1 as [|x w1].
    - now injection E as <- _.
    - injection E as <- _. unfold blank in Hw1. simpl in Hw1.
      apply andb_true_iff in Hw1 as [Hx _].
      destruct (is_name_char x) eqn:En; [|reflexivity].
      apply name_char_not_ws in En. congruence. }
  destruct (takeWhile_app_stop is_name_char k tail (proj2 Hk) Hstop) as [Ht Hd].
  assert (H : attr_match_here (k ++ tail)
              = Some ({| group1 := k;
                         group2 := if N.eqb q squote then Some v else None;
                         group3 := if N.eqb q squote then None else Some v |},
                      List.length (k ++ tail))).
  { unfold attr_match_here. rewrite Ht, Hd. unfold tail at 1.
    rewrite (value_group_spaced w1 w2 q v [] Hw1 Hw2 Hq Hv).
    destruct Hk as [Hne _]. destruct k as [|c k]; [contradiction|].
    do 2 f_equal. unfold tail. repeat (rewrite !length_app; cbn [List.length]). lia. }
  rewrite (attr_matches_match _ _ _ H). now rewrite skipn_all.
Qed.

(** X4.  One attribute, written with either kind of quote and with any
    whitespace around the equals sign, yields the one-entry object of its
    name and the text between the quotes, which may hold quotes of the
    other kind. *)
Theorem extractAttributes_one_attribute (k w1 w2 : jsstring) (q : char) (v : jsstring) :
  name_ok k -> k <> proto_key -> blank w1 -> blank w2 ->
  q = squote \/ q = dquote -> ~ In q v ->
  extractAttributes (k ++ w1 ++ js "=" ++ w2 ++ [q] ++ v ++ [q]) = [(k, v)].
Proof.
  intros Hk Hp Hw1 Hw2 Hq Hv.
  change (k ++ w1 ++ js "=" ++ w2 ++ [q] ++ v ++ [q])
    with (k ++ w1 ++ 61%N :: w2 ++ q :: v ++ [q]).
  rewrite extractAttributes_fold, attr_matches_one by assumption.
  simpl. unfold record_match, match_value. simpl.
  replace (match (if N.eqb q squote then Some v else None) with
           | Some v0 => v0
           | None => match (if N.eqb q squote then None else Some v) with
                     | Some v0 => v0
                     | None => []
                     end
           end) with v by (now destruct (N.eqb q squote)).
  now apply obj_set_fresh.
Qed.

Lemma extractAttributes_one_attribute_witness :
  extractAttributes (js "title" ++ js " " ++ js "=" ++ js "  " ++ [squote]
                     ++ (js "say " ++ [dquote] ++ js "hi" ++ [dquote]) ++ [squote])
  = [(js "title", js "say " ++ [dquote] ++ js "hi" ++ [dquote])].
Proof.
  apply (extractAttributes_one_attribute (js "title") (js " ") (js "  ") squote).
  - split; [discriminate|reflexivity].
  - discriminate.
  - reflexivity.
  - reflexivity.
  - now left.
  - vm_compute. intuition discriminate.
Defined.

(** X5.  [extractAttributes] reads back what [jsonToHtml] writes for the
    attributes of an element, trimmed as [htmlToJson] passes it or as it
    is: the result is the object rendered, for every object whose keys are
    names, whose values hold neither a double quote nor [>], and whose
    entries stand in the order in which assigning them one by one leaves
    them. *)
Theorem extractAttributes_reads_attrString (attributes : obj) :
  attributes_ok attributes ->
  extractAttributes (attrString attributes) = attributes
  /\ extractAttributes (trim (attrString attributes)) = attributes.
Proof.
  intros Hok. split; [|now apply extractAttributes_attrString].
  destruct Hok as [Hok Hfold]. rewrite extractAttributes_fold.
  rewrite attr_matches_attrString by assumption.
  rewrite <- Hfold at 2. clear.
  generalize (@nil (jsstring * jsstring)).
  induction attributes as [|[k v] rest IH]; intros o; [reflexivity|].
  simpl. rewrite IH. f_equal. unfold record_match, attr_to_match. simpl.
  destruct v; reflexivity.
Qed.

Lemma extractAttributes_reads_attrString_witness :
  extractAttributes
    (attrString [(js "2", js "x y"); (js "id", js "a"); (js "disabled", [])])
  = [(js "2", js "x y"); (js "id", js "a"); (js "disabled", [])]
  /\ extractAttributes
       (trim (attrString [(js "2", js "x y"); (js "id", js "a"); (js "disabled", [])]))
     = [(js "2", js "x y"); (js "id", js "a"); (js "disabled", [])].
Proof.
  apply extractAttributes_reads_attrString. split.
  - repeat constructor; simpl; try discriminate; intuition discriminate.
  - vm_compute. reflexivity.
Defined.

Lemma index_keys_first_app (ks : list jsstring) (k : jsstring) : forall lo,
  array_index k = None ->
  index_keys_first lo ks -> index_keys_first lo (ks ++ [k]).
Proof.
  induction ks as [|k1 ks IH]; intros lo Hk H; simpl.
  - rewrite Hk. constructor.
  - simpl in H. destruct (array_index k1).
    + destruct H as [H1 H2]. split; [exact H1|now apply IH].
    + apply Forall_app. split; [exact H|]. now repeat constructor.
Qed.

Lemma index_keys_first_insert (n : N) (k v : jsstring) (o : obj) : forall lo,
  array_index k = Some n -> (lo <= n)%N ->
  index_keys_first lo (keys o) ->
  index_keys_first lo (keys (obj_insert_index n k v o)).
Proof.
  induction o as [|[k1 v1] o IH]; intros lo Hk Hlo H.
  - simpl. rewrite Hk. now split.
  - simpl in H. cbn [obj_insert_index].
    destruct (array_index k1) as [m|] eqn:E1.
    + destruct H as [H1 H2]. destruct (N.ltb m n) eqn:Hlt.
      * apply N.ltb_lt in Hlt. simpl. rewrite E1. split; [exact H1|].
        apply IH; [exact Hk|lia|exact H2].
      * apply N.ltb_ge in Hlt. simpl. rewrite Hk, E1. repeat split; assumption.
    + simpl. rewrite Hk, E1. repeat split; assumption.
Qed.

Lemma index_keys_first_set (o : obj) (k v : jsstring) :
  index_keys_first 0 (keys o) -> index_keys_first 0 (keys (obj_set o k v)).
Proof.
  intros H. unfold obj_set. destruct (jseq k proto_key); [exact H|].
  destruct (obj_get o k).
  - now rewrite keys_obj_update.
  - destruct (array_index k) as [n|] eqn:E.
    + apply index_keys_first_insert; [exact E|lia|exact H].
    + unfold keys. rewrite map_app. now apply index_keys_first_app.
Qed.

Lemma index_keys_first_fold (ms : list attr_match) : forall o,
  index_keys_first 0 (keys o) ->
  index_keys_first 0 (keys (fold_left record_match ms o)).
Proof.
  induction ms as [|m ms IH]; intros o H; [exact H|].
  simpl. apply IH. now apply index_keys_first_set.
Qed.

(** X6.  The result lists its keys as a plain object enumerates them:
    names that are array indices come first, in ascending numeric order,
    whatever their order in the tag string; the other names follow.  A
    tag parsed and rendered has its attributes in that order. *)
Theorem extractAttributes_key_order :
  (forall s, index_keys_first 0 (keys (extractAttributes s)))
  /\ extractAttributes (js "b 10 a 9")
     = [(js "9", []); (js "10", []); (js "b", []); (js "a", [])]
  /\ jsonToHtml (htmlToJson (js "<td b 10 a 9></td>")) = js "<td 9 10 b a></td>".
Proof.
  split; [|split; vm_compute; reflexivity].
  intros s. rewrite extractAttributes_fold. apply index_keys_first_fold. exact I.
Qed.

(** ** Input without tags, and text before a tag *)

(** X7.  Input without any [<] yields one text node holding the input
    trimmed, or no node when nothing is left of it: the empty input and
    blank input yield the empty sequence. *)
Theorem htmlToJson_without_tags :
  (forall txt, ~ In 60%N txt -> htmlToJson txt = push_text [] (trim txt))
  /\ (forall w, blank w -> htmlToJson w = [])
  /\ htmlToJson [] = [].
Proof.
  split; [exact htmlToJson_text_only|]. split; [|reflexivity].
  intros w Hw. rewrite htmlToJson_text_only by now apply blank_no_lt.
  now rewrite trim_blank.
Qed.

Lemma htmlToJson_without_tags_witness :
  htmlToJson (js " a > b ") = push_text [] (trim (js " a > b "))
  /\ htmlToJson (js "   ") = [].
Proof.
  split.
  - apply (proj1 htmlToJson_without_tags). vm_compute. intuition discriminate.
  - apply (proj1 (proj2 htmlToJson_without_tags)). reflexivity.
Defined.

Lemma split_at_lt (x : jsstring) :
  ~ In 60%N x \/ exists a b, x = a ++ 60%N :: b /\ ~ In 60%N a.
Proof.
  induction x as [|c x IH]; [now left|].
  destruct (N.eq_dec c 60) as [->|Hc].
  - right. exists [], x. split; [reflexivity|intros []].
  - destruct IH as [H|(a & b & -> & Ha)].
    + left. intros [E|E]; [now apply Hc|contradiction].
    + right. exists (c :: a), b. split; [reflexivity|].
      intros [E|E]; [now apply Hc|contradiction].
Qed.

(** X8.  The text before the first [<] becomes one text node, trimmed,
    unless nothing is left of it, and the parse goes on as from that [<]
    alone.  Whitespace in front of any input changes nothing. *)
Theorem htmlToJson_text_before_tag :
  (forall txt rest, ~ In 60%N txt ->
     htmlToJson (txt ++ 60%N :: rest)
     = push_text [] (trim txt) ++ htmlToJson (60%N :: rest))
  /\ (forall w x, blank w -> htmlToJson (w ++ x) = htmlToJson x).
Proof.
  split; [exact htmlToJson_text_prefix|].
  intros w x Hw. pose proof (blank_no_lt _ Hw) as Hnw.
  assert (Ht : forall a, trim (w ++ a) = trim a).
  { intros a. rewrite <- (app_nil_r a) at 1. apply trim_blank_padded; [exact Hw|reflexivity]. }
  destruct (split_at_lt x) as [Hx|(a & b & -> & Ha)].
  - rewrite !htmlToJson_text_only, Ht; [reflexivity|exact Hx|].
    rewrite in_app_iff. tauto.
  - rewrite app_assoc, !htmlToJson_text_prefix, Ht; [reflexivity|exact Ha|].
    rewrite in_app_iff. tauto.
Qed.

Lemma htmlToJson_text_before_tag_witness :
  htmlToJson (js " a " ++ 60%N :: js "br>b")
  = push_text [] (trim (js " a ")) ++ htmlToJson (60%N :: js "br>b")
  /\ htmlToJson (js "  " ++ js "x<br>") = htmlToJson (js "x<br>").
Proof.
  split.
  - apply (proj1 htmlToJson_text_before_tag). vm_compute. intuition discriminate.
  - apply (proj2 htmlToJson_text_before_tag). reflexivity.
Defined.

(** ** A [<] that opens no element *)

Lemma jseq_firstn (pat s : jsstring) :
  jseq (firstn (List.length pat) s) pat = starts_with pat s.
Proof.
  revert s. induction pat as [|p pat IH]; intros s; [reflexivity|].
  destruct s as [|c s]; [reflexivity|]. simpl. rewrite IH.
  now rewrite N.eqb_sym.
Qed.

Lemma substring_0 (s : jsstring) (n : nat) :
  substring s 0 (Z.of_nat n) = firstn n s.
Proof.
  unfold substring. rewrite clamp_0. simpl Nat.min. simpl skipn.
  rewrite Nat.sub_0_r, Nat.max_0_l. unfold clamp, len.
  destruct (Nat.le_gt_cases n (List.length s)) as [H|H].
  - f_equal. lia.
  - replace (Z.to_nat (Z.min (Z.max (Z.of_nat n) 0) (Z.of_nat (List.length s))))
      with (List.length s) by lia.
    rewrite firstn_all. symmetry. apply firstn_all2. lia.
Qed.

Lemma comment_open_test (s : jsstring) :
  jseq (substring s 0 4) (js "<!--") = starts_with (js "<!--") s.
Proof.
  change (substring s 0 4) with (substring s 0 (Z.of_nat 4)).
  rewrite substring_0. apply (jseq_firstn (js "<!--")).
Qed.

Lemma substring_swap (s : jsstring) (a b : Z) : substring s a b = substring s b a.
Proof. unfold substring. now rewrite Nat.max_comm, Nat.min_comm. Qed.

(** X9.  A [<] that is followed neither by [/] nor by the opening of a
    comment, and after which no [>] occurs, ends the parse: the result is
    the text before it, and everything from that [<] on is dropped, a
    [<] at the very end of the input included. *)
Theorem htmlToJson_unterminated_tag (txt rest : jsstring) :
  ~ In 60%N txt -> ~ In 62%N rest ->
  starts_with (js "/") rest = false ->
  starts_with (js "!--") rest = false ->
  htmlToJson (txt ++ 60%N :: rest) = push_text [] (trim txt).
Proof.
  intros Htxt Hgt Hslash Hbang.
  rewrite htmlToJson_text_prefix by assumption.
  rewrite <- (app_nil_r (push_text [] (trim txt))) at 2. f_equal.
  set (s := 60%N :: rest).
  pose proof (htmlToJson_unfold s ltac:(discriminate)) as H.
  assert (E1 : indexOf s (js "<") 0 = 0).
  { rewrite indexOf_0. now rewrite (find_sub_here (js "<") s). }
  assert (E2 : jseq (substring s 0 4) (js "<!--") = false).
  { rewrite comment_open_test. exact Hbang. }
  assert (E4 : indexOf s (js ">") 0 = -1).
  { rewrite indexOf_0. change (js ">") with [62%N].
    rewrite find_sub_char_none; [reflexivity|].
    intros [E|E]; [discriminate|contradiction]. }
  unfold first_pass, iteration in H. cbv zeta in H.
  rewrite E1 in H. simpl (0 =? -1) in H. cbv iota in H.
  rewrite !Z.add_0_l, substring_same, E2, E4 in H.
  change (push_text [] (trim [])) with (@nil node) in H.
  destruct (len s <=? 1); [exact H|].
  destruct rest as [|c rest]; [exact H|].
  unfold s in H. rewrite charAt_0, charAt_1 in H.
  change (starts_with (js "/") (c :: rest)) with (N.eqb 47 c && true) in Hslash.
  rewrite andb_true_r, N.eqb_sym in Hslash.
  unfold char_is in H. rewrite Hslash, N.eqb_refl in H. exact H.
Qed.

Lemma htmlToJson_unterminated_tag_witness :
  htmlToJson (js "a " ++ 60%N :: js "b class=x <i") = push_text [] (trim (js "a ")).
Proof.
  apply htmlToJson_unterminated_tag.
  - vm_compute. intuition discriminate.
  - vm_compute. intuition discriminate.
  - reflexivity.
  - reflexivity.
Defined.

Lemma dropWhile_app_keep (p : char -> bool) (a : jsstring) (c : char) :
  p c = false -> exists r, dropWhile p (a ++ [c]) = r ++ [c].
Proof.
  intros Hc. induction a as [|x a [r IH]]; simpl.
  - rewrite Hc. now exists [].
  - destruct (p x); [now exists r|]. now exists (x :: a).
Qed.

Lemma trim_head_nonempty (c : char) (s : jsstring) :
  is_ws c = false -> (0 <? len (trim (c :: s))) = true.
Proof.
  intros Hc. unfold trim, trimStart. rewrite dropWhile_stop by assumption.
  unfold trimEnd. simpl rev.
  destruct (dropWhile_app_keep is_ws (rev s) c Hc) as [r ->].
  apply Z.ltb_lt. unfold len. rewrite length_rev, length_app. simpl. lia.
Qed.

(** X10.  Where the text between a [<] and the next [>] does not start,
    after trimming, with a name character, and the [<] opens neither a
    closing tag nor a comment, the [<] alone is skipped: what follows it
    is read as ordinary input, so that a document type declaration comes
    out as text. *)
Theorem htmlToJson_tag_without_name (t rest : jsstring) :
  ~ In 62%N t ->
  tagNameMatch (trim t) = None ->
  starts_with (js "/") t = false ->
  starts_with (js "!--") t = false ->
  htmlToJson (60%N :: t ++ 62%N :: rest) = htmlToJson (t ++ 62%N :: rest).
Proof.
  intros Hgt Hname Hslash Hbang.
  set (s := 60%N :: t ++ 62%N :: rest).
  pose proof (htmlToJson_unfold s ltac:(discriminate)) as H.
  pose proof (len_nonneg t) as Hlt. pose proof (len_nonneg rest) as Hlr.
  assert (Hls : len s = len t + 2 + len rest).
  { unfold s, len. simpl. rewrite length_app. simpl. lia. }
  assert (E1 : indexOf s (js "<") 0 = 0).
  { rewrite indexOf_0. now rewrite (find_sub_here (js "<") s). }
  assert (E2 : jseq (substring s 0 4) (js "<!--") = false).
  { rewrite comment_open_test. unfold s.
    change (starts_with (js "<!--") (60%N :: t ++ 62%N :: rest))
      with (starts_with (js "!--") (t ++ 62%N :: rest)).
    destruct (starts_with (js "!--") (t ++ 62%N :: rest)) eqn:E; [|reflexivity].
    apply starts_with_cut in E; [congruence|].
    vm_compute. intuition discriminate. }
  assert (E3 : char_is (charAt s 0) 60%N && negb (char_is (charAt s 1) 47%N) = true).
  { unfold s. destruct t as [|c t']; simpl app; rewrite charAt_0, charAt_1;
      [reflexivity|].
    change (starts_with (js "/") (c :: t')) with (N.eqb 47 c && true) in Hslash.
    rewrite andb_true_r, N.eqb_sym in Hslash.
    unfold char_is. now rewrite Hslash, N.eqb_refl. }
  assert (E4 : indexOf s (js ">") 0 = len t + 1).
  { rewrite indexOf_0. change (js ">") with [62%N].
    change s with ((60%N :: t) ++ 62%N :: rest).
    rewrite find_sub_app_char.
    - unfold len. simpl. lia.
    - intros [E|E]; [discriminate|contradiction]. }
  assert (E5 : substring s 1 (len t + 1) = t).
  { change s with ([60%N] ++ (t ++ 62%N :: rest)).
    rewrite (substring_app [60%N] _ 1 (len t + 1) 0 (len t)) by (unfold len; simpl; lia).
    apply substring_0_len. }
  unfold first_pass, iteration in H. cbv zeta in H.
  rewrite E1 in H. simpl (0 =? -1) in H. cbv iota in H.
  rewrite !Z.add_0_l, substring_same, E2, E3, E4, E5, Hname in H.
  replace (len s <=? 1) with false in H by (symmetry; apply Z.leb_gt; lia).
  replace (len t + 1 =? -1) with false in H by (symmetry; apply Z.eqb_neq; lia).
  destruct H as [_ H]. exact H.
Qed.

Lemma htmlToJson_tag_without_name_witness :
  htmlToJson (60%N :: js "!DOCTYPE html" ++ 62%N :: js "<p>a</p>")
  = htmlToJson (js "!DOCTYPE html" ++ 62%N :: js "<p>a</p>").
Proof.
  apply htmlToJson_tag_without_name.
  - vm_compute. intuition discriminate.
  - reflexivity.
  - reflexivity.
  - reflexivity.
Defined.

Example doctype_is_text :
  htmlToJson (js "<!DOCTYPE html><p>a</p>")
  = [Text (js "!DOCTYPE html>"); Element (js "p") [] [Text (js "a")]].
Proof. vm_compute. reflexivity. Qed.

(** X11.  At [</] the [<] alone is skipped and the rest, from the [/] on,
    is read as ordinary input; with no further [<] it becomes one text
    node that starts with the [/]. *)
Theorem htmlToJson_stray_closing_tag :
  (forall rest, htmlToJson (js "</" ++ rest) = htmlToJson (js "/" ++ rest))
  /\ (forall rest, ~ In 60%N rest ->
        htmlToJson (js "</" ++ rest) = [Text (trim (js "/" ++ rest))]).
Proof.
  assert (H1 : forall rest, htmlToJson (js "</" ++ rest) = htmlToJson (js "/" ++ rest)).
  { intros rest. set (s := js "</" ++ rest).
    pose proof (htmlToJson_unfold s ltac:(discriminate)) as H.
    pose proof (len_nonneg rest) as Hlr.
    assert (Hls : len s = 2 + len rest) by (unfold s; now rewrite len_app).
    assert (E1 : indexOf s (js "<") 0 = 0) by (now rewrite indexOf_0).
    assert (E2 : jseq (substring s 0 4) (js "<!--") = false)
      by (now rewrite comment_open_test).
    unfold first_pass, iteration in H. cbv zeta in H.
    rewrite E1 in H. simpl (0 =? -1) in H. cbv iota in H.
    rewrite !Z.add_0_l, substring_same, E2 in H.
    replace (len s <=? 1) with false in H by (symmetry; apply Z.leb_gt; lia).
    unfold s in H at 1 2 3 4. simpl in H. destruct H as [_ H]. exact H. }
  split; [exact H1|].
  intros rest Hrest. rewrite H1.
  rewrite htmlToJson_text_only by (intros [E|E]; [discriminate|contradiction]).
  unfold push_text. change (js "/" ++ rest) with (47%N :: rest).
  now rewrite trim_head_nonempty.
Qed.

Lemma htmlToJson_stray_closing_tag_witness :
  htmlToJson (js "</" ++ js "p> a ") = [Text (trim (js "/" ++ js "p> a "))].
Proof.
  apply (proj2 htmlToJson_stray_closing_tag). vm_compute. intuition discriminate.
Defined.

(** ** Comments *)

(** X12.  A comment whose closing marker is the first [-->] after its
    opening yields a comment node holding what stands between the two,
    trimmed; the text before it and the input after it are parsed on
    their own. *)
Theorem htmlToJson_reads_comment (txt body after : jsstring) :
  ~ In 60%N txt ->
  find_sub (js "-->") (js "<!--" ++ body ++ js "-->" ++ after)
  = Some (4 + List.length body)%nat ->
  htmlToJson (txt ++ js "<!--" ++ body ++ js "-->" ++ after)
  = push_text [] (trim txt) ++ Comment (trim body) :: htmlToJson after.
Proof.
  intros Htxt Hfind.
  change (txt ++ js "<!--" ++ body ++ js "-->" ++ after)
    with (txt ++ 60%N :: js "!--" ++ body ++ js "-->" ++ after).
  rewrite htmlToJson_text_prefix by assumption. f_equal.
  now apply htmlToJson_comment.
Qed.

Lemma htmlToJson_reads_comment_witness :
  htmlToJson (js "a" ++ js "<!--" ++ js " b -- c " ++ js "-->" ++ js "d-->")
  = push_text [] (trim (js "a")) ++ Comment (trim (js " b -- c ")) :: htmlToJson (js "d-->").
Proof.
  apply htmlToJson_reads_comment.
  - vm_compute. intuition discriminate.
  - vm_compute. reflexivity.
Defined.

(** X13.  The opening of a comment after which no [-->] occurs opens no
    comment: its [<] is skipped and the rest read as ordinary input. *)
Theorem htmlToJson_unterminated_comment (rest : jsstring) :
  find_sub (js "-->") (js "<!--" ++ rest) = None ->
  htmlToJson (js "<!--" ++ rest) = htmlToJson (js "!--" ++ rest).
Proof.
  intros Hnone. set (s := js "<!--" ++ rest).
  pose proof (htmlToJson_unfold s ltac:(discriminate)) as H.
  assert (Hls : 4 <= len s).
  { unfold s. rewrite len_app. pose proof (len_nonneg rest).
    change (len (js "<!--")) with 4. lia. }
  assert (E1 : indexOf s (js "<") 0 = 0).
  { rewrite indexOf_0. now rewrite (find_sub_here (js "<") s). }
  assert (E2 : jseq (substring s 0 4) (js "<!--") = true).
  { rewrite comment_open_test. apply starts_with_app. }
  assert (E3 : indexOf s (js "-->") 0 = -1).
  { rewrite indexOf_0. unfold s. now rewrite Hnone. }
  unfold first_pass, iteration in H. cbv zeta in H.
  rewrite E1 in H. simpl (0 =? -1) in H. cbv iota in H.
  rewrite !Z.add_0_l, substring_same, E2, E3 in H.
  replace (len s <=? 1) with false in H by (symmetry; apply Z.leb_gt; lia).
  simpl in H. destruct H as [_ H]. exact H.
Qed.

Lemma htmlToJson_unterminated_comment_witness :
  htmlToJson (js "<!--" ++ js " a -- > b") = htmlToJson (js "!--" ++ js " a -- > b").
Proof.
  apply htmlToJson_unterminated_comment. vm_compute. reflexivity.
Defined.

(** X14.  The closing marker may share its hyphens with the opening: the
    content is then taken between the two indices exchanged, and
    [<!-->] yields the comment [--], [<!--->] the comment [-]; the parse
    goes on right behind the [>]. *)
Theorem htmlToJson_comment_marker_overlap (after : jsstring) :
  htmlToJson (js "<!-->" ++ after) = Comment (js "--") :: htmlToJson after
  /\ htmlToJson (js "<!--->" ++ after) = Comment (js "-") :: htmlToJson after.
Proof.
  pose proof (len_nonneg after) as Hla.
  split.
  - set (s := js "<!-->" ++ after).
    pose proof (htmlToJson_unfold s ltac:(discriminate)) as H.
    assert (Hls : len s = 5 + len after) by (unfold s; now rewrite len_app).
    assert (E1 : indexOf s (js "<") 0 = 0) by (now rewrite indexOf_0).
    assert (E2 : jseq (substring s 0 4) (js "<!--") = true)
      by (now rewrite comment_open_test).
    assert (E3 : indexOf s (js "-->") 0 = 2) by (now rewrite indexOf_0).
    assert (E4 : substring s 4 2 = js "--").
    { rewrite substring_swap.
      change s with (js "<!" ++ (js "-->" ++ after)).
      rewrite (substring_app (js "<!") _ 2 4 0 2) by (unfold len; simpl; lia).
      exact (substring_0 (js "-->" ++ after) 2%nat). }
    unfold first_pass, iteration in H. cbv zeta in H.
    rewrite E1 in H. simpl (0 =? -1) in H. cbv iota in H.
    rewrite !Z.add_0_l, substring_same, E2, E3, E4 in H.
    replace (len s <=? 1) with false in H by (symmetry; apply Z.leb_gt; lia).
    simpl in H. destruct H as [_ H]. exact H.
  - set (s := js "<!--->" ++ after).
    pose proof (htmlToJson_unfold s ltac:(discriminate)) as H.
    assert (Hls : len s = 6 + len after) by (unfold s; now rewrite len_app).
    assert (E1 : indexOf s (js "<") 0 = 0) by (now rewrite indexOf_0).
    assert (E2 : jseq (substring s 0 4) (js "<!--") = true)
      by (now rewrite comment_open_test).
    assert (E3 : indexOf s (js "-->") 0 = 3) by (now rewrite indexOf_0).
    assert (E4 : substring s 4 3 = js "-").
    { rewrite substring_swap.
      change s with (js "<!-" ++ (js "-->" ++ after)).
      rewrite (substring_app (js "<!-") _ 3 4 0 1) by (unfold len; simpl; lia).
      exact (substring_0 (js "-->" ++ after) 1%nat). }
    unfold first_pass, iteration in H. cbv zeta in H.
    rewrite E1 in H. simpl (0 =? -1) in H. cbv iota in H.
    rewrite !Z.add_0_l, substring_same, E2, E3, E4 in H.
    replace (len s <=? 1) with false in H by (symmetry; apply Z.leb_gt; lia).
    simpl in H. destruct H as [_ H]. exact H.
Qed.

(** ** Elements *)

(** X15.  An opening tag that is not self-closed, of a name other than
    [script], with its closing tag somewhere behind it: the children of
    the element are the parse of the span up to the first closing tag,
    and the siblings that follow are the parse of what stands behind
    that closing tag.  The tag name is lower-cased; whitespace around
    the interior of the tag is ignored. *)
Theorem htmlToJson_element_extent (t rest name : jsstring) (p : nat) :
  ~ In 62%N t ->
  tagNameMatch (trim t) = Some name ->
  endsWith (trim t) (js "/") = false ->
  includes voidTags (toLowerCase name) = false ->
  jseq (toLowerCase name) (js "script") = false ->
  find_sub (js "</" ++ toLowerCase name ++ js ">") rest = Some p ->
  htmlToJson (60%N :: t ++ 62%N :: rest)
  = Element (toLowerCase name)
      (extractAttributes (trim (substring_from (trim t) (len (toLowerCase name)))))
      (htmlToJson (firstn p rest))
    :: htmlToJson (skipn (p + List.length (js "</" ++ toLowerCase name ++ js ">")) rest).
Proof.
  intros Hgt Hname Hslash Hvoid Hscript Hfind.
  rewrite (htmlToJson_open_tag t rest name Hgt Hname). cbv zeta.
  now rewrite Hslash, Hvoid, Hfind, Hscript.
Qed.

Lemma htmlToJson_element_extent_witness :
  htmlToJson (60%N :: js " P id=x " ++ 62%N :: js "a<b>c</b></p>d</p>")
  = Element (toLowerCase (js "P"))
      (extractAttributes
         (trim (substring_from (trim (js " P id=x ")) (len (toLowerCase (js "P"))))))
      (htmlToJson (firstn 9 (js "a<b>c</b></p>d</p>")))
    :: htmlToJson
         (skipn (9 + List.length (js "</" ++ toLowerCase (js "P") ++ js ">"))
            (js "a<b>c</b></p>d</p>")).
Proof.
  apply htmlToJson_element_extent.
  - vm_compute. intuition discriminate.
  - reflexivity.
  - reflexivity.
  - reflexivity.
  - reflexivity.
  - reflexivity.
Defined.

(** X16.  An opening tag behind which its closing tag does not occur
    yields a childless element, and what follows the tag is parsed as
    its siblings. *)
Theorem htmlToJson_missing_closing_tag (t rest name : jsstring) :
  ~ In 62%N t ->
  tagNameMatch (trim t) = Some name ->
  find_sub (js "</" ++ toLowerCase name ++ js ">") rest = None ->
  htmlToJson (60%N :: t ++ 62%N :: rest)
  = Element (toLowerCase name)
      (extractAttributes (trim (substring_from (trim t) (len (toLowerCase name)))))
      []
    :: htmlToJson rest.
Proof.
  intros Hgt Hname Hfind.
  rewrite (htmlToJson_open_tag t rest name Hgt Hname). cbv zeta.
  rewrite Hfind. now destruct (_ || _).
Qed.

Lemma htmlToJson_missing_closing_tag_witness :
  htmlToJson (60%N :: js "p" ++ 62%N :: js "a<i>b</i></P>")
  = Element (toLowerCase (js "p"))
      (extractAttributes
         (trim (substring_from (trim (js "p")) (len (toLowerCase (js "p"))))))
      []
    :: htmlToJson (js "a<i>b</i></P>").
Proof.
  apply htmlToJson_missing_closing_tag.
  - vm_compute. intuition discriminate.
  - reflexivity.
  - reflexivity.
Defined.

(** X17.  An opening tag whose interior ends in [/] yields a childless
    element whatever its name, and what follows the tag is parsed as its
    siblings, a closing tag of that name included. *)
Theorem htmlToJson_slash_closed_tag (t rest name : jsstring) :
  ~ In 62%N t ->
  tagNameMatch (trim t) = Some name ->
  endsWith (trim t) (js "/") = true ->
  htmlToJson (60%N :: t ++ 62%N :: rest)
  = Element (toLowerCase name)
      (extractAttributes (trim (substring_from (trim t) (len (toLowerCase name)))))
      []
    :: htmlToJson rest.
Proof.
  intros Hgt Hname Hslash.
  rewrite (htmlToJson_open_tag t rest name Hgt Hname). cbv zeta.
  now rewrite Hslash.
Qed.

Lemma htmlToJson_slash_closed_tag_witness :
  htmlToJson (60%N :: js "div id='a' / " ++ 62%N :: js "x</div>")
  = Element (toLowerCase (js "div"))
      (extractAttributes
         (trim (substring_from (trim (js "div id='a' / ")) (len (toLowerCase (js "div"))))))
      []
    :: htmlToJson (js "x</div>").
Proof.
  apply htmlToJson_slash_closed_tag.
  - vm_compute. intuition discriminate.
  - reflexivity.
  - reflexivity.
Defined.

(** X18.  A [script] element whose inner span is empty or blank has no
    children: the span is consumed and dropped. *)
Theorem htmlToJson_blank_script (t rest name : jsstring) (p : nat) :
  ~ In 62%N t ->
  tagNameMatch (trim t) = Some name ->
  toLowerCase name = js "script" ->
  endsWith (trim t) (js "/") = false ->
  find_sub (js "</script>") rest = Some p ->
  blank (firstn p rest) ->
  htmlToJson (60%N :: t ++ 62%N :: rest)
  = Element (js "script")
      (extractAttributes (trim (substring_from (trim t) 6))) []
    :: htmlToJson (skipn (p + 9) rest).
Proof.
  intros Hgt Hname Hscript Hslash Hfind Hblank.
  rewrite (htmlToJson_open_tag t rest name Hgt Hname). cbv zeta.
  rewrite Hscript, Hslash.
  change (includes voidTags (js "script")) with false.
  change (js "</" ++ js "script" ++ js ">") with (js "</script>").
  rewrite Hfind. simpl orb. cbv iota.
  change (jseq (js "script") (js "script")) with true. cbv iota.
  now rewrite (trim_blank _ Hblank).
Qed.

Lemma htmlToJson_blank_script_witness :
  htmlToJson (60%N :: js "script defer" ++ 62%N :: js "  </script>a")
  = Element (js "script")
      (extractAttributes (trim (substring_from (trim (js "script defer")) 6))) []
    :: htmlToJson (skipn (2 + 9) (js "  </script>a")).
Proof.
  apply (htmlToJson_blank_script (js "script defer") (js "  </script>a") (js "script")).
  - vm_compute. intuition discriminate.
  - reflexivity.
  - reflexivity.
  - reflexivity.
  - reflexivity.
  - reflexivity.
Defined.

(** ** The shape of the output *)

Lemma every_element (P : node -> Prop) (tagName : jsstring) (attributes : obj)
    (children : list node) :
  every P (Element tagName attributes children)
  <-> P (Element tagName attributes children) /\ Forall (every P) children.
Proof.
  simpl. apply and_iff_compat_l.
  induction children as [|c l IH]; [split; constructor|].
  rewrite IH. split.
  - intros [Hc Hl]. now constructor.
  - intros H. inversion H; subst. now split.
Qed.

Lemma in_dropWhile (p : char -> bool) (x : char) (s : jsstring) :
  In x (dropWhile p s) -> In x s.
Proof.
  intros H. rewrite <- (takeWhile_dropWhile p s). apply in_or_app. now right.
Qed.

Lemma in_trim (x : char) (s : jsstring) : In x (trim s) -> In x s.
Proof.
  unfold trim, trimEnd, trimStart. intros H.
  apply in_rev in H. apply in_dropWhile in H. apply in_rev in H.
  now apply in_dropWhile in H.
Qed.

Lemma dropWhile_nonempty_head (p : char -> bool) (s : jsstring) (c : char) (r : jsstring) :
  dropWhile p s = c :: r -> p c = false.
Proof. intros H. now apply dropWhile_head in H. Qed.

Lemma trim_ends (s : jsstring) (c : char) (r : jsstring) :
  trim s = c :: r ->
  is_ws c = false /\ exists d r', rev (c :: r) = d :: r' /\ is_ws d = false.
Proof.
  unfold trim, trimStart, trimEnd. intros H.
  destruct (dropWhile is_ws s) as [|c0 d0] eqn:Ed; [discriminate|].
  pose proof (dropWhile_nonempty_head _ _ _ _ Ed) as Hc0.
  simpl rev in H.
  destruct (dropWhile_app_keep is_ws (rev d0) c0 Hc0) as [x Hx].
  rewrite Hx, rev_app_distr in H. simpl in H. injection H as <- <-.
  split; [exact Hc0|].
  destruct x as [|d x'].
  - exists c0, []. split; [reflexivity|exact Hc0].
  - exists d, (x' ++ [c0]). split.
    + simpl. rewrite rev_app_distr, rev_involutive. reflexivity.
    + now apply (dropWhile_nonempty_head _ _ _ _ Hx).
Qed.

Lemma trim_idempotent (s : jsstring) : trim (trim s) = trim s.
Proof.
  destruct (trim s) as [|c r] eqn:E; [reflexivity|].
  destruct (trim_ends _ _ _ E) as (Hc & d & r' & Hr & Hd).
  now apply (trim_fixed c r d r').
Qed.

Lemma find_sub_char_None_inv (c : char) (a : jsstring) :
  find_sub [c] a = None -> ~ In c a.
Proof.
  induction a as [|x a IH]; intros H; [intros []|].
  simpl in H. destruct (N.eqb c x) eqn:E; [discriminate|].
  simpl in H. destruct (find_sub [c] a); [discriminate|].
  apply N.eqb_neq in E. intros [->|Hin]; [now apply E|now apply IH].
Qed.

Lemma find_sub_char_Some_inv (c : char) (a : jsstring) : forall p,
  find_sub [c] a = Some p -> ~ In c (firstn p a).
Proof.
  induction a as [|x a IH]; intros p H; [discriminate|].
  simpl in H. destruct (N.eqb c x) eqn:E.
  - injection H as <-. intros [].
  - simpl in H. destruct (find_sub [c] a) as [q|] eqn:F; [|discriminate].
    injection H as <-. simpl. apply N.eqb_neq in E.
    intros [->|Hin]; [now apply E|now apply (IH q)].
Qed.

Lemma text_rest_no_lt (html : jsstring) (index : Z) :
  indexOf html (js "<") index = -1 -> ~ In 60%N (substring_from html index).
Proof.
  unfold indexOf, substring_from. change (js "<") with [60%N].
  destruct (find_sub [60%N] (skipn (clamp html index) html)) eqn:F; [lia|].
  intros _. now apply find_sub_char_None_inv.
Qed.

Lemma text_before_no_lt (html : jsstring) (index : Z) :
  indexOf html (js "<") index <> -1 ->
  ~ In 60%N (substring html index (indexOf html (js "<") index)).
Proof.
  intros Hnb.
  destruct (indexOf_found _ _ _ _ eq_refl Hnb) as (Hlo & Hhi & _).
  revert Hlo Hhi. unfold indexOf, substring. change (js "<") with [60%N].
  destruct (find_sub [60%N] (skipn (clamp html index) html)) as [p|] eqn:F;
    [|intros; exfalso; unfold indexOf in Hnb; change (js "<") with [60%N] in Hnb;
      rewrite F in Hnb; now apply Hnb].
  intros _ Hhi. change (len [60%N]) with 1 in Hhi.
  rewrite (clamp_id html (Z.of_nat (clamp html index + p))) by lia.
  rewrite Nat2Z.id.
  replace (Nat.min (clamp html index) (clamp html index + p)) with (clamp html index) by lia.
  replace (Nat.max (clamp html index) (clamp html index + p) - clamp html index)%nat
    with p by lia.
  now apply find_sub_char_Some_inv.
Qed.

Lemma pushed_text_ok (content : jsstring) :
  ~ In 60%N content -> (0 <? len (trim content)) = true -> text_ok (trim content).
Proof.
  intros Hlt Hlen. split; [|split].
  - intros E. rewrite E in Hlen. discriminate.
  - apply trim_idempotent.
  - intros Hin. apply Hlt. now apply in_trim.
Qed.

Lemma lower_char_name (c : char) :
  is_name_char c = true -> is_name_char (lower_char c) = true.
Proof.
  unfold lower_char. destruct (N.leb 65 c && N.leb c 90) eqn:E; [|auto].
  intros _. apply andb_true_iff in E as [H1 H2].
  apply N.leb_le in H1, H2. unfold is_name_char.
  replace (N.leb 97 (c + 32)) with true by (symmetry; apply N.leb_le; lia).
  replace (N.leb (c + 32) 122) with true by (symmetry; apply N.leb_le; lia).
  reflexivity.
Qed.

Lemma lower_char_idempotent (c : char) : lower_char (lower_char c) = lower_char c.
Proof.
  unfold lower_char at 2. destruct (N.leb 65 c && N.leb c 90) eqn:E.
  - unfold lower_char. rewrite E.
    apply andb_true_iff in E as [H1 H2]. apply N.leb_le in H1, H2.
    replace (N.leb (c + 32) 90) with false by (symmetry; apply N.leb_gt; lia).
    now rewrite andb_false_r.
  - unfold lower_char. now rewrite E.
Qed.

Lemma toLowerCase_idempotent (s : jsstring) :
  toLowerCase (toLowerCase s) = toLowerCase s.
Proof.
  unfold toLowerCase. rewrite map_map. apply map_ext. apply lower_char_idempotent.
Qed.

Lemma tagNameMatch_name (full name : jsstring) :
  tagNameMatch full = Some name -> name_ok (toLowerCase name).
Proof.
  unfold tagNameMatch. pose proof (forallb_takeWhile is_name_char full) as Hall.
  destruct (takeWhile is_name_char full) as [|c r]; [discriminate|].
  intros [= <-]. split; [discriminate|].
  unfold toLowerCase. rewrite forallb_forall in *. intros x Hx.
  apply in_map_iff in Hx as (y & <- & Hy). apply lower_char_name. now apply Hall.
Qed.

(** What a pass pushes, for any property [Q] of nodes that holds of the
    nodes the loop builds. *)
Section Output.

Variable Q : node -> Prop.

Hypothesis Q_text : forall content, text_ok content -> Q (Text content).
Hypothesis Q_comment : forall content, trim content = content -> Q (Comment content).
Hypothesis Q_childless : forall tagName tagString,
  name_ok tagName -> toLowerCase tagName = tagName ->
  Q (Element tagName (extractAttributes tagString) []).
Hypothesis Q_script : forall tagString inner,
  trim inner <> [] ->
  Q (Element (js "script") (extractAttributes tagString) [Text inner]).
Hypothesis Q_parent : forall tagName tagString children,
  name_ok tagName -> toLowerCase tagName = tagName ->
  jseq tagName (js "script") = false ->
  includes voidTags tagName = false ->
  Forall Q children ->
  Q (Element tagName (extractAttributes tagString) children).

Lemma push_text_output (nodes : list node) (content : jsstring) :
  Forall Q nodes -> ~ In 60%N content ->
  Forall Q (push_text nodes (trim content)).
Proof.
  intros Hn Hlt. unfold push_text.
  destruct (0 <? len (trim content)) eqn:E; [|exact Hn].
  apply Forall_app. split; [exact Hn|]. constructor; [|constructor].
  apply Q_text. now apply pushed_text_ok.
Qed.

Lemma push_output (nodes : list node) (n : node) :
  Forall Q nodes -> Q n -> Forall Q (nodes ++ [n]).
Proof.
  intros H Hn. apply Forall_app. split; [exact H|]. now repeat constructor.
Qed.

Lemma iteration_output rec html index nodes o :
  (forall inner r, rec inner = Some r -> Forall Q r) ->
  Forall Q nodes ->
  iteration rec html index nodes = Some o ->
  Forall Q (outcome_nodes o).
Proof.
  intros Hrec Hnodes. unfold iteration. cbv zeta.
  destruct (indexOf html (js "<") index =? -1) eqn:Hnb.
  - apply Z.eqb_eq in Hnb. intros [= <-]. simpl.
    apply push_text_output; [exact Hnodes|]. now apply text_rest_no_lt.
  - apply Z.eqb_neq in Hnb.
    pose proof (push_text_output nodes _ Hnodes (text_before_no_lt html index Hnb)) as Hpt.
    set (nodes1 := push_text nodes (trim (substring html index (indexOf html (js "<") index)))) in *.
    set (nb := indexOf html (js "<") index) in *.
    destruct (len html <=? nb + 1); [now intros [= <-]|].
    destruct (jseq (substring html nb (nb + 4)) (js "<!--")).
    { destruct (negb _); intros [= <-]; simpl; [|exact Hpt].
      apply push_output; [exact Hpt|]. apply Q_comment, trim_idempotent. }
    destruct (char_is (charAt html nb) 60%N && negb (char_is (charAt html (nb + 1)) 47%N)).
    2:{ destruct (_ && _); now intros [= <-]. }
    destruct (indexOf html (js ">") nb =? -1); [now intros [= <-]|].
    destruct (tagNameMatch _) as [name|] eqn:Hname; [|now intros [= <-]].
    pose proof (tagNameMatch_name _ _ Hname) as Hok.
    pose proof (toLowerCase_idempotent name) as Hlow.
    set (tagName := toLowerCase name) in *.
    destruct (endsWith _ _ || includes voidTags tagName || _) eqn:Hsc.
    { intros [= <-]. simpl. apply push_output; [exact Hpt|]. now apply Q_childless. }
    apply orb_false_iff in Hsc as [Hsc _]. apply orb_false_iff in Hsc as [_ Hvoid].
    destruct (jseq tagName (js "script")) eqn:Hscript.
    { intros [= <-]. simpl. apply push_output; [exact Hpt|].
      apply jseq_eq in Hscript. rewrite Hscript.
      destruct (0 <? len (trim _)) eqn:Hinner.
      - apply Q_script. intros E. rewrite E in Hinner. discriminate.
      - apply Q_childless; [split; [discriminate|reflexivity]|reflexivity]. }
    destruct (rec _) as [children|] eqn:Hr; [|discriminate].
    intros [= <-]. simpl. apply push_output; [exact Hpt|].
    apply Q_parent; auto. eapply Hrec, Hr.
Qed.

Lemma parse_loop_output (fuel : nat) : forall html index nodes result,
  Forall Q nodes ->
  parse_loop fuel html index nodes = Some result ->
  Forall Q result.
Proof.
  induction fuel as [|fuel IH]; intros html index nodes result Hnodes;
    [discriminate|].
  simpl. destruct (index <? len html); [|now intros [= <-]].
  destruct (iteration _ html index nodes) as [o|] eqn:Hit; [|discriminate].
  apply iteration_output in Hit; [|eauto|exact Hnodes].
  destruct o as [ns|i ns]; [now intros [= <-]|]. now apply IH.
Qed.

Lemma htmlToJson_output (html : jsstring) : Forall Q (htmlToJson html).
Proof.
  apply (parse_loop_output (S (List.length html)) html 0 []);
    [constructor|]. apply htmlToJson_run. lia.
Qed.

End Output.

(** X19.  In the output, on any input, the tag name of every element, at
    any depth, is a non-empty run of name characters without upper-case
    letters. *)
Theorem htmlToJson_tag_names (html : jsstring) :
  Forall (every tag_name_ok) (htmlToJson html).
Proof.
  apply htmlToJson_output.
  - intros content _. simpl. tauto.
  - intros content _. simpl. tauto.
  - intros tagName a Hn Hl. apply every_element. split; [now split|constructor].
  - intros a inner _. apply every_element. split.
    + split; [split; [discriminate|reflexivity]|reflexivity].
    + repeat constructor.
  - intros tagName a children Hn Hl _ _ Hc. apply every_element. split; [now split|exact Hc].
Qed.

Lemma extractAttributes_clean (tagName tagString : jsstring) (children : list node) :
  attributes_clean (Element tagName (extractAttributes tagString) children).
Proof.
  split; [apply extractAttributes_NoDup|]. apply Forall_forall. intros k Hin.
  apply extractAttributes_keys_matched in Hin as (Hp & m & Hin & <-).
  split; [|exact Hp]. now apply attr_matches_name in Hin.
Qed.

(** X20.  In the output, on any input, the attributes of every element,
    at any depth, have pairwise different keys, each a non-empty run of
    name characters and none of them [__proto__]. *)
Theorem htmlToJson_attributes (html : jsstring) :
  Forall (every attributes_clean) (htmlToJson html).
Proof.
  apply htmlToJson_output.
  - intros content _. simpl. tauto.
  - intros content _. simpl. tauto.
  - intros tagName a _ _. apply every_element.
    split; [apply extractAttributes_clean|constructor].
  - intros a inner _. apply every_element.
    split; [apply extractAttributes_clean|]. repeat constructor.
  - intros tagName a children _ _ _ _ Hc. apply every_element.
    split; [apply extractAttributes_clean|exact Hc].
Qed.

(** X21.  In the output, on any input, every text node outside [script]
    is not empty, trimmed and free of [<], and every comment is trimmed,
    at the top and at any depth; a [script] element has no child or one
    text child that is not blank. *)
Theorem htmlToJson_texts (html : jsstring) :
  Forall plain_ok (htmlToJson html)
  /\ Forall (every children_ok) (htmlToJson html).
Proof.
  apply Forall_and_inv.
  apply (htmlToJson_output (fun n => plain_ok n /\ every children_ok n)).
  - intros content H. simpl. tauto.
  - intros content H. simpl. tauto.
  - intros tagName a _ _. split; [exact I|]. apply every_element. split; [|constructor].
    simpl. destruct (jseq tagName (js "script")); [now left|constructor].
  - intros a inner Hinner. split; [exact I|]. apply every_element. split.
    + simpl. right. now exists inner.
    + repeat constructor.
  - intros tagName a children _ _ Hscript _ Hc. apply Forall_and_inv in Hc as [Hp He].
    split; [exact I|]. apply every_element. split; [|exact He].
    simpl. now rewrite Hscript.
Qed.

(** ** The size of the output *)

Lemma node_count_element (tagName : jsstring) (attributes : obj) (children : list node) :
  node_count (Element tagName attributes children) = S (nodes_count children).
Proof.
  simpl. f_equal. induction children as [|c l IH]; [reflexivity|].
  unfold nodes_count. simpl. now rewrite IH.
Qed.

Lemma nodes_count_app (a b : list node) :
  nodes_count (a ++ b) = (nodes_count a + nodes_count b)%nat.
Proof. unfold nodes_count. now rewrite map_app, list_sum_app. Qed.

Lemma nodes_count_push (nodes : list node) (n : node) :
  nodes_count (nodes ++ [n]) = (nodes_count nodes + node_count n)%nat.
Proof. rewrite nodes_count_app. unfold nodes_count. simpl. lia. Qed.

Lemma len_dropWhile (p : char -> bool) (s : jsstring) :
  len (dropWhile p s) <= len s.
Proof.
  pose proof (length_takeWhile_dropWhile p s). unfold len. lia.
Qed.

Lemma len_trim (s : jsstring) : len (trim s) <= len s.
Proof.
  unfold trim, trimEnd, trimStart.
  pose proof (len_dropWhile is_ws s).
  pose proof (len_dropWhile is_ws (rev (dropWhile is_ws s))).
  unfold len in *. rewrite length_rev in *. lia.
Qed.

Lemma nodes_count_push_text (nodes : list node) (content : jsstring) :
  Z.of_nat (nodes_count (push_text nodes (trim content)))
  <= Z.of_nat (nodes_count nodes) + Z.min 1 (len content).
Proof.
  unfold push_text. pose proof (len_trim content). pose proof (len_nonneg content).
  destruct (0 <? len (trim content)) eqn:E.
  - apply Z.ltb_lt in E. rewrite nodes_count_push. simpl. lia.
  - lia.
Qed.

Lemma len_substring_from (s : jsstring) (a : Z) :
  0 <= a <= len s -> len (substring_from s a) = len s - a.
Proof.
  intros Ha. unfold substring_from, clamp, len in *. rewrite length_skipn. lia.
Qed.

Section Count.

Variable rec : jsstring -> option (list node).

Hypothesis rec_count : forall inner r,
  rec inner = Some r -> Z.of_nat (nodes_count r) <= len inner.

Lemma iteration_count html index nodes o :
  0 <= index < len html ->
  iteration rec html index nodes = Some o ->
  match o with
  | Break nodes' =>
      Z.of_nat (nodes_count nodes') + index <= Z.of_nat (nodes_count nodes) + len html
  | Continue index' nodes' =>
      Z.of_nat (nodes_count nodes') + index <= Z.of_nat (nodes_count nodes) + index'
  end.
Proof.
  intros Hi H. unfold iteration in H. cbv zeta in H.
  remember (indexOf html (js "<") index) as nb eqn:Enb. symmetry in Enb.
  destruct (nb =? -1) eqn:Hnb.
  { injection H as <-.
    pose proof (nodes_count_push_text nodes (substring_from html index)).
    rewrite len_substring_from in * by lia. lia. }
  apply Z.eqb_neq in Hnb.
  search_found Enb Hnb.
  pose proof (nodes_count_push_text nodes (substring html index nb)) as Hpt.
  rewrite len_substring in Hpt by lia.
  set (nodes1 := push_text nodes (trim (substring html index nb))) in *.
  destruct (len html <=? nb + 1) eqn:Hlen; [injection H as <-; lia|].
  apply Z.leb_gt in Hlen.
  destruct (jseq (substring html nb (nb + 4)) (js "<!--")).
  - remember (indexOf html (js "-->") nb) as ce eqn:Ece. symmetry in Ece.
    destruct (ce =? -1) eqn:Hce; simpl in H.
    + injection H as <-. lia.
    + apply Z.eqb_neq in Hce.
      search_found Ece Hce.
      injection H as <-. rewrite nodes_count_push. simpl. lia.
  - destruct (char_is (charAt html nb) 60%N && negb (char_is (charAt html (nb + 1)) 47%N)).
    + remember (indexOf html (js ">") nb) as te eqn:Ete. symmetry in Ete.
      destruct (te =? -1) eqn:Hte; [injection H as <-; lia|].
      apply Z.eqb_neq in Hte.
      search_found Ete Hte.
      destruct (tagNameMatch _) as [name|]; [|injection H as <-; lia].
      remember (js "</" ++ toLowerCase name ++ js ">") as endTag.
      remember (indexOf html endTag (nb + (te - nb + 1))) as ei eqn:Eei. symmetry in Eei.
      destruct (_ || (ei =? -1)) eqn:Hsc.
      * injection H as <-. rewrite nodes_count_push, node_count_element.
        unfold nodes_count at 2. simpl. lia.
      * apply orb_false_iff in Hsc as [_ Hei]. apply Z.eqb_neq in Hei.
        search_found Eei Hei.
        assert (Hle : 3 <= len endTag).
        { subst endTag. rewrite !len_app. pose proof (len_nonneg (toLowerCase name)).
          change (len (js "</")) with 2. change (len (js ">")) with 1. lia. }
        assert (Hin : len (substring html (nb + (te - nb + 1)) ei) = ei - (nb + (te - nb + 1)))
          by (apply len_substring; lia).
        destruct (jseq _ _).
        -- injection H as <-. rewrite nodes_count_push, node_count_element.
           destruct (0 <? len (trim _)); unfold nodes_count at 2; simpl; lia.
        -- destruct (rec _) as [children|] eqn:Hr; [|discriminate].
           apply rec_count in Hr.
           injection H as <-. rewrite nodes_count_push, node_count_element. lia.
    + destruct (_ && _); injection H as <-; lia.
Qed.

End Count.

Lemma parse_loop_count (fuel : nat) : forall html index nodes result,
  0 <= index <= len html ->
  parse_loop fuel html index nodes = Some result ->
  Z.of_nat (nodes_count result) + index <= Z.of_nat (nodes_count nodes) + len html.
Proof.
  induction fuel as [|fuel IH]; intros html index nodes result Hi; [discriminate|].
  simpl. destruct (index <? len html) eqn:Hlt; [|intros [= <-]; lia].
  apply Z.ltb_lt in Hlt.
  destruct (iteration _ html index nodes) as [o|] eqn:Hit; [|discriminate].
  pose proof Hit as Hc. apply iteration_count in Hc; [| |lia].
  2:{ intros inner r Hr. pose proof (len_nonneg inner).
      apply IH in Hr; [|lia]. simpl in Hr. lia. }
  destruct o as [ns|i ns]; [intros [= <-]; exact Hc|].
  apply iteration_progress in Hit; [|lia].
  intros Hr. apply IH in Hr; lia.
Qed.

(** X22.  The output, on any input, has at most as many nodes, counted
    at all depths, as the input has characters. *)
Theorem htmlToJson_node_count (html : jsstring) :
  (nodes_count (htmlToJson html) <= List.length html)%nat.
Proof.
  pose proof (parse_loop_count (S (List.length html)) html 0 [] (htmlToJson html)) as H.
  rewrite htmlToJson_run in H by lia. pose proof (len_nonneg html).
  specialize (H ltac:(lia) eq_refl). unfold len in H. simpl in H. lia.
Qed.

(** ** Rendering and reading back *)

(** X23.  Two canonical documents with the same rendering are the same
    document: on canonical documents [jsonToHtml] loses nothing. *)
Theorem jsonToHtml_injective_on_canonical (a b : list node) :
  canonical_document a -> canonical_document b ->
  jsonToHtml a = jsonToHtml b -> a = b.
Proof.
  intros Ha Hb H. rewrite <- (htmlToJson_jsonToHtml a Ha), H.
  now apply htmlToJson_jsonToHtml.
Qed.

Lemma jsonToHtml_injective_on_canonical_witness :
  [Element (js "br") [] []] = [Element (js "br") [] []].
Proof.
  apply jsonToHtml_injective_on_canonical.
  - split; [exact I|]. repeat constructor; try discriminate; reflexivity.
  - split; [exact I|]. repeat constructor; try discriminate; reflexivity.
  - reflexivity.
Defined.

(** X24.  A comment node without [-->] in its content, rendered and
    parsed, comes back with its content trimmed; a text node without
    [<], rendered and parsed, comes back trimmed, or not at all when it
    is blank. *)
Theorem leaf_round_trip :
  (forall content, find_sub (js "-->") content = None ->
     htmlToJson (jsonToHtml [Comment content]) = [Comment (trim content)])
  /\ (forall content, ~ In 60%N content ->
        htmlToJson (jsonToHtml [Text content]) = push_text [] (trim content)).
Proof.
  split.
  - intros content Hnone.
    pose proof (find_comment_end content [] Hnone) as Hend.
    pose proof (htmlToJson_comment (32%N :: content ++ [32%N]) []) as H.
    replace (jsonToHtml [Comment content])
      with (js "<!--" ++ (32%N :: content ++ [32%N]) ++ js "-->" ++ []).
    + rewrite H by exact Hend.
      change (32%N :: content ++ [32%N]) with ([32%N] ++ content ++ [32%N]).
      rewrite trim_blank_padded by reflexivity. reflexivity.
    + unfold jsonToHtml. simpl. rewrite <- !app_assoc. reflexivity.
  - intros content Hlt. unfold jsonToHtml. simpl. rewrite app_nil_r.
    now apply htmlToJson_text_only.
Qed.

Lemma leaf_round_trip_witness :
  htmlToJson (jsonToHtml [Comment (js "  a -- b ")]) = [Comment (trim (js "  a -- b "))]
  /\ htmlToJson (jsonToHtml [Text (js " x > y ")]) = push_text [] (trim (js " x > y ")).
Proof.
  split.
  - apply (proj1 leaf_round_trip). reflexivity.
  - apply (proj2 leaf_round_trip). vm_compute. intuition discriminate.
Defined.

(** ** The demo driver *)

(** X25.  The comparison of the demo driver fails on its own document.
    The parse of the document is the comment, the outer [div] and,
    behind it, the text [/div>]: the first [</div>], the one of the
    inner [div], has closed the outer [div], and the last one is left
    over. *)
Theorem demo_verification_fails :
  verification = false
  /\ exists children,
       jsonOutput
       = [Comment (js "This is a top-level comment about the structure");
          Element (js "div")
            [(js "id", js "main-container"); (js "class", js "layout-flex");
             (js "disabled", [])]
            children;
          Text (js "/div>")].
Proof.
  split; [vm_compute; reflexivity|]. eexists. vm_compute. reflexivity.
Qed.
